(** * STLTaxAuctionGeoprocessing: record extraction and address matching

    A shallow embedding of [Geoprocessing.py]:
    - [Re]: the fragment of Python's [re] engine that the record pattern
      uses (character classes, concatenation, capturing groups, greedy and
      lazy counted repetition, [re.findall]);
    - [Extractor]: [extract_property_data] from the concatenation of the
      page texts on;
    - [Resolver]: [get_best_match] and [fuzzy_match_addresses] over a small
      model of a pandas [DataFrame].

    The text is a sequence of 8-bit characters (code points 0..255). *)

From Stdlib Require Import List String Ascii DecimalString Bool Arith Lia QArith.
Import ListNotations.
Local Open Scope nat_scope.
Local Open Scope list_scope.

Set Implicit Arguments.

Module Re.

Definition chars := list ascii.
Definition caps := list (nat * chars).

Definition code (a : ascii) : nat := nat_of_ascii a.

Definition between (lo hi : nat) (a : ascii) : bool :=
  (lo <=? code a) && (code a <=? hi).

Definition is_char (c a : ascii) : bool := Ascii.eqb c a.

(** [\d]: the decimal digits. *)
Definition is_digit (a : ascii) : bool := between 48 57 a.

(** [\s] of a [str] pattern: tab, line feed, vertical tab, form feed,
    carriage return, the four separators 28..31, space, NEL and NBSP. *)
Definition is_space (a : ascii) : bool :=
  between 9 13 a || between 28 32 a || (code a =? 133) || (code a =? 160).

(** [\w] of a [str] pattern: alphanumerics and the underscore. *)
Definition is_word (a : ascii) : bool :=
  is_digit a || between 65 90 a || (code a =? 95) || between 97 122 a
  || (code a =? 170) || between 178 179 a || (code a =? 181)
  || between 185 186 a || between 188 190 a || between 192 214 a
  || between 216 246 a || between 248 255 a.

(** [.] without DOTALL: anything but a line feed. *)
Definition is_any (a : ascii) : bool := negb (code a =? 10).

(** [[\w\s\.\'\-]] *)
Definition is_addr_char (a : ascii) : bool :=
  is_word a || is_space a || is_char "." a || is_char "'" a || is_char "-" a.

(** The pattern syntax in use. [Rep g lo hi r] is [r{lo,hi}] ([hi = None]
    for no upper bound), greedy when [g] and lazy ([...?]) otherwise. *)
Inductive regex : Type :=
| Chr (p : ascii -> bool)
| Cat (r1 r2 : regex)
| Grp (n : nat) (r : regex)
| Rep (greedy : bool) (lo : nat) (hi : option nat) (r : regex).

(** One way to match: how many characters were consumed and the captures. *)
Definition outcome : Type := nat * caps.

Definition shift (n1 : nat) (o : outcome) : outcome := (n1 + fst o, snd o).

(** Counted repetition of [body]. The alternatives come in the order the
    backtracking engine tries them: a greedy repetition tries one more
    iteration before it tries to stop, a lazy one the other way round.  An
    iteration consumes at least one character (every repeated item of the
    record pattern does), so [fuel = length s] iterations are never
    exceeded. *)
Fixpoint rep (body : chars -> caps -> list outcome) (greedy : bool)
    (fuel lo : nat) (hi : option nat) (s : chars) (c : caps) : list outcome :=
  match fuel with
  | O => match lo with O => [(0, c)] | S _ => [] end
  | S fuel' =>
      let more :=
        match hi with
        | Some O => []
        | _ =>
            flat_map (fun o1 : outcome =>
                        match fst o1 with
                        | O => []
                        | S _ =>
                            map (shift (fst o1))
                              (rep body greedy fuel' (pred lo) (option_map pred hi)
                                 (skipn (fst o1) s) (snd o1))
                        end)
              (body s c)
        end in
      match lo with
      | S _ => more
      | O => if greedy then more ++ [(0, c)] else (0, c) :: more
      end
  end.

(** All the ways [r] matches a prefix of [s], in the engine's order of
    preference: the engine commits to the first one that lets the rest of
    the pattern succeed. *)
Fixpoint run (r : regex) (s : chars) (c : caps) {struct r} : list outcome :=
  match r with
  | Chr p =>
      match s with
      | a :: _ => if p a then [(1, c)] else []
      | [] => []
      end
  | Cat r1 r2 =>
      flat_map (fun o1 : outcome =>
                  map (shift (fst o1)) (run r2 (skipn (fst o1) s) (snd o1)))
        (run r1 s c)
  | Grp n r1 =>
      map (fun o : outcome => (fst o, (n, firstn (fst o) s) :: snd o)) (run r1 s c)
  | Rep greedy lo hi r1 => rep (run r1) greedy (List.length s) lo hi s c
  end.

(** [m.group(k)], the empty string for a group that took no part. *)
Definition group (k : nat) (c : caps) : string :=
  match find (fun p : nat * chars => fst p =? k) c with
  | Some p => string_of_list_ascii (snd p)
  | None => EmptyString
  end.

Definition groups (n : nat) (c : caps) : list string :=
  map (fun k => group k c) (seq 1 n).

(** [re.findall] for a pattern with [n > 1] groups: scan left to right,
    at each position take the first way to match, report its groups and
    resume after the match ([skip] characters remain to be passed over). *)
Fixpoint findall_from (r : regex) (n : nat) (skip : nat) (s : chars)
    {struct s} : list (list string) :=
  match skip with
  | S k =>
      match s with
      | [] => []
      | _ :: t => findall_from r n k t
      end
  | O =>
      match run r s [] with
      | o :: _ =>
          groups n (snd o) ::
          match s with
          | [] => []
          | _ :: t => findall_from r n (pred (fst o)) t
          end
      | [] =>
          match s with
          | [] => []
          | _ :: t => findall_from r n 0 t
          end
      end
  end.

Definition findall (r : regex) (n : nat) (text : string) : list (list string) :=
  findall_from r n 0 (list_ascii_of_string text).

(** What it means for [r] to match the word [w], taking the captures from
    [c] to [c']; stated apart from the search order of [run]. *)
Inductive Match : regex -> chars -> caps -> caps -> Prop :=
| Match_chr p a c :
    p a = true -> Match (Chr p) [a] c c
| Match_cat r1 r2 w1 w2 c c1 c2 :
    Match r1 w1 c c1 -> Match r2 w2 c1 c2 -> Match (Cat r1 r2) (w1 ++ w2) c c2
| Match_grp n r w c c1 :
    Match r w c c1 -> Match (Grp n r) w c ((n, w) :: c1)
| Match_stop g hi r c :
    Match (Rep g 0 hi r) [] c c
| Match_more g lo hi r w1 w2 c c1 c2 :
    hi <> Some 0 -> w1 <> [] ->
    Match r w1 c c1 ->
    Match (Rep g (pred lo) (option_map pred hi) r) w2 c1 c2 ->
    Match (Rep g lo hi r) (w1 ++ w2) c c2.

(** The outcome [o] of a search on [s] is a match of [r]. *)
Definition sound (r : regex) (s : chars) (c : caps) (o : outcome) : Prop :=
  fst o <= List.length s /\ Match r (firstn (fst o) s) c (snd o).

(** [r] occurs in [s]: some stretch of [s] matches it. *)
Definition occurs (r : regex) (s : chars) : Prop :=
  exists pre w post c, s = pre ++ w ++ post /\ Match r w [] c.

Fixpoint groupless (r : regex) : bool :=
  match r with
  | Chr _ => true
  | Cat r1 r2 => groupless r1 && groupless r2
  | Grp _ _ => false
  | Rep _ _ _ r1 => groupless r1
  end.

(** Pattern notation helpers. *)
Definition lit (c : ascii) : regex := Chr (is_char c).
Definition times (n : nat) (r : regex) : regex := Rep true n (Some n) r.
Definition upto (lo hi : nat) (r : regex) : regex := Rep true lo (Some hi) r.
Definition opt (r : regex) : regex := Rep true 0 (Some 1) r.
Definition star (r : regex) : regex := Rep true 0 None r.
Definition plus (r : regex) : regex := Rep true 1 None r.
Definition plus_lazy (r : regex) : regex := Rep false 1 None r.

Declare Scope re_scope.
Delimit Scope re_scope with re.
Infix "@@" := Cat (at level 61, right associativity) : re_scope.

End Re.

(** * A small model of pandas *)
Module Frame.

(** A cell holds a string, a number, or is null ([None] / [NaN]). *)
Inductive cell : Type :=
| Str (s : string)
| Num (q : Q)
| Null.

(** A [DataFrame]: the column labels and the rows, each row aligned with
    the labels. *)
Record DataFrame : Type := { columns : list string; rows : list (list cell) }.

Inductive exn : Type :=
| KeyError (key : string)
| TypeError (msg : string)
| OSError (msg : string).

(** [str(e)] *)
Definition str (e : exn) : string :=
  match e with
  | KeyError key => append "'" (append key "'")
  | TypeError msg => msg
  | OSError msg => msg
  end.

(** [str(n)] for a non-negative integer. *)
Definition str_nat (n : nat) : string := NilEmpty.string_of_uint (Nat.to_uint n).

(** What a run does to the outside world, in order. *)
Inductive event : Type :=
| Print (msg : string)
| ToCsv (path : string) (df : DataFrame)
| Matching (address : cell).

(** A computation: the events it performed and how it ended. *)
Definition io (A : Type) : Type := list event * (exn + A).

Definition ret {A} (a : A) : io A := ([], inr a).
Definition raise {A} (e : exn) : io A := ([], inl e).
Definition bind {A B} (m : io A) (f : A -> io B) : io B :=
  match snd m with
  | inl e => (fst m, inl e)
  | inr a => (fst m ++ fst (f a), snd (f a))
  end.
Definition lift {A} (r : exn + A) : io A := ([], r).
Definition print (msg : string) : io unit := ([Print msg], inr tt).

(** [try: body except Exception: handler] *)
Definition try_except {A} (body : io A) (handler : exn -> io A) : io A :=
  match snd body with
  | inl e => (fst body ++ fst (handler e), snd (handler e))
  | inr a => body
  end.

(** [try: body finally: close()], where [close] raises [closing] if it
    raises at all: the exception of [close] is the one that leaves, then
    the one of the body. *)
Definition try_finally {A} (body : io A) (closing : option exn) : io A :=
  match closing with
  | Some e => (fst body, inl e)
  | None => body
  end.

Fixpoint index_of (c : string) (cols : list string) : option nat :=
  match cols with
  | [] => None
  | c' :: t => if String.eqb c c' then Some 0 else option_map S (index_of c t)
  end.

Definition at_col (i : nat) (row : list cell) : cell := nth i row Null.

(** [df[col]] *)
Definition getitem (df : DataFrame) (col : string) : exn + list cell :=
  match index_of col (columns df) with
  | Some i => inr (map (at_col i) (rows df))
  | None => inl (KeyError col)
  end.

Fixpoint set_nth (i : nat) (v : cell) (row : list cell) : list cell :=
  match i, row with
  | O, _ :: t => v :: t
  | S i', x :: t => x :: set_nth i' v t
  | _, [] => []
  end.

(** [df[col] = values], for [values] a column of [df] itself: an existing
    column is overwritten in place, a new one is added on the right. *)
Definition setitem (df : DataFrame) (col : string) (values : list cell) : DataFrame :=
  match index_of col (columns df) with
  | Some i =>
      {| columns := columns df;
         rows := map (fun rv : list cell * cell => set_nth i (snd rv) (fst rv))
                     (combine (rows df) values) |}
  | None =>
      {| columns := columns df ++ [col];
         rows := map (fun rv : list cell * cell => fst rv ++ [snd rv])
                     (combine (rows df) values) |}
  end.

(** Join keys are compared by value; null keys match each other. *)
Definition key_eqb (a b : cell) : bool :=
  match a, b with
  | Str x, Str y => String.eqb x y
  | Num x, Num y => Qeq_bool x y
  | Null, Null => true
  | _, _ => false
  end.

Inductive join : Type := Inner | Left.

Definition mem (c : string) (l : list string) : bool :=
  existsb (String.eqb c) l.

Fixpoint drop_nth {A} (i : nat) (l : list A) : list A :=
  match i, l with
  | _, [] => []
  | O, _ :: t => t
  | S i', x :: t => x :: drop_nth i' t
  end.

(** What the right table contributes: everything, less its key column
    when the key label is shared. *)
Definition right_part {A} (same : bool) (j : nat) (l : list A) : list A :=
  if same then drop_nth j l else l.

Definition with_suffix (overlap : list string) (suffix c : string) : string :=
  if mem c overlap then append c suffix else c.

(** [left.merge(right, left_on=.., right_on=.., how=.., suffixes=..)].
    Rows come in the order of the left table, each left row once per right
    row with an equal key; a left row without partner is dropped by an
    inner join and padded with nulls by a left join.  When both keys have
    the same label the key column appears once; other labels that occur on
    both sides get the suffixes. *)
Definition merge (how : join) (left right : DataFrame)
    (left_on right_on : string) (suffixes : string * string)
    : exn + DataFrame :=
  match index_of left_on (columns left), index_of right_on (columns right) with
  | None, _ => inl (KeyError left_on)
  | _, None => inl (KeyError right_on)
  | Some i, Some j =>
      let same := String.eqb left_on right_on in
      let rcols := right_part same j (columns right) in
      let overlap :=
        filter (fun c => mem c rcols && negb (same && String.eqb c left_on))
               (columns left) in
      let partners (l : list cell) :=
        filter (fun r => key_eqb (at_col i l) (at_col j r)) (rows right) in
      inr {| columns := map (with_suffix overlap (fst suffixes)) (columns left)
                        ++ map (with_suffix overlap (snd suffixes)) rcols;
             rows :=
               flat_map (fun l =>
                           match partners l with
                           | [] =>
                               match how with
                               | Left => [l ++ map (fun _ => Null) rcols]
                               | Inner => []
                               end
                           | ps => map (fun r => l ++ right_part same j r) ps
                           end)
                 (rows left) |}
  end.

(** [q < 100] on a cell of a numeric column: false on a null. *)
Definition Qltb (a b : Q) : bool := negb (Qle_bool b a).

Definition cell_lt (bound : Q) (c : cell) : exn + bool :=
  match c with
  | Num q => inr (Qltb q bound)
  | Null => inr false
  | Str _ => inl (TypeError "'<' not supported between instances of 'str' and 'int'")
  end.

Fixpoint sequence {A} (l : list (exn + A)) : exn + list A :=
  match l with
  | [] => inr []
  | inl e :: _ => inl e
  | inr a :: t =>
      match sequence t with
      | inl e => inl e
      | inr t' => inr (a :: t')
      end
  end.

(** [df[mask]]: the rows whose mask entry is true, in order. *)
Definition select (df : DataFrame) (mask : list bool) : DataFrame :=
  {| columns := columns df;
     rows := map fst (filter snd (combine (rows df) mask)) |}.

(** [df[df[col] < bound]] *)
Definition where_lt (df : DataFrame) (col : string) (bound : Q) : exn + DataFrame :=
  match getitem df col with
  | inl e => inl e
  | inr cs =>
      match sequence (map (cell_lt bound) cs) with
      | inl e => inl e
      | inr mask => inr (select df mask)
      end
  end.

Declare Scope io_scope.
Delimit Scope io_scope with io.
Notation "x <- m ;; k" := (bind m (fun x => k))
  (at level 100, m at next level, right associativity) : io_scope.
Notation "m ;;; k" := (bind m (fun _ => k))
  (at level 100, right associativity) : io_scope.

End Frame.

(** * Step 3: extract property data *)
Module Extractor.
Import Re Frame.
Local Open Scope re_scope.
Local Open Scope string_scope.

(** [\d{3}-\d{3}(?:-\d{3})?] *)
Definition id_re : regex :=
  times 3 (Chr is_digit) @@ lit "-" @@ times 3 (Chr is_digit) @@
  opt (lit "-" @@ times 3 (Chr is_digit)).

(** [.+?] *)
Definition owner_re : regex := plus_lazy (Chr is_any).

(** [\d{1,5}\s[\w\s\.\'\-]+?] *)
Definition address_re : regex :=
  upto 1 5 (Chr is_digit) @@ Chr is_space @@ plus_lazy (Chr is_addr_char).

(** [\d{1,3}(?:,\d{3})*(?:\.\d{2})] *)
Definition amount_re : regex :=
  upto 1 3 (Chr is_digit) @@ star (lit "," @@ times 3 (Chr is_digit)) @@
  lit "." @@ times 2 (Chr is_digit).

(** The [pattern] of [extract_property_data]:
    [(id)\s+(owner)\s+(address)\s+\$(amount)]. *)
Definition pattern : regex :=
  Grp 1 id_re @@ plus (Chr is_space) @@
  Grp 2 owner_re @@ plus (Chr is_space) @@
  Grp 3 address_re @@ plus (Chr is_space) @@
  lit "$" @@ Grp 4 amount_re.

(** The shapes of the fields, in their own words. *)
Definition digits (w : chars) : Prop := forallb is_digit w = true.

(** [ddd-ddd] or [ddd-ddd-ddd] *)
Definition identifier_shape (w : chars) : Prop :=
  exists a b : chars,
    digits a /\ List.length a = 3 /\ digits b /\ List.length b = 3 /\
    (w = (a ++ "-"%char :: b)%list \/
     exists c : chars,
       digits c /\ List.length c = 3 /\
       w = (a ++ "-"%char :: b ++ "-"%char :: c)%list).

(** One to five digits, one whitespace character, then at least one
    character of the class [[\w\s\.\'\-]]. *)
Definition address_shape (w : chars) : Prop :=
  exists (num : chars) (sp : ascii) (rest : chars),
    w = (num ++ sp :: rest)%list /\
    digits num /\ 1 <= List.length num <= 5 /\
    is_space sp = true /\
    rest <> [] /\ forallb is_addr_char rest = true.

(** Ends with a period and two digits. *)
Definition amount_shape (w : chars) : Prop :=
  exists (body : chars) (d1 d2 : ascii),
    w = (body ++ ["."%char; d1; d2])%list /\ is_digit d1 = true /\ is_digit d2 = true.

(** Every currency symbol that a digit follows is followed by at least
    four digits in a row, as in [$1234.56]. *)
Definition four_digits (s : chars) : bool :=
  match s with
  | d1 :: d2 :: d3 :: d4 :: _ => is_digit d1 && is_digit d2 && is_digit d3 && is_digit d4
  | _ => false
  end.

Fixpoint amounts_unseparated (s : chars) : bool :=
  match s with
  | [] => true
  | a :: t =>
      (if is_char "$" a
       then match t with
            | d :: _ => negb (is_digit d) || four_digits t
            | [] => true
            end
       else true)
      && amounts_unseparated t
  end.

(** One to three digits, groups of a comma and three digits, a period and
    two digits. *)
Definition amount_grammar (w : chars) : Prop :=
  exists (ds : chars) (gs : list chars) (d1 d2 : ascii),
    w = (ds ++ List.concat (map (cons ","%char) gs) ++ ["."%char; d1; d2])%list /\
    digits ds /\ 1 <= List.length ds <= 3 /\
    Forall (fun g => digits g /\ List.length g = 3) gs /\
    is_digit d1 = true /\ is_digit d2 = true.

(** The four fields of a record have the shapes of the pattern. *)
Definition record_shape (rec : list string) : Prop :=
  exists id owner address amount : string,
    rec = [id; owner; address; amount] /\
    identifier_shape (list_ascii_of_string id) /\
    address_shape (list_ascii_of_string address) /\
    amount_shape (list_ascii_of_string amount).

(** No character of [s] is in the class [p]. *)
Definition free_of (p : ascii -> bool) (s : string) : bool :=
  forallb (fun a => negb (p a)) (list_ascii_of_string s).

(** The record of the specification's example. *)
Definition sample_text : string := "123-456-789 JOHN DOE 456 Main St. $1,234.56".

Definition sample_record : list string :=
  ["123-456-789"; "JOHN DOE"; "456 Main St."; "1,234.56"].

Definition find_records (full_text : string) : list (list string) :=
  findall pattern 4 full_text.


(** An open PDF: the pages its iteration yields, each with its text or
    the error [get_text] raises on it; the exception that ends the
    iteration behind these pages, if it does not end normally; the
    exception [close] raises, if any. *)
Record document : Type := {
  pages : list (exn + string);
  stops : option exn;
  close_error : option exn
}.

(** A document that is iterated to its end and closed without exception. *)
Definition intact (pages : list (exn + string)) : document :=
  {| pages := pages; stops := None; close_error := None |}.

(** What the run finds outside: whether a path exists, what opening a PDF
    gives, and the error writing a CSV to a path would raise, if any. *)
Record world : Type := {
  path_exists : string -> bool;
  fitz_open : string -> exn + document;
  write_error : string -> option exn
}.

(** [df.to_csv(path, index=False)] *)
Definition to_csv (w : world) (path : string) (df : DataFrame) : io unit :=
  match write_error w path with
  | Some e => raise e
  | None => ([ToCsv path df], inr tt)
  end.

(** The [for] loop over the pages: the text of the readable pages, in
    order; a page whose text cannot be read is reported and skipped; an
    exception of the iteration itself is not caught. *)
Fixpoint page_loop (pages : list (exn + string)) (stops : option exn)
    (page_num : nat) (full_text : string) : io string :=
  match pages with
  | [] =>
      match stops with
      | Some e => raise e
      | None => ret full_text
      end
  | inr text :: rest => page_loop rest stops (S page_num) (full_text ++ text)
  | inl e :: rest =>
      (print ("Error reading page " ++ str_nat page_num ++ ": " ++ str e) ;;;
       page_loop rest stops (S page_num) full_text)%io
  end.

(** Lines 87 to 96: the loop, then [doc.close()] whatever happened. *)
Definition read_pages (doc : document) (page_num : nat) (full_text : string)
    : io string :=
  try_finally (page_loop (pages doc) (stops doc) page_num full_text)
              (close_error doc).

Definition record_columns : list string :=
  ["Land Tax #"; "Owner"; "Address"; "Total Owed"].

(** [pd.DataFrame(matches, columns=[...])] *)
Definition records_frame (matches : list (list string)) : DataFrame :=
  {| columns := record_columns; rows := map (map Str) matches |}.

(** [extract_property_data] from the pattern search on.  [re.findall]
    does not raise on this fixed pattern, so the [re.error] handler has no
    run of its own. *)
Definition extract_from_text (w : world) (full_text output_csv : string)
    : io bool :=
  match find_records full_text with
  | [] => (print "Warning: No matches found." ;;; ret false)%io
  | matches =>
      try_except
        (to_csv w output_csv (records_frame matches) ;;;
         print ("✅ Data saved to '" ++ output_csv ++ "'") ;;;
         ret true)%io
        (fun e => (print ("Error saving CSV: " ++ str e) ;;; ret false)%io)
  end.

Definition extract_property_data (w : world) (pdf_path output_csv : string)
    : io bool :=
  if negb (path_exists w pdf_path) then
    (print ("Error: File '" ++ pdf_path ++ "' not found.") ;;; ret false)%io
  else
    match fitz_open w pdf_path with
    | inl e => (print ("Error opening PDF: " ++ str e) ;;; ret false)%io
    | inr doc =>
        (full_text <- read_pages doc 1 "" ;;
         extract_from_text w full_text output_csv)%io
    end.

(** A world for examples: every path exists, the PDF at any path has the
    given pages, every write succeeds. *)
Definition world_with (doc : list (exn + string)) : world :=
  {| path_exists := fun _ => true;
     fitz_open := fun _ => inr (intact doc);
     write_error := fun _ => None |}.

Definition unseparated_text : string :=
  "123-456-789 JOHN DOE 456 Main St. $1234.56".

Definition notice_text : string := "NOTICE: no parcels are offered at this sale.".

End Extractor.

(** * Step 4: fuzzy match to the shapefile *)
Module Resolver.
Import Frame Extractor.
Local Open Scope string_scope.

(** [process.extractOne(query, choices, scorer=scorer)] of rapidfuzz, with
    no cutoff given.  The choices are scored against the query in order,
    null choices are passed over.  The cutoff starts at the worst score, 0,
    and is raised to the score of every choice taken: a choice is taken
    when its score reaches the cutoff and there is none yet or its score
    is higher than the best so far.  The search ends behind the first
    choice that scores 100, the optimal score.  The result is the choice
    taken last, with its score and its position; [None] when the query is
    null or no choice was taken.  A scorer takes strings, on anything else
    it raises.  (The library also hands the cutoff to the scorer, and its
    scorers answer 0 for a pair that stays below it; such a pair is not
    taken either way, so that [scorer] stands for the plain score.) *)
Definition candidate : Type := string * Q * nat.

Definition not_a_string : exn :=
  TypeError "sentence must be a String or a sequence of hashables".

Definition worst_score : Q := 0.
Definition optimal_score : Q := 100.

(** [score >= score_cutoff and (result is None or score > result_score)] *)
Definition taken (score : Q) (best : option candidate) : bool :=
  match best with
  | Some (_, best_score, _) => negb (Qle_bool score best_score)
  | None => Qle_bool worst_score score
  end.

Fixpoint best_from (scorer : string -> string -> Q) (query : string)
    (key : nat) (choices : list cell) (best : option candidate)
    : exn + option candidate :=
  match choices with
  | [] => inr best
  | Null :: rest => best_from scorer query (S key) rest best
  | Num _ :: _ => inl not_a_string
  | Str choice :: rest =>
      let score := scorer query choice in
      let best := if taken score best then Some (choice, score, key) else best in
      if Qeq_bool score optimal_score
      then inr best
      else best_from scorer query (S key) rest best
  end.

Definition extractOne (query : cell) (choices : list cell)
    (scorer : string -> string -> Q) : exn + option candidate :=
  match query with
  | Null => inr None
  | Num _ => inl not_a_string
  | Str q => best_from scorer q 0 choices None
  end.

(** [b] is a best candidate among the choices [seen] so far. *)
Definition is_best (scorer : string -> string -> Q) (q : string)
    (seen : list string) (b : candidate) : Prop :=
  In (fst (fst b)) seen /\ snd (fst b) = scorer q (fst (fst b)) /\
  forall c, In c seen -> (scorer q c <= snd (fst b))%Q.

(** [match, score, _ = None] *)
Definition unpack_none : exn :=
  TypeError "cannot unpack non-iterable NoneType object".

Definition get_best_match (address : cell) (choices : list cell)
    (scorer : string -> string -> Q) (threshold : Q)
    : exn + (option string * Q) :=
  match extractOne address choices scorer with
  | inl e => inl e
  | inr None => inl unpack_none
  | inr (Some (match_, score, _)) =>
      if Qle_bool threshold score
      then inr (Some match_, score)
      else inr (None, score)
  end.

(** [fuzz.token_sort_ratio(s1, s2)] of rapidfuzz, the default scorer of
    [get_best_match], without preprocessing: the words of each string
    (split at whitespace) are sorted and joined by single spaces, and the
    two results compared by [fuzz.ratio], the normalized Indel similarity
    on the scale 0..100.  Whitespace is what the compiled library takes for
    it in a string of one-byte characters: 9..13 and 28..32.  The score is
    the exact quotient, where the library rounds to a double. *)
Definition is_blank (a : ascii) : bool :=
  Re.between 9 13 a || Re.between 28 32 a.

(** [s.split()], with [word] the word begun. *)
Fixpoint split_from (s : string) (word : string) : list string :=
  match s with
  | EmptyString => if String.eqb word "" then [] else [word]
  | String a rest =>
      if is_blank a
      then if String.eqb word "" then split_from rest ""
           else word :: split_from rest ""
      else split_from rest (word ++ String a "")
  end.

Definition split (s : string) : list string := split_from s "".

(** [sorted(words)]: by code points. *)
Fixpoint insert_word (w : string) (sorted : list string) : list string :=
  match sorted with
  | [] => [w]
  | v :: rest => if String.leb w v then w :: sorted else v :: insert_word w rest
  end.

Definition sorted (words : list string) : list string :=
  fold_right insert_word [] words.

(** The length of a longest common subsequence, row by row: [above] is the
    row of the prefix without [x], from the column of [t] on, and [left]
    the entry before in the row being filled. *)
Fixpoint lcs_row (x : ascii) (t : string) (above : list nat) (left : nat)
    : list nat :=
  match t, above with
  | String y t', diagonal :: ((up :: _) as above') =>
      let here := if Ascii.eqb x y then S diagonal else Nat.max up left in
      here :: lcs_row x t' above' here
  | _, _ => []
  end.

Fixpoint lcs_rows (s t : string) (above : list nat) : list nat :=
  match s with
  | EmptyString => above
  | String x s' => lcs_rows s' t (0 :: lcs_row x t above 0)
  end.

Definition lcs (s t : string) : nat :=
  last (lcs_rows s t (repeat 0 (S (String.length t)))) 0.

Definition of_nat (n : nat) : Q := inject_Z (Z.of_nat n).

(** [fuzz.ratio]: the Indel distance is what both strings have beyond a
    longest common subsequence; normalized by the sum of the lengths (0
    for two empty strings), turned into a similarity and scaled to 100. *)
Definition ratio (s t : string) : Q :=
  let maximum := (String.length s + String.length t)%nat in
  let distance := (maximum - 2 * lcs s t)%nat in
  let norm_dist : Q :=
    if Nat.eqb maximum 0 then 0%Q else (of_nat distance / of_nat maximum)%Q in
  Qred ((1 - norm_dist) * 100)%Q.

Definition token_sort_ratio (s1 s2 : string) : Q :=
  ratio (String.concat " " (sorted (split s1)))
        (String.concat " " (sorted (split s2))).

Section Matching.

(** The scorer of the run, [get_best_match]'s default: [token_sort_ratio]
    above.  The loop and the joins are the same for any scorer. *)
Variable scorer : string -> string -> Q.

Definition default_threshold : Q := 25.

(** One entry of [matches]: the address, the match (or [None]), the score. *)
Definition match_row : Type := cell * option string * Q.

(** The loop that fills [matches]. *)
Fixpoint match_each (addresses choices : list cell) : io (list match_row) :=
  match addresses with
  | [] => ret []
  | addr :: rest =>
      (r <- ([Matching addr],
             get_best_match addr choices scorer default_threshold) ;;
       rs <- match_each rest choices ;;
       ret ((addr, fst r, snd r) :: rs))%io
  end.

Definition opt_cell (o : option string) : cell :=
  match o with
  | Some s => Str s
  | None => Null
  end.

Definition match_cells (m : match_row) : list cell :=
  [fst (fst m); opt_cell (snd (fst m)); Num (snd m)].

(** [pd.DataFrame(matches)]: the labels are the keys of the dictionaries;
    with no dictionary there is no column. *)
Definition matches_frame (matches : list match_row) : DataFrame :=
  match matches with
  | [] => {| columns := []; rows := [] |}
  | _ => {| columns := ["Standard Address"; "Matched Address"; "Score"];
            rows := map match_cells matches |}
  end.

Definition fuzzy_match_addresses (w : world)
    (csv_df shapefile_gdf : DataFrame) (output_path : string) : io unit :=
  (address <- lift (getitem csv_df "Address") ;;
   let csv_df := setitem csv_df "Standard Address" address in
   siteaddr <- lift (getitem shapefile_gdf "SITEADDR") ;;
   let shapefile_gdf := setitem shapefile_gdf "Standard Address" siteaddr in
   addresses <- lift (getitem csv_df "Standard Address") ;;
   choices <- lift (getitem shapefile_gdf "Standard Address") ;;
   matches <- match_each addresses choices ;;
   let matches_df := matches_frame matches in
   result_df <- lift (merge Left csv_df matches_df
                        "Standard Address" "Standard Address" ("_x", "_y")) ;;
   result_df <- lift (merge Inner result_df shapefile_gdf
                        "Matched Address" "Standard Address" ("", "_shp")) ;;
   to_csv w output_path result_df ;;;
   print ("✅ Matching complete. Saved to " ++ output_path) ;;;
   imperfect_matches <- lift (where_lt result_df "Score" 100) ;;
   to_csv w "imperfect_matches.csv" imperfect_matches ;;;
   print ("⚠️  " ++ str_nat (List.length (rows imperfect_matches))
          ++ " imperfect matches saved to imperfect_matches.csv"))%io.

End Matching.

(** A scorer given by a table, zero off the table; for examples. *)
Definition table_scorer (table : list (string * string * Q)) (a b : string) : Q :=
  match find (fun e : string * string * Q =>
                String.eqb (fst (fst e)) a && String.eqb (snd (fst e)) b) table with
  | Some e => snd e
  | None => 0
  end.

Definition sample_scorer : string -> string -> Q :=
  table_scorer
    [("1 Main St", "1 MAIN ST", 100); ("22 Oak Av", "22 OAK AVE", 87);
     ("5 Elm Ct", "5 ELM CT", 100); ("7 Pine", "700 PINE RD", 40);
     ("9 Zed Rd", "1 MAIN ST", 10); ("3 Hill", "1 MAIN ST", 25);
     ("3 Vale", "1 MAIN ST", 24)]%Q.

Definition sample_gazetteer : DataFrame :=
  {| columns := ["HANDLE"; "SITEADDR"];
     rows := [[Num 11; Str "1 MAIN ST"]; [Num 12; Str "22 OAK AVE"];
              [Num 13; Str "5 ELM CT"]; [Num 14; Str "700 PINE RD"]]%Q |}.

Definition empty_gazetteer : DataFrame :=
  {| columns := ["HANDLE"; "SITEADDR"]; rows := [] |}.

Definition sale_row (id owner address owed : string) : list cell :=
  [Str id; Str owner; Str address; Str owed; Str address].

Definition sale_columns : list string :=
  ["Land Tax #"; "Owner"; "Address"; "Total Owed"; "Standard Address"].

(** Four records with best scores 100, 87, 100 and 40. *)
Definition sample_sale : DataFrame :=
  {| columns := sale_columns;
     rows := [sale_row "100-001" "A" "1 Main St" "1,000.00";
              sale_row "100-002" "B" "22 Oak Av" "2,000.00";
              sale_row "100-003" "C" "5 Elm Ct" "3,000.00";
              sale_row "100-004" "D" "7 Pine" "4,000.00"] |}.

(** Two records: under [sample_scorer] the first matches perfectly and the
    best score of the second is 10, below the threshold. *)
Definition unmatched_row : list cell := sale_row "100-009" "Z" "9 Zed Rd" "9,000.00".

Definition sale_with_unmatched : DataFrame :=
  {| columns := sale_columns;
     rows := [sale_row "100-001" "A" "1 Main St" "1,000.00"; unmatched_row] |}.

(** Two records: the first is close to a reference address, the second to
    none ([token_sort_ratio] at most 100/7). *)
Definition stranger_row : list cell := sale_row "100-007" "H" "3 Hill" "7,000.00".

Definition sale_with_stranger : DataFrame :=
  {| columns := sale_columns;
     rows := [sale_row "100-001" "A" "1 Main St" "1,000.00"; stranger_row] |}.

(** Two records at one address. *)
Definition sale_with_duplicate : DataFrame :=
  {| columns := sale_columns;
     rows := [sale_row "100-001" "A" "1 Main St" "1,000.00";
              sale_row "100-005" "E" "1 Main St" "5,000.00"] |}.

Definition sale_without_address : DataFrame :=
  {| columns := ["Land Tax #"; "Owner"; "Total Owed"];
     rows := [[Str "100-001"; Str "A"; Str "1,000.00"]] |}.

End Resolver.


(** * Steps 1 and 2: check that the PDF exists, download it *)
Module Retrieval.
Import Frame.
Local Open Scope string_scope.

(** What a request gives: a response (status, Content-Type header if
    present, body), a [requests.RequestException] with its text, or an
    exception of another kind. *)
Record response : Type := {
  status_code : Z;
  content_type : option string;
  content : string
}.

Inductive reply : Type :=
| Responds (r : response)
| Fails (msg : string)
| Breaks (e : exn).

(** What writing a file gives: it is saved, or an error is raised and the
    path is left with [remains] (nothing new when [None]). *)
Inductive saving : Type :=
| Saved
| Unsaved (remains : option string) (msg : string).

(** The outside of steps 1 and 2: the reply to the [attempt]-th HEAD
    request, the reply to the GET request, the fate of a file write. *)
Record outside : Type := {
  head_reply : Z -> string -> reply;
  get_reply : string -> reply;
  save : string -> string -> saving
}.

(** What the script does, in order. *)
Inductive step : Type :=
| Say (msg : string)
| Head (url : string)
| Get (url : string)
| Sleep (seconds : Z)
| WriteFile (path content : string)
| Remove (path : string)
| Stage (e : event).

(** How the script can die: exceptions nobody catches. *)
Inductive crash : Type :=
| ValueError (msg : string)
| Uncaught (e : exn).

Definition sh (A : Type) : Type := list step * (crash + A).

Definition done {A} (a : A) : sh A := ([], inr a).
Definition die {A} (c : crash) : sh A := ([], inl c).
Definition then_ {A B} (m : sh A) (f : A -> sh B) : sh B :=
  match snd m with
  | inl c => (fst m, inl c)
  | inr a => ((fst m ++ fst (f a))%list, snd (f a))
  end.
Definition act (s : step) : sh unit := ([s], inr tt).
Definition say (msg : string) : sh unit := act (Say msg).

(** A stage of the pipeline, run inside the script. *)
Definition stage {A} (m : io A) : sh A :=
  (map Stage (fst m),
   match snd m with
   | inl e => inl (Uncaught e)
   | inr a => inr a
   end).

Declare Scope sh_scope.
Delimit Scope sh_scope with sh.
Notation "x <- m ;; k" := (then_ m (fun x => k))
  (at level 100, m at next level, right associativity) : sh_scope.
Notation "m ;;; k" := (then_ m (fun _ => k))
  (at level 100, right associativity) : sh_scope.

(** [str(n)] for an integer. *)
Definition str_int (n : Z) : string := NilEmpty.string_of_int (Z.to_int n).

(** [sub in s] *)
Fixpoint contains (sub s : string) : bool :=
  prefix sub s ||
  match s with
  | EmptyString => false
  | String _ rest => contains sub rest
  end.

(** [time.sleep(seconds)] *)
Definition sleep (seconds : Z) : sh unit :=
  if (seconds <? 0)%Z
  then die (ValueError "sleep length must be non-negative")
  else act (Sleep seconds).

(** The test of [check_pdf] on a response: status 200 and a Content-Type
    that mentions [application/pdf] (the empty string without header). *)
Definition is_pdf (r : response) : bool :=
  (status_code r =? 200)%Z &&
  contains "application/pdf"
    (match content_type r with Some t => t | None => "" end).

(** The loop of [check_pdf] from [attempt] on, [todo] attempts to go. *)
Fixpoint attempts (o : outside) (url : string) (retries delay : Z)
    (todo : nat) (attempt : Z) : sh bool :=
  match todo with
  | O => (say "❌ All attempts failed. PDF not available." ;;; done false)%sh
  | S todo' =>
      let next : sh bool :=
        ((if (attempt <? retries)%Z then sleep delay else done tt) ;;;
         attempts o url retries delay todo' (attempt + 1)%Z)%sh in
      (act (Head url) ;;;
       match head_reply o attempt url with
       | Responds r =>
           if is_pdf r
           then (say "✅ PDF is available." ;;; done true)
           else (say ("❌ PDF not found (status " ++ str_int (status_code r)
                      ++ "), attempt " ++ str_int attempt ++ "/"
                      ++ str_int retries) ;;;
                 next)
       | Fails msg =>
           (say ("⚠️ Request error on attempt " ++ str_int attempt ++ "/"
                 ++ str_int retries ++ ": " ++ msg) ;;;
            next)
       | Breaks e => die (Uncaught e)
       end)%sh
  end.

(** [range(1, retries + 1)] has [retries] elements, none when
    [retries <= 0]. *)
Definition check_pdf (o : outside) (url : string) (retries delay : Z) : sh bool :=
  attempts o url retries delay (Z.to_nat retries) 1%Z.

Definition download_pdf (o : outside) (url save_path : string) : sh bool :=
  (act (Get url) ;;;
   match get_reply o url with
   | Fails msg => (say ("⚠️ Error downloading PDF: " ++ msg) ;;; done false)
   | Breaks e => (say ("⚠️ Error downloading PDF: " ++ str e) ;;; done false)
   | Responds r =>
       if (status_code r =? 200)%Z then
         match save o save_path (content r) with
         | Saved =>
             (act (WriteFile save_path (content r)) ;;;
              say ("📥 PDF downloaded to " ++ save_path) ;;;
              done true)
         | Unsaved remains msg =>
             (match remains with
              | Some part => act (WriteFile save_path part)
              | None => done tt
              end ;;;
              say ("⚠️ Error downloading PDF: " ++ msg) ;;;
              done false)
         end
       else
         (say ("❌ Failed to download PDF. Status: " ++ str_int (status_code r)) ;;;
          done false)
   end)%sh.

(** The [attempt]-th HEAD request is answered with a PDF. *)
Definition accepted (o : outside) (url : string) (attempt : Z) : bool :=
  match head_reply o attempt url with
  | Responds r => is_pdf r
  | Fails _ => false
  | Breaks _ => false
  end.

(** The exception of the [attempt]-th HEAD request that [check_pdf] does
    not catch, if it raises one. *)
Definition broken (o : outside) (url : string) (attempt : Z) : option exn :=
  match head_reply o attempt url with
  | Breaks e => Some e
  | _ => None
  end.

(** The [attempt]-th HEAD request is answered without a PDF or fails with
    a [requests.RequestException]: the loop goes on. *)
Definition refused (o : outside) (url : string) (attempt : Z) : Prop :=
  accepted o url attempt = false /\ broken o url attempt = None.

(** Steps of the kinds [check_pdf] takes. *)
Definition is_polling (s : step) : bool :=
  match s with
  | Say _ | Head _ | Sleep _ => true
  | _ => false
  end.

(** Steps that touch no file: printing and the events of the stages. *)
Definition is_quiet (s : step) : bool :=
  match s with
  | Say _ | Stage _ => true
  | _ => false
  end.

(** Steps of the kinds [download_pdf] takes. *)
Definition is_fetching (s : step) : bool :=
  match s with
  | Say _ | Get _ | WriteFile _ _ => true
  | _ => false
  end.

(** Observations on a trace. *)
Definition is_head (s : step) : bool := match s with Head _ => true | _ => false end.
Definition is_sleep (s : step) : bool := match s with Sleep _ => true | _ => false end.
Definition count (p : step -> bool) (tr : list step) : nat := List.length (filter p tr).

(** The content of the file at [path] as the trace leaves it. *)
Fixpoint file_at (path : string) (tr : list step) : option string :=
  match tr with
  | [] => None
  | s :: rest =>
      match file_at path rest with
      | Some c => Some c
      | None =>
          match s with
          | WriteFile p c => if String.eqb p path then Some c else None
          | _ => None
          end
      end
  end.

(** Replies for examples: every HEAD attempt before [good] is answered
    with status 404, the others with a PDF. *)
Definition pdf_response (body : string) : response :=
  {| status_code := 200; content_type := Some "application/pdf; charset=binary";
     content := body |}.

Definition not_found : response :=
  {| status_code := 404; content_type := Some "text/html"; content := "" |}.

Definition outside_with (good : Z) (body : string) : outside :=
  {| head_reply := fun attempt _ =>
       if (attempt <? good)%Z then Responds not_found else Responds (pdf_response body);
     get_reply := fun _ => Responds (pdf_response body);
     save := fun _ _ => Saved |}.

End Retrieval.

(** * The run sequence *)
Module Script.
Import Frame Extractor Resolver Retrieval.
Local Open Scope string_scope.

Definition sale_number : string := "231".
Definition pdf_filename : string := "Sale-List-" ++ sale_number ++ ".pdf".
Definition csv_filename : string := "property_tax_sale_" ++ sale_number ++ ".csv".
Definition standardized_csv_filename : string :=
  "standardized_property_tax_sale_" ++ sale_number ++ ".csv".
Definition matched_output_filename : string :=
  "matched_addresses_" ++ sale_number ++ ".csv".
Definition pdf_url : string :=
  "https://www.stlouis-mo.gov/government/departments/sheriff/documents/upload/"
  ++ pdf_filename.
Definition shapefile_path : string :=
  "/home/bradstricherz/PycharmProjects/STLTaxAuctionScripts/shapefiles/prcl_address.shp".

(** Everything outside the script: the web; what [fitz.open] makes of a
    file with a given content; the error writing a CSV to a path raises, if
    any; what [pd.read_csv] reads back from a file that [to_csv] wrote from
    a frame; what [gpd.read_file] reads at a path; the error [os.remove]
    raises at a path, if any. *)
Record machine : Type := {
  web : outside;
  fitz : string -> exn + document;
  csv_error : string -> option exn;
  read_back : DataFrame -> exn + DataFrame;
  read_file : string -> exn + DataFrame;
  remove_error : string -> option string
}.

(** The world of the stages 3 and 4 once the trace [tr] has happened: the
    files are those the trace has written. *)
Definition world_of (m : machine) (tr : list step) : world :=
  {| path_exists := fun p =>
       match file_at p tr with Some _ => true | None => false end;
     fitz_open := fun p =>
       match file_at p tr with
       | Some c => fitz m c
       | None => inl (OSError "no such file")
       end;
     write_error := csv_error m |}.

(** The table at [path] as the events leave it. *)
Fixpoint table_at (path : string) (events : list event) : option DataFrame :=
  match events with
  | [] => None
  | e :: rest =>
      match table_at path rest with
      | Some df => Some df
      | None =>
          match e with
          | ToCsv p df => if String.eqb p path then Some df else None
          | _ => None
          end
      end
  end.

(** [pd.read_csv(path)] *)
Definition read_csv (m : machine) (path : string) (events : list event)
    : exn + DataFrame :=
  match table_at path events with
  | Some df => read_back m df
  | None => inl (OSError "No such file or directory")
  end.

(** The loop that deletes the intermediate files. *)
Fixpoint cleanup (m : machine) (files : list string) : sh unit :=
  match files with
  | [] => done tt
  | f :: rest =>
      (match remove_error m f with
       | None => (act (Remove f) ;;; say ("🗑️  Deleted intermediate file: " ++ f))
       | Some msg => say ("⚠️  Could not delete " ++ f ++ ": " ++ msg)
       end ;;;
       cleanup m rest)%sh
  end.

Section Run.

(** The scorer of the matching, [token_sort_ratio] in the script. *)
Variable scorer : string -> string -> Q.

(** Lines 170 to 185: what follows a successful extraction, whose events
    were [extracted].  [fuzzy_match_addresses] begins by reading its two
    inputs. *)
Definition match_and_clean (m : machine) (w : world) (extracted : list event)
    : sh unit :=
  (df <- stage (lift (read_csv m csv_filename extracted)) ;;
   address <- stage (lift (getitem df "Address")) ;;
   let df := setitem df "Standard Address" address in
   stage (to_csv w standardized_csv_filename df) ;;;
   say ("✅ Addresses copied for matching in " ++ standardized_csv_filename) ;;;
   csv_df <- stage (lift (read_back m df)) ;;
   shapefile_gdf <- stage (lift (read_file m shapefile_path)) ;;
   stage (fuzzy_match_addresses scorer w csv_df shapefile_gdf
            matched_output_filename) ;;;
   cleanup m [pdf_filename; csv_filename; standardized_csv_filename])%sh.

Definition main (m : machine) : sh unit :=
  (available <- check_pdf (web m) pdf_url 3 3 ;;
   if available then
     let download := download_pdf (web m) pdf_url pdf_filename in
     downloaded <- download ;;
     if downloaded then
       let w := world_of m (fst download) in
       let extraction := extract_property_data w pdf_filename csv_filename in
       extracted <- stage extraction ;;
       if extracted then match_and_clean m w (fst extraction)
       else say "❌ Failed to extract property data."
     else say "❌ Failed to download PDF."
   else say "🔁 No new sale list PDF available.")%sh.

End Run.

(** A machine for examples: the PDF is there at the [good]-th attempt and
    holds the pages [doc]; CSV files read back as written; the shapefile is
    [gazetteer]; nothing fails on disk. *)
Definition machine_with (good : Z) (doc : list (exn + string))
    (gazetteer : exn + DataFrame) : machine :=
  {| web := outside_with good "%PDF-1.7";
     fitz := fun _ => inr (intact doc);
     csv_error := fun _ => None;
     read_back := fun df => inr df;
     read_file := fun _ => gazetteer;
     remove_error := fun _ => None |}.

(** A machine whose PDF has one page and cannot be closed. *)
Definition broken_pdf_machine : machine :=
  {| web := outside_with 1 "%PDF-1.7";
     fitz := fun _ =>
       inr {| pages := [inr sample_text]; stops := None;
              close_error := Some (OSError "cannot close the document") |};
     csv_error := fun _ => None;
     read_back := fun df => inr df;
     read_file := fun _ => inr sample_gazetteer;
     remove_error := fun _ => None |}.

End Script.

(** * Observations on runs and tables *)
Module Observations.
Import Re Frame.
Local Open Scope string_scope.

(** The tables a run has written, with their paths, in order. *)
Definition csv_writes (tr : list event) : list (string * DataFrame) :=
  flat_map (fun e => match e with ToCsv path df => [(path, df)] | _ => [] end) tr.

(** A non-empty stretch of whitespace. *)
Definition blank (s : string) : Prop :=
  s <> "" /\ forallb is_space (list_ascii_of_string s) = true.

(** The texts of the pages that could be read. *)
Definition readable (doc : list (exn + string)) : list string :=
  flat_map (fun page => match page with inr text => [text] | inl _ => [] end) doc.

(** The message for each page that could not be read, pages counted from
    [first]. *)
Definition page_errors (first : nat) (doc : list (exn + string)) : list event :=
  flat_map (fun numbered : nat * (exn + string) =>
              match snd numbered with
              | inl e => [Print ("Error reading page " ++ str_nat (fst numbered)
                                 ++ ": " ++ str e)]
              | inr _ => []
              end)
    (combine (seq first (List.length doc)) doc).

(** Every row has one cell per column. *)
Definition rectangular (df : DataFrame) : Prop :=
  forall row, In row (rows df) -> List.length row = List.length (columns df).

End Observations.

(** * Properties of the pattern engine *)
Module ReFacts.
Import Re.

Lemma firstn_plus {A} (n m : nat) (l : list A) :
  firstn (n + m) l = firstn n l ++ firstn m (skipn n l).
Proof.
  revert l; induction n as [|n IH]; intros l; simpl.
  - reflexivity.
  - destruct l as [|x l]; simpl.
    + now rewrite firstn_nil.
    + now rewrite IH.
Qed.

Lemma sound_shift r1 r2 s c o1 o2 :
  sound r1 s c o1 ->
  sound r2 (skipn (fst o1) s) (snd o1) o2 ->
  fst (shift (fst o1) o2) <= List.length s /\
  firstn (fst (shift (fst o1) o2)) s
    = firstn (fst o1) s ++ firstn (fst o2) (skipn (fst o1) s).
Proof.
  intros [H1 _] [H2 _]. unfold shift; simpl. rewrite length_skipn in H2.
  split; [lia | apply firstn_plus].
Qed.

Lemma rep_sound (body : chars -> caps -> list outcome) r g :
  (forall s c o, In o (body s c) -> sound r s c o) ->
  forall fuel lo hi s c o,
    In o (rep body g fuel lo hi s c) -> sound (Rep g lo hi r) s c o.
Proof.
  intros Hbody. induction fuel as [|fuel IH]; intros lo hi s c o Hin.
  - simpl in Hin. destruct lo; [|contradiction].
    destruct Hin as [<-|[]]. split; simpl; [lia | constructor].
  - assert (Hstop : o = (0, c) -> lo = 0 -> sound (Rep g lo hi r) s c o).
    { intros -> ->. split; simpl; [lia | constructor]. }
    assert (Hmore :
      In o (match hi with
            | Some 0 => []
            | _ => flat_map (fun o1 : outcome =>
                     match fst o1 with
                     | 0 => []
                     | S _ => map (shift (fst o1))
                                (rep body g fuel (pred lo) (option_map pred hi)
                                   (skipn (fst o1) s) (snd o1))
                     end) (body s c)
            end) -> sound (Rep g lo hi r) s c o).
    { intros Hm.
      assert (Hhi : hi <> Some 0) by (intros ->; contradiction).
      assert (Hm' : In o (flat_map (fun o1 : outcome =>
                     match fst o1 with
                     | 0 => []
                     | S _ => map (shift (fst o1))
                                (rep body g fuel (pred lo) (option_map pred hi)
                                   (skipn (fst o1) s) (snd o1))
                     end) (body s c))).
      { destruct hi as [[|h]|]; [congruence | exact Hm | exact Hm]. }
      apply in_flat_map in Hm'. destruct Hm' as (o1 & Ho1 & Hrest).
      destruct (fst o1) as [|n1] eqn:En1; [contradiction|].
      apply in_map_iff in Hrest. destruct Hrest as (o2 & <- & Ho2).
      apply Hbody in Ho1. rewrite <- En1 in Ho2. apply IH in Ho2.
      destruct (sound_shift Ho1 Ho2) as [Hle Heq].
      rewrite <- En1. split; [exact Hle|].
      rewrite Heq. simpl snd.
      destruct Ho1 as [Hl1 M1], Ho2 as [_ M2].
      eapply Match_more; eauto.
      intros Hnil. apply (f_equal (@List.length ascii)) in Hnil.
      rewrite length_firstn in Hnil. simpl in Hnil. lia. }
    simpl in Hin. destruct lo as [|lo].
    + destruct g.
      * apply in_app_or in Hin. destruct Hin as [Hin|[<-|[]]]; auto.
      * destruct Hin as [<-|Hin]; auto.
    + auto.
Qed.

(** Whatever [run] returns is a match. *)
Lemma run_sound r : forall s c o, In o (run r s c) -> sound r s c o.
Proof.
  induction r as [p|r1 IH1 r2 IH2|n r IH|g lo hi r IH]; intros s c o Hin; simpl in Hin.
  - destruct s as [|a s]; [contradiction|].
    destruct (p a) eqn:Hp; [|contradiction].
    destruct Hin as [<-|[]]. split; simpl; [lia | now constructor].
  - apply in_flat_map in Hin. destruct Hin as (o1 & Ho1 & Hrest).
    apply in_map_iff in Hrest. destruct Hrest as (o2 & <- & Ho2).
    apply IH1 in Ho1. apply IH2 in Ho2.
    destruct (sound_shift Ho1 Ho2) as [Hle Heq].
    split; [exact Hle|]. rewrite Heq.
    destruct Ho1 as [_ M1], Ho2 as [_ M2]. econstructor; eauto.
  - apply in_map_iff in Hin. destruct Hin as (o1 & <- & Ho1).
    apply IH in Ho1. destruct Ho1 as [Hl M]. split; simpl; [exact Hl|].
    now constructor.
  - eapply rep_sound; eauto.
Qed.

(** The search looks no further than the text: any fuel from [length s]
    on gives the same alternatives. *)
Lemma flat_map_ext_In {A B} (f g : A -> list B) (l : list A) :
  (forall x, In x l -> f x = g x) -> flat_map f l = flat_map g l.
Proof.
  induction l as [|x l IH]; simpl; intros H; [reflexivity|].
  rewrite (H x) by now left. f_equal. apply IH. intros y Hy. apply H. now right.
Qed.

Lemma rep_fuel (body : chars -> caps -> list outcome) g :
  (forall s c o, In o (body s c) -> fst o <= List.length s) ->
  forall f1 f2 lo hi s c,
    List.length s <= f1 -> List.length s <= f2 ->
    rep body g f1 lo hi s c = rep body g f2 lo hi s c.
Proof.
  intros Hbody.
  assert (Hend : forall f lo hi c,
            rep body g f lo hi [] c = match lo with 0 => [(0, c)] | S _ => [] end).
  { intros f lo hi c. destruct f as [|f]; simpl; [reflexivity|].
    assert (E : flat_map (fun o1 : outcome =>
                  match fst o1 with
                  | 0 => []
                  | S _ => map (shift (fst o1))
                             (rep body g f (pred lo) (option_map pred hi)
                                (skipn (fst o1) []) (snd o1))
                  end) (body [] c) = []).
    { rewrite (@flat_map_ext_In _ _ _ (fun _ => []) (body [] c)).
      - induction (body [] c); simpl; auto.
      - intros o Ho. apply Hbody in Ho. simpl in Ho.
        destruct (fst o); [reflexivity | lia]. }
    rewrite E. destruct hi as [[|h]|], lo, g; reflexivity. }
  induction f1 as [|f1 IH]; intros f2 lo hi s c H1 H2.
  - destruct s; [|simpl in H1; lia]. now rewrite !Hend.
  - destruct f2 as [|f2].
    + destruct s; [|simpl in H2; lia]. now rewrite !Hend.
    + simpl.
      assert (E : flat_map (fun o1 : outcome =>
                    match fst o1 with
                    | 0 => []
                    | S _ => map (shift (fst o1))
                               (rep body g f1 (pred lo) (option_map pred hi)
                                  (skipn (fst o1) s) (snd o1))
                    end) (body s c)
                  = flat_map (fun o1 : outcome =>
                    match fst o1 with
                    | 0 => []
                    | S _ => map (shift (fst o1))
                               (rep body g f2 (pred lo) (option_map pred hi)
                                  (skipn (fst o1) s) (snd o1))
                    end) (body s c)).
      { apply flat_map_ext_In. intros o Ho. apply Hbody in Ho.
        destruct (fst o) as [|n] eqn:En; [reflexivity|].
        f_equal. apply IH; rewrite length_skipn; lia. }
      rewrite E. reflexivity.
Qed.

Lemma skipn_length_app {A} (a b : list A) : skipn (List.length a) (a ++ b) = b.
Proof. induction a; simpl; auto. Qed.

Lemma firstn_length_app {A} (a b : list A) : firstn (List.length a) (a ++ b) = a.
Proof. induction a; simpl; [reflexivity | now f_equal]. Qed.

Lemma nonzero_branch {A} (n : nat) (l : list A) :
  n <> 0 -> match n with 0 => [] | S _ => l end = l.
Proof. destruct n; congruence. Qed.

(** Whatever matches is among the alternatives of [run]. *)
Lemma run_complete r w c c' :
  Match r w c c' -> forall rest, In (List.length w, c') (run r (w ++ rest) c).
Proof.
  induction 1; intros rest.
  - simpl. rewrite H. now left.
  - simpl. apply in_flat_map. exists (List.length w1, c1). split.
    + rewrite <- app_assoc. apply IHMatch1.
    + simpl. rewrite <- app_assoc, skipn_length_app.
      apply in_map_iff. exists (List.length w2, c2). split; [|apply IHMatch2].
      unfold shift. simpl. now rewrite length_app.
  - simpl. apply in_map_iff. exists (List.length w, c1). split; [|apply IHMatch].
    simpl. now rewrite firstn_length_app.
  - simpl. destruct (List.length rest); simpl; [now left|].
    destruct g; [apply in_or_app; right|]; now left.
  - assert (Hpos : List.length w1 <> 0) by (destruct w1; simpl; congruence).
    simpl run. rewrite <- app_assoc.
    replace (List.length (w1 ++ w2 ++ rest))
      with (S (pred (List.length w1) + List.length (w2 ++ rest)))
      by (rewrite (length_app w1); lia).
    simpl rep.
    assert (Hin : In (List.length (w1 ++ w2), c2)
              (flat_map (fun o1 : outcome =>
                 match fst o1 with
                 | 0 => []
                 | S _ => map (shift (fst o1))
                            (rep (run r) g
                               (pred (List.length w1) + List.length (w2 ++ rest))
                               (pred lo) (option_map pred hi)
                               (skipn (fst o1) (w1 ++ w2 ++ rest)) (snd o1))
                 end) (run r (w1 ++ w2 ++ rest) c))).
    { apply in_flat_map. exists (List.length w1, c1). split; [apply IHMatch1|].
      simpl fst. simpl snd. rewrite skipn_length_app.
      rewrite (nonzero_branch _ Hpos).
      apply in_map_iff. exists (List.length w2, c2). split.
      - unfold shift. simpl. now rewrite length_app.
      - specialize (IHMatch2 rest). simpl run in IHMatch2.
        rewrite (@rep_fuel (run r) g) with (f2 := List.length (w2 ++ rest));
          [exact IHMatch2 | | lia | lia].
        intros s0 c0 o Ho. now apply run_sound in Ho as [Hle _]. }
    destruct hi as [[|h]|]; try congruence;
      destruct lo; try exact Hin;
      destruct g; try (apply in_or_app; left; exact Hin); right; exact Hin.
Qed.

Ltac inv H := inversion H; subst; clear H.

Lemma Match_chr_inv p w c c' :
  Match (Chr p) w c c' -> exists a, w = [a] /\ p a = true /\ c' = c.
Proof. intros H; inv H; eauto. Qed.

Lemma Match_cat_inv r1 r2 w c c' :
  Match (Cat r1 r2) w c c' ->
  exists w1 w2 c1, w = w1 ++ w2 /\ Match r1 w1 c c1 /\ Match r2 w2 c1 c'.
Proof. intros H; inv H; eauto 6. Qed.

Lemma Match_grp_inv n r w c c' :
  Match (Grp n r) w c c' -> exists c1, c' = (n, w) :: c1 /\ Match r w c c1.
Proof. intros H; inv H; eauto. Qed.

Lemma Match_rep_inv g lo hi r w c c' :
  Match (Rep g lo hi r) w c c' ->
  (lo = 0 /\ w = [] /\ c' = c) \/
  (hi <> Some 0 /\
   exists w1 w2 c1, w = w1 ++ w2 /\ w1 <> [] /\ Match r w1 c c1 /\
     Match (Rep g (pred lo) (option_map pred hi) r) w2 c1 c').
Proof. intros H; inv H; [left; auto | right; eauto 9]. Qed.

(** A pattern without groups leaves the captures alone. *)
Lemma Match_groupless r w c c' :
  Match r w c c' -> groupless r = true -> c' = c.
Proof.
  induction 1; simpl; intros G; try reflexivity.
  - apply andb_prop in G. destruct G as [G1 G2].
    rewrite (IHMatch2 G2). now apply IHMatch1.
  - discriminate.
  - simpl in IHMatch2. rewrite (IHMatch2 G). now apply IHMatch1.
Qed.

(** A counted repetition of one character class. *)
Lemma Match_rep_chr g p lo hi w c c' :
  Match (Rep g lo hi (Chr p)) w c c' ->
  forallb p w = true /\ lo <= List.length w /\
  (forall h, hi = Some h -> List.length w <= h).
Proof.
  intros H. remember (Rep g lo hi (Chr p)) as r eqn:E.
  revert lo hi E. induction H; intros lo' hi' E; try discriminate.
  - inv E. simpl. repeat split; intros; lia.
  - inv E. clear IHMatch1.
    destruct (IHMatch2 _ _ eq_refl) as (Hall & Hlo & Hhi).
    apply Match_chr_inv in H1. destruct H1 as (a & -> & Hp & _).
    simpl. rewrite Hp, Hall. repeat split; [lia|].
    intros h ->. destruct h as [|h]; [congruence|].
    specialize (Hhi h eq_refl). lia.
Qed.

(** Every reported tuple comes from a stretch of the text that matches. *)
Lemma findall_from_sound r n : forall s skip rec,
  In rec (findall_from r n skip s) ->
  exists pre w post c, s = pre ++ w ++ post /\ Match r w [] c /\ rec = groups n c.
Proof.
  assert (Hhead : forall s o l, run r s [] = o :: l ->
            exists pre w post c,
              s = pre ++ w ++ post /\ Match r w [] c /\ groups n (snd o) = groups n c).
  { intros s o l E.
    assert (Hin : In o (run r s [])) by (rewrite E; now left).
    apply run_sound in Hin. destruct Hin as [_ M].
    exists [], (firstn (fst o) s), (skipn (fst o) s), (snd o).
    simpl. now rewrite firstn_skipn. }
  induction s as [|x s IH]; intros skip rec Hin.
  - destruct skip; simpl in Hin; [|contradiction].
    destruct (run r [] []) as [|o l] eqn:E; [contradiction|].
    destruct Hin as [<-|[]]. eapply Hhead; eauto.
  - assert (Htail : forall k, In rec (findall_from r n k s) ->
              exists pre w post c,
                x :: s = pre ++ w ++ post /\ Match r w [] c /\ rec = groups n c).
    { intros k Hk. destruct (IH _ _ Hk) as (pre & w & post & c & -> & M & ->).
      now exists (x :: pre), w, post, c. }
    destruct skip; simpl in Hin; [|eauto].
    destruct (run r (x :: s) []) as [|o l] eqn:E; [eauto|].
    destruct Hin as [<-|Hin]; [|eauto].
    eapply Hhead; eauto.
Qed.

Lemma findall_none r n text :
  ~ occurs r (list_ascii_of_string text) -> findall r n text = [].
Proof.
  intros Hno. unfold findall.
  destruct (findall_from r n 0 (list_ascii_of_string text)) as [|rec l] eqn:E; [reflexivity|].
  exfalso. apply Hno.
  destruct (@findall_from_sound r n (list_ascii_of_string text) 0 rec)
    as (pre & w & post & c & Hs & M & _).
  - rewrite E; now left.
  - now exists pre, w, post, c.
Qed.

Lemma findall_from_complete r n : forall s,
  (exists i o, In o (run r (skipn i s) [])) -> findall_from r n 0 s <> [].
Proof.
  induction s as [|x s IH]; intros (i & o & Hin).
  - rewrite skipn_nil in Hin. simpl.
    destruct (run r [] []); [contradiction | discriminate].
  - simpl. destruct (run r (x :: s) []) as [|o' l] eqn:E; [|discriminate].
    destruct i as [|i]; simpl in Hin.
    + rewrite E in Hin. contradiction.
    + apply IH. now exists i, o.
Qed.

(** [findall] reports nothing exactly when the pattern occurs nowhere. *)
Lemma findall_nil_iff r n text :
  findall r n text = [] <-> ~ occurs r (list_ascii_of_string text).
Proof.
  split; [|apply findall_none].
  intros E (pre & w & post & c & Hs & M). revert E. unfold findall.
  apply findall_from_complete. exists (List.length pre), (List.length w, c).
  rewrite Hs, skipn_length_app. now apply run_complete.
Qed.

End ReFacts.

(** * Properties of the record pattern *)
Module PatternFacts.
Import Re ReFacts Extractor.

Ltac split_match :=
  repeat match goal with
  | H : Match (Cat _ _) _ _ _ |- _ =>
      apply Match_cat_inv in H; destruct H as (? & ? & ? & ? & ? & ?); subst
  | H : Match (Grp _ _) _ _ _ |- _ =>
      apply Match_grp_inv in H; destruct H as (? & ? & ?); subst
  | H : Match (_ @@ _)%re _ _ _ |- _ =>
      apply Match_cat_inv in H; destruct H as (? & ? & ? & ? & ? & ?); subst
  end.

(** A match of the whole pattern falls into its seven stretches, and the
    four groups capture theirs. *)
Lemma pattern_parts w c :
  Match pattern w [] c ->
  exists w1 s1 w2 s2 w3 s3 w4 : chars,
    w = w1 ++ s1 ++ w2 ++ s2 ++ w3 ++ s3 ++ "$"%char :: w4 /\
    c = [(4, w4); (3, w3); (2, w2); (1, w1)] /\
    Match id_re w1 [] [] /\
    Match owner_re w2 [(1, w1)] [(1, w1)] /\
    Match address_re w3 [(2, w2); (1, w1)] [(2, w2); (1, w1)] /\
    Match amount_re w4 [(3, w3); (2, w2); (1, w1)] [(3, w3); (2, w2); (1, w1)].
Proof.
  unfold pattern. intros H. split_match.
  repeat match goal with
  | H : Match ?r _ _ _ |- _ =>
      lazymatch r with
      | id_re => fail | owner_re => fail | address_re => fail | amount_re => fail
      | plus _ => pose proof (Match_groupless H eq_refl); subst; clear H
      | lit _ => apply Match_chr_inv in H; destruct H as (? & ? & ? & ?); subst
      end
  end.
  repeat match goal with
  | H : Match ?r _ ?c ?c' |- _ =>
      tryif constr_eq c c' then fail
      else (pose proof (Match_groupless H eq_refl); subst)
  end.
  match goal with
  | H : is_char "$" ?a = true |- _ =>
      apply Ascii.eqb_eq in H; subst
  end.
  do 7 eexists. split; [reflexivity|]. repeat split; assumption.
Qed.

Lemma Match_times_digits n w c c' :
  Match (times n (Chr is_digit)) w c c' -> digits w /\ List.length w = n.
Proof.
  intros H. apply Match_rep_chr in H. destruct H as (Hall & Hlo & Hhi).
  specialize (Hhi n eq_refl). split; [exact Hall | lia].
Qed.

Lemma Match_lit a w c c' : Match (lit a) w c c' -> w = [a].
Proof.
  intros H. apply Match_chr_inv in H. destruct H as (b & -> & Hb & _).
  apply Ascii.eqb_eq in Hb. now subst.
Qed.

Lemma id_re_shape w c c' : Match id_re w c c' -> identifier_shape w.
Proof.
  unfold id_re. intros H. split_match.
  repeat match goal with
  | H : Match (times _ _) _ _ _ |- _ =>
      apply Match_times_digits in H; destruct H as [? ?]
  | H : Match (lit _) _ _ _ |- _ => apply Match_lit in H; subst
  end.
  match goal with
  | H : Match (opt _) _ _ _ |- _ =>
      apply Match_rep_inv in H; destruct H as [Hnone|Hsome]
  end.
  - destruct Hnone as (_ & -> & _).
    match goal with
    | |- identifier_shape (?a ++ _ ++ ?b ++ _) => exists a, b
    end.
    repeat split; auto. left. now rewrite app_nil_r.
  - destruct Hsome as (_ & w1 & w2 & c1 & -> & _ & M1 & M2).
    apply Match_rep_inv in M2. simpl in M2.
    destruct M2 as [(_ & -> & _)|(Hhi & _)]; [|congruence].
    split_match.
    repeat match goal with
    | H : Match (times _ _) _ _ _ |- _ =>
      apply Match_times_digits in H; destruct H as [? ?]
    | H : Match (lit _) _ _ _ |- _ => apply Match_lit in H; subst
    end.
    match goal with
    | |- identifier_shape (?a ++ _ ++ ?b ++ (_ ++ ?d) ++ _) => exists a, b; pose (d3 := d)
    end.
    repeat split; auto. right.
    exists d3. repeat split; auto. now rewrite app_nil_r.
Qed.

Lemma address_re_shape w c c' : Match address_re w c c' -> address_shape w.
Proof.
  unfold address_re. intros H. split_match.
  match goal with
  | H : Match (upto _ _ _) _ _ _ |- _ =>
      apply Match_rep_chr in H; destruct H as (Hd & Hlo & Hhi);
      specialize (Hhi _ eq_refl)
  end.
  match goal with
  | H : Match (Chr is_space) _ _ _ |- _ =>
      apply Match_chr_inv in H; destruct H as (sp & -> & Hsp & _)
  end.
  match goal with
  | H : Match (plus_lazy _) _ _ _ |- _ =>
      apply Match_rep_chr in H; destruct H as (Hr & Hr1 & _)
  end.
  eexists _, sp, _. repeat split; eauto.
  intros ->. simpl in Hr1. lia.
Qed.

(** An amount opens with one to three digits and then a character that is
    no digit: the comma of a group of thousands or the decimal point. *)
Lemma amount_re_head w c c' :
  Match amount_re w c c' ->
  exists (ds : chars) (x : ascii) (tail : chars),
    w = ds ++ x :: tail /\ digits ds /\ 1 <= List.length ds <= 3 /\
    is_digit x = false.
Proof.
  unfold amount_re. intros H. split_match.
  match goal with
  | H : Match (upto _ _ _) _ _ _ |- _ =>
      apply Match_rep_chr in H; destruct H as (Hd & Hlo & Hhi);
      specialize (Hhi _ eq_refl)
  end.
  match goal with
  | H : Match (lit "."%char) _ _ _ |- _ => apply Match_lit in H; subst
  end.
  match goal with
  | H : Match (star _) _ _ _ |- _ =>
      apply Match_rep_inv in H; destruct H as [Hnone|Hsome]
  end.
  - destruct Hnone as (_ & -> & _). eexists _, _, _. repeat split; eauto.
  - destruct Hsome as (_ & w1 & w2 & c1 & -> & _ & M1 & _). split_match.
    match goal with
    | H : Match (lit ","%char) _ _ _ |- _ => apply Match_lit in H; subst
    end.
    eexists _, ","%char, _. repeat split; eauto.
Qed.

Lemma amount_re_shape w c c' : Match amount_re w c c' -> amount_shape w.
Proof.
  unfold amount_re. intros H. split_match.
  match goal with
  | H : Match (lit "."%char) _ _ _ |- _ => apply Match_lit in H; subst
  end.
  match goal with
  | H : Match (times 2 _) ?w _ _ |- _ =>
      apply Match_times_digits in H; destruct H as (Hd & Hl);
      destruct w as [|d1 [|d2 [|]]]; try discriminate
  end.
  unfold digits in Hd. simpl in Hd.
  apply andb_prop in Hd. destruct Hd as (Hd1 & Hd2).
  apply andb_prop in Hd2. destruct Hd2 as (Hd2 & _).
  eexists (_ ++ _), d1, d2. repeat split; eauto.
  now rewrite <- app_assoc.
Qed.

End PatternFacts.

(** * The record extractor *)
Module ExtractorSpec.
Import Re ReFacts Frame Extractor PatternFacts.
Local Open Scope string_scope.

Lemma find_records_sound text rec :
  In rec (find_records text) ->
  exists w1 w2 w3 w4 : chars,
    rec = [string_of_list_ascii w1; string_of_list_ascii w2;
           string_of_list_ascii w3; string_of_list_ascii w4] /\
    Match id_re w1 [] [] /\
    Match owner_re w2 [(1, w1)] [(1, w1)] /\
    Match address_re w3 [(2, w2); (1, w1)] [(2, w2); (1, w1)] /\
    Match amount_re w4 [(3, w3); (2, w2); (1, w1)] [(3, w3); (2, w2); (1, w1)].
Proof.
  intros Hin. apply findall_from_sound in Hin.
  destruct Hin as (pre & w & post & c & _ & M & ->).
  apply pattern_parts in M.
  destruct M as (w1 & s1 & w2 & s2 & w3 & s3 & w4 & _ & -> & M1 & M2 & M3 & M4).
  exists w1, w2, w3, w4. repeat split; assumption.
Qed.

(** A match of the pattern holds a currency symbol with an amount behind. *)
Lemma occurs_amount s :
  occurs pattern s ->
  exists (pre a post : chars) (c : caps),
    s = (pre ++ "$"%char :: a ++ post)%list /\ Match amount_re a c c.
Proof.
  intros (pre & w & post & c & -> & M). apply pattern_parts in M.
  destruct M as (w1 & s1 & w2 & s2 & w3 & s3 & w4 & -> & _ & _ & _ & _ & M4).
  exists (pre ++ w1 ++ s1 ++ w2 ++ s2 ++ w3 ++ s3)%list, w4, post. eexists.
  split; [|exact M4].
  repeat rewrite <- app_assoc. simpl. now repeat rewrite <- app_assoc.
Qed.

Lemma occurs_dollar s : occurs pattern s -> In "$"%char s.
Proof.
  intros H. apply occurs_amount in H. destruct H as (pre & a & post & c & -> & _).
  apply in_or_app. right. now left.
Qed.

Lemma amounts_unseparated_at pre t :
  amounts_unseparated (pre ++ "$"%char :: t)%list = true ->
  match t with
  | d :: _ => is_digit d = false \/ four_digits t = true
  | [] => True
  end.
Proof.
  induction pre as [|x pre IH]; simpl; intros H.
  - apply andb_prop in H. destruct H as [H _].
    destruct t as [|d t]; [exact I|].
    apply orb_prop in H. destruct H as [H|H]; [left|right; exact H].
    now apply negb_true_iff in H.
  - apply andb_prop in H. destruct H as [_ H]. now apply IH.
Qed.

Lemma unseparated_no_record s :
  amounts_unseparated s = true -> ~ occurs pattern s.
Proof.
  intros Hs Hocc. apply occurs_amount in Hocc.
  destruct Hocc as (pre & a & post & c & -> & M).
  apply amounts_unseparated_at in Hs.
  apply amount_re_head in M.
  destruct M as (ds & x & tail & -> & Hd & Hlen & Hx).
  unfold digits in Hd.
  destruct ds as [|a1 [|a2 [|a3 [|a4 ds]]]]; simpl in Hlen; try lia;
    simpl in Hs, Hd;
    repeat match goal with
    | H : (_ && _)%bool = true |- _ => apply andb_prop in H; destruct H
    end;
    destruct Hs as [Hs|Hs]; try congruence;
    destruct tail as [|t1 [|t2 [|t3 tail]]]; simpl in Hs;
    try (destruct post as [|p1 [|p2 [|p3 post]]]; simpl in Hs);
    try discriminate;
    repeat match goal with
    | H : (_ && _)%bool = true |- _ => apply andb_prop in H; destruct H
    end; congruence.
Qed.

(** The page loop only prints. *)
Lemma page_loop_prints ps stops : forall n acc e,
  In e (fst (page_loop ps stops n acc)) -> exists msg, e = Print msg.
Proof.
  induction ps as [|[e|t] ps IH]; intros n acc e'; simpl.
  - destruct stops; intros [].
  - unfold bind, print. cbn [fst snd app].
    intros [<-|Hin]; [eauto | exact (IH _ _ _ Hin)].
  - apply IH.
Qed.

(** Reading the pages and closing the document only prints. *)
Lemma read_pages_total (doc : document) (n : nat) (acc : string) :
  exists errs r,
    read_pages doc n acc = (errs, r) /\
    forall e, In e errs -> exists msg, e = Print msg.
Proof.
  unfold read_pages, try_finally.
  destruct (close_error doc) as [c|].
  - eexists _, _. split; [reflexivity|]. apply page_loop_prints.
  - destruct (page_loop (pages doc) (stops doc) n acc) as [errs r] eqn:E.
    exists errs, r. split; [reflexivity|].
    intros e Hin. apply (@page_loop_prints (pages doc) (stops doc) n acc).
    rewrite E. exact Hin.
Qed.

(** How the extraction of a text can end. *)
Lemma extract_from_text_cases w text out :
  (find_records text = [] /\
   extract_from_text w text out = ([Print "Warning: No matches found."], inr false)) \/
  (find_records text <> [] /\
   ((write_error w out = None /\
     extract_from_text w text out =
       ([ToCsv out (records_frame (find_records text));
         Print ("✅ Data saved to '" ++ out ++ "'")], inr true)) \/
    (exists e, write_error w out = Some e /\
       extract_from_text w text out = ([Print ("Error saving CSV: " ++ str e)], inr false)))).
Proof.
  unfold extract_from_text.
  destruct (find_records text) as [|r l] eqn:E; [left; auto|].
  right. split; [discriminate|].
  unfold to_csv. destruct (write_error w out) as [e|].
  - right. exists e. split; reflexivity.
  - left. split; reflexivity.
Qed.

Lemma extract_writes w pdf_path out path df :
  In (ToCsv path df) (fst (extract_property_data w pdf_path out)) ->
  exists text, df = records_frame (find_records text).
Proof.
  unfold extract_property_data.
  destruct (negb (path_exists w pdf_path)).
  { simpl. intros [H|[]]; discriminate. }
  destruct (fitz_open w pdf_path) as [e|doc].
  { simpl. intros [H|[]]; discriminate. }
  destruct (read_pages_total doc 1 "") as (errs & [x|text] & E & Hp);
    unfold bind; rewrite E; cbn [fst snd]; intros Hin.
  { apply Hp in Hin. destruct Hin as (msg & Hmsg). discriminate. }
  apply in_app_or in Hin. destruct Hin as [Hin|Hin].
  { apply Hp in Hin. destruct Hin as (msg & Hmsg). discriminate. }
  exists text.
  destruct (extract_from_text_cases w text out)
    as [(_ & Ex)|(_ & [(_ & Ex)|(e & _ & Ex)])]; rewrite Ex in Hin; simpl in Hin.
  - destruct Hin as [H|[]]; discriminate.
  - destruct Hin as [H|[H|[]]]; try discriminate. now inv H.
  - destruct Hin as [H|[]]; discriminate.
Qed.

Lemma list_ascii_of_string_app (a b : string) :
  list_ascii_of_string (a ++ b) = (list_ascii_of_string a ++ list_ascii_of_string b)%list.
Proof. induction a as [|x a IH]; simpl; [reflexivity | now rewrite IH]. Qed.

(** After a match the scan resumes behind it. *)
Lemma findall_from_hit r n s o :
  hd_error (run r s []) = Some o -> 1 <= fst o ->
  findall_from r n 0 s = groups n (snd o) :: findall_from r n (fst o) s.
Proof.
  intros Hhd Hpos.
  destruct s as [|a s]; simpl;
    destruct (run r _ []) as [|o' l]; simpl in Hhd; try discriminate;
    injection Hhd as ->; destruct (fst o) as [|k]; try lia; reflexivity.
Qed.

Lemma findall_from_skip r n (a : chars) : forall k s,
  List.length a = k -> findall_from r n k (a ++ s)%list = findall_from r n 0 s.
Proof.
  induction a as [|x a IH]; intros k s <-; simpl; [reflexivity|].
  now apply IH.
Qed.

(** A record starts with a digit. *)
Lemma run_pattern_nondigit a s : is_digit a = false -> run pattern (a :: s) [] = [].
Proof. intros H. unfold pattern, id_re. simpl. now rewrite H. Qed.

Lemma findall_from_nondigits (pre s : chars) :
  forallb (fun a => negb (is_digit a)) pre = true ->
  findall_from pattern 4 0 (pre ++ s)%list = findall_from pattern 4 0 s.
Proof.
  induction pre as [|x pre IH]; simpl app; intros H; [reflexivity|].
  simpl in H. apply andb_prop in H. destruct H as [Hx Hpre].
  apply negb_true_iff in Hx.
  change (findall_from pattern 4 0 (x :: (pre ++ s)%list))
    with (match run pattern (x :: (pre ++ s)%list) [] with
          | o :: _ => groups 4 (snd o) :: findall_from pattern 4 (pred (fst o)) (pre ++ s)%list
          | [] => findall_from pattern 4 0 (pre ++ s)%list
          end).
  rewrite (@run_pattern_nondigit x _ Hx). now apply IH.
Qed.

Lemma findall_from_no_dollar (s : chars) k :
  forallb (fun a => negb (is_char "$" a)) s = true ->
  findall_from pattern 4 k s = [].
Proof.
  intros Hs. destruct (findall_from pattern 4 k s) as [|rec l] eqn:E; [reflexivity|].
  exfalso.
  destruct (@findall_from_sound pattern 4 s k rec) as (pre & w & post & c & Hw & M & _).
  { rewrite E. now left. }
  assert (Hin : In "$"%char s) by (apply occurs_dollar; now exists pre, w, post, c).
  rewrite forallb_forall in Hs. specialize (Hs _ Hin). discriminate.
Qed.

Lemma run_sample post :
  hd_error (run pattern (list_ascii_of_string sample_text ++ post)%list []) =
  Some (43, [(4, list_ascii_of_string "1,234.56");
             (3, list_ascii_of_string "456 Main St.");
             (2, list_ascii_of_string "JOHN DOE");
             (1, list_ascii_of_string "123-456-789")]).
Proof. destruct post; lazy; reflexivity. Qed.

Lemma find_records_sample (pre post : string) :
  free_of is_digit pre = true ->
  free_of (is_char "$") post = true ->
  find_records (pre ++ sample_text ++ post) = [sample_record].
Proof.
  intros Hpre Hpost. unfold find_records, findall.
  rewrite 2 list_ascii_of_string_app.
  rewrite (@findall_from_nondigits _ _ Hpre).
  rewrite (@findall_from_hit pattern 4 _ _ (run_sample _)) by (simpl; lia).
  rewrite (@findall_from_skip pattern 4 (list_ascii_of_string sample_text) 43 _ eq_refl).
  now rewrite (@findall_from_no_dollar _ 0 Hpost).
Qed.

(** The groups of thousands of an amount. *)
Lemma Match_thousands w c c' :
  Match (star (lit "," @@ times 3 (Chr is_digit))%re) w c c' ->
  exists gs : list chars,
    w = List.concat (map (cons ","%char) gs) /\
    Forall (fun g => digits g /\ List.length g = 3) gs.
Proof.
  intros H. remember (star (lit "," @@ times 3 (Chr is_digit))%re) as r eqn:E.
  induction H; try discriminate.
  - exists []. split; [reflexivity | constructor].
  - unfold star in E. inv E. simpl in IHMatch2.
    destruct (IHMatch2 eq_refl) as (gs & -> & Hgs).
    clear IHMatch1 IHMatch2. split_match.
    match goal with
    | H : Match (lit _) _ _ _ |- _ => apply Match_lit in H; subst
    end.
    match goal with
    | H : Match (times _ _) ?g _ _ |- _ =>
        apply Match_times_digits in H; exists (g :: gs)
    end.
    split; [reflexivity | now constructor].
Qed.

Lemma amount_re_grammar w c c' : Match amount_re w c c' -> amount_grammar w.
Proof.
  unfold amount_re. intros H. split_match.
  match goal with
  | H : Match (upto _ _ _) _ _ _ |- _ =>
      apply Match_rep_chr in H; destruct H as (Hd & Hlo & Hhi);
      specialize (Hhi _ eq_refl)
  end.
  match goal with
  | H : Match (lit "."%char) _ _ _ |- _ => apply Match_lit in H; subst
  end.
  match goal with
  | H : Match (star _) _ _ _ |- _ => apply Match_thousands in H; destruct H as (gs & -> & Hgs)
  end.
  match goal with
  | H : Match (times 2 _) ?w _ _ |- _ =>
      apply Match_times_digits in H; destruct H as (Hd2 & Hl);
      destruct w as [|d1 [|d2 [|]]]; try discriminate
  end.
  unfold digits in Hd2. simpl in Hd2.
  apply andb_prop in Hd2. destruct Hd2 as (Hd1 & Hd2).
  apply andb_prop in Hd2. destruct Hd2 as (Hd2 & _).
  match goal with
  | |- amount_grammar (?ds ++ _)%list => exists ds, gs, d1, d2
  end.
  repeat split; auto; lia.
Qed.

Lemma find_records_shape text rec : In rec (find_records text) -> record_shape rec.
Proof.
  intros Hin. apply find_records_sound in Hin.
  destruct Hin as (w1 & w2 & w3 & w4 & -> & M1 & _ & M3 & M4).
  eexists _, _, _, _. split; [reflexivity|].
  rewrite !list_ascii_of_string_of_list_ascii.
  split; [eapply id_re_shape; eauto|].
  split; [eapply address_re_shape; eauto | eapply amount_re_shape; eauto].
Qed.

Lemma no_record_outcome w text out :
  ~ occurs pattern (list_ascii_of_string text) ->
  find_records text = [] /\
  extract_from_text w text out = ([Print "Warning: No matches found."], inr false).
Proof.
  intros Hno. assert (E : find_records text = []) by now apply findall_none.
  split; [exact E|].
  destruct (extract_from_text_cases w text out) as [(_ & Ex)|(Hne & _)];
    [exact Ex | contradiction].
Qed.

(** The record set is empty exactly when the pattern occurs nowhere in the
    text. *)
Lemma find_records_nil_iff text :
  find_records text = [] <-> ~ occurs pattern (list_ascii_of_string text).
Proof. apply findall_nil_iff. Qed.

(** C5: the text "123-456-789 JOHN DOE 456 Main St. $1,234.56", on its own
    or standing between a stretch without digits and a stretch without
    currency symbol, yields exactly one record, with the fields
    "123-456-789", "JOHN DOE", "456 Main St." and "1,234.56" (the currency
    symbol is not part of the amount), and that one row is the table
    written. *)
Theorem C5_one_wellformed_record (w : world) (pre post output_csv : string) :
  free_of is_digit pre = true ->
  free_of (is_char "$") post = true ->
  write_error w output_csv = None ->
  find_records (pre ++ sample_text ++ post)
    = [["123-456-789"; "JOHN DOE"; "456 Main St."; "1,234.56"]] /\
  extract_from_text w (pre ++ sample_text ++ post) output_csv
    = ([ToCsv output_csv
          {| columns := ["Land Tax #"; "Owner"; "Address"; "Total Owed"];
             rows := [[Str "123-456-789"; Str "JOHN DOE";
                       Str "456 Main St."; Str "1,234.56"]] |};
        Print ("✅ Data saved to '" ++ output_csv ++ "'")],
       inr true).
Proof.
  intros Hpre Hpost Hw.
  pose proof (find_records_sample pre post Hpre Hpost) as E.
  split; [exact E|].
  destruct (extract_from_text_cases w (pre ++ sample_text ++ post) output_csv)
    as [(E0 & _)|(_ & [(_ & Ex)|(e & He & _)])].
  - rewrite E in E0. discriminate.
  - rewrite Ex, E. reflexivity.
  - rewrite Hw in He. discriminate.
Qed.

Lemma C5_one_wellformed_record_witness :
  find_records "123-456-789 JOHN DOE 456 Main St. $1,234.56"
    = [["123-456-789"; "JOHN DOE"; "456 Main St."; "1,234.56"]] /\
  extract_from_text (world_with []) "123-456-789 JOHN DOE 456 Main St. $1,234.56" "out.csv"
    = ([ToCsv "out.csv"
          {| columns := ["Land Tax #"; "Owner"; "Address"; "Total Owed"];
             rows := [[Str "123-456-789"; Str "JOHN DOE";
                       Str "456 Main St."; Str "1,234.56"]] |};
        Print "✅ Data saved to 'out.csv'"],
       inr true).
Proof.
  exact (@C5_one_wellformed_record (world_with []) "" "" "out.csv"
           eq_refl eq_refl eq_refl).
Defined.

(** C6: a raw text without any occurrence of the record pattern gives the
    empty record set; extraction prints the "no matches" warning, returns
    [False] without raising, and writes no table. *)
Theorem C6_no_records_found (w : world) (full_text output_csv : string) :
  ~ occurs pattern (list_ascii_of_string full_text) ->
  find_records full_text = [] /\
  extract_from_text w full_text output_csv
    = ([Print "Warning: No matches found."], inr false) /\
  forall (pdf_path : string) (doc : document) (errs : list event),
    path_exists w pdf_path = true ->
    fitz_open w pdf_path = inr doc ->
    read_pages doc 1 "" = (errs, inr full_text) ->
    extract_property_data w pdf_path output_csv
      = ((errs ++ [Print "Warning: No matches found."])%list, inr false) /\
    forall path df, ~ In (ToCsv path df) (errs ++ [Print "Warning: No matches found."])%list.
Proof.
  intros Hno. destruct (@no_record_outcome w full_text output_csv Hno) as [E Ex].
  split; [exact E|]. split; [exact Ex|].
  intros pdf_path doc errs Hex Hopen Hread.
  split.
  - unfold extract_property_data. rewrite Hex, Hopen. simpl negb. cbv iota.
    unfold bind. rewrite Hread. cbn [fst snd]. now rewrite Ex.
  - intros path df Hin. apply in_app_or in Hin. destruct Hin as [Hin|[H|[]]].
    + destruct (read_pages_total doc 1 "") as (errs' & r' & E' & Hp).
      rewrite Hread in E'. inv E'. apply Hp in Hin. destruct Hin as (m & Hm).
      discriminate.
    + discriminate.
Qed.

Lemma C6_no_records_found_witness :
  find_records notice_text = [] /\
  extract_from_text (world_with [inr notice_text]) notice_text "out.csv"
    = ([Print "Warning: No matches found."], inr false) /\
  forall (pdf_path : string) (doc : document) (errs : list event),
    path_exists (world_with [inr notice_text]) pdf_path = true ->
    fitz_open (world_with [inr notice_text]) pdf_path = inr doc ->
    read_pages doc 1 "" = (errs, inr notice_text) ->
    extract_property_data (world_with [inr notice_text]) pdf_path "out.csv"
      = ((errs ++ [Print "Warning: No matches found."])%list, inr false) /\
    forall path df, ~ In (ToCsv path df) (errs ++ [Print "Warning: No matches found."])%list.
Proof.
  apply (@C6_no_records_found (world_with [inr notice_text]) notice_text "out.csv").
  intros Hocc. apply occurs_dollar in Hocc.
  assert (Hfree : forallb (fun a => negb (is_char "$" a))
                    (list_ascii_of_string notice_text) = true) by reflexivity.
  rewrite forallb_forall in Hfree. specialize (Hfree _ Hocc). discriminate.
Defined.

(** C9: when every currency symbol before a digit is followed by four or
    more digits in a row (as in "$1234.56"), no record is recognised: an
    amount is one to three digits, then groups of a comma and three digits,
    then a period and two digits. *)
Theorem C9_unseparated_amount_unrecognised (w : world) (full_text output_csv : string) :
  amounts_unseparated (list_ascii_of_string full_text) = true ->
  find_records full_text = [] /\
  extract_from_text w full_text output_csv
    = ([Print "Warning: No matches found."], inr false) /\
  forall (a : chars) (c c' : caps), Match amount_re a c c' -> amount_grammar a.
Proof.
  intros H. apply unseparated_no_record in H.
  destruct (@no_record_outcome w full_text output_csv H) as [E Ex].
  split; [exact E|]. split; [exact Ex|].
  intros a c c'. apply amount_re_grammar.
Qed.

Lemma C9_unseparated_amount_unrecognised_witness :
  find_records unseparated_text = [] /\
  extract_from_text (world_with []) unseparated_text "out.csv"
    = ([Print "Warning: No matches found."], inr false) /\
  forall (a : chars) (c c' : caps), Match amount_re a c c' -> amount_grammar a.
Proof.
  apply (@C9_unseparated_amount_unrecognised (world_with []) unseparated_text "out.csv").
  reflexivity.
Defined.

(** C10: every row of the table that extraction writes is a record whose
    identifier is ddd-ddd or ddd-ddd-ddd, whose address is one to five
    digits, a whitespace character and at least one further character of
    the class of word characters, whitespace, period, apostrophe and hyphen,
    and whose amount ends with a period and two digits. *)
Theorem C10_record_field_shapes (w : world) (pdf_path output_csv path : string)
    (df : DataFrame) (row : list cell) :
  In (ToCsv path df) (fst (extract_property_data w pdf_path output_csv)) ->
  In row (rows df) ->
  exists rec : list string, row = map Str rec /\ record_shape rec.
Proof.
  intros Hev Hrow. apply extract_writes in Hev. destruct Hev as (text & ->).
  simpl in Hrow. apply in_map_iff in Hrow. destruct Hrow as (rec & <- & Hrec).
  exists rec. split; [reflexivity|]. eapply find_records_shape; eauto.
Qed.

Lemma C10_record_field_shapes_witness :
  exists rec : list string,
    [Str "123-456-789"; Str "JOHN DOE"; Str "456 Main St."; Str "1,234.56"]
      = map Str rec /\ record_shape rec.
Proof.
  apply (@C10_record_field_shapes (world_with [inr sample_text]) "Sale-List-231.pdf"
           "out.csv" "out.csv" (records_frame [sample_record])).
  - vm_compute. left. reflexivity.
  - simpl. left. reflexivity.
Defined.

End ExtractorSpec.

(** * The address resolver *)
Module ResolverSpec.
Import Re Frame Extractor Resolver.
Local Open Scope string_scope.

(** The scores of [token_sort_ratio] are on the scale 0..100. *)
Lemma token_sort_ratio_range (s1 s2 : string) :
  (0 <= token_sort_ratio s1 s2 <= 100)%Q.
Proof.
  unfold token_sort_ratio, ratio.
  set (s := String.concat " " (sorted (split s1))).
  set (t := String.concat " " (sorted (split s2))).
  set (maximum := (String.length s + String.length t)%nat).
  set (distance := (maximum - 2 * lcs s t)%nat).
  cbv zeta. rewrite Qred_correct.
  assert (Hd : (0 <= (if Nat.eqb maximum 0 then 0
                      else of_nat distance / of_nat maximum) <= 1)%Q).
  { destruct (Nat.eqb_spec maximum 0) as [_|Hm].
    - split; [apply Qle_refl | discriminate].
    - assert (Hpos : (0 < of_nat maximum)%Q).
      { unfold of_nat. rewrite <- (Zlt_Qlt 0). lia. }
      split.
      + apply Qle_shift_div_l; [exact Hpos|]. rewrite Qmult_0_l.
        unfold of_nat. rewrite <- (Zle_Qle 0). lia.
      + apply Qle_shift_div_r; [exact Hpos|]. rewrite Qmult_1_l.
        unfold of_nat. rewrite <- Zle_Qle. subst distance. lia. }
  destruct Hd as [Hd0 Hd1].
  set (d := if Nat.eqb maximum 0 then 0%Q else (of_nat distance / of_nat maximum)%Q) in *.
  clearbody d. split.
  - apply Qmult_le_0_compat; [|discriminate].
    unfold Qminus. rewrite <- (Qplus_opp_r d).
    apply Qplus_le_l. exact Hd1.
  - setoid_replace 100%Q with (1 * 100)%Q at 2 by reflexivity.
    apply Qmult_le_compat_r; [|discriminate].
    unfold Qminus. setoid_replace 1%Q with (1 + - 0)%Q at 2 by reflexivity.
    apply Qplus_le_r. apply Qopp_le_compat. exact Hd0.
Qed.

(** The scores of the scorer of the examples are on the scale 0..100. *)
Lemma sample_scorer_range (a b : string) : (0 <= sample_scorer a b <= 100)%Q.
Proof.
  unfold sample_scorer, table_scorer.
  match goal with |- context [find ?f ?l] => destruct (find f l) as [e|] eqn:E end.
  - apply find_some in E. destruct E as [Hin _].
    repeat (destruct Hin as [<-|Hin]; [split; discriminate|]). destruct Hin.
  - split; discriminate.
Qed.

(** One more choice: the candidate kept is a best one among the choices
    seen, if the scores are not negative. *)
Lemma taken_best scorer q (seen : list string) (c : string) (key : nat)
    (best : option candidate) :
  (0 <= scorer q c)%Q ->
  match best with
  | Some b => is_best scorer q seen b
  | None => seen = []
  end ->
  exists b',
    (if taken (scorer q c) best then Some (c, scorer q c, key) else best) = Some b' /\
    is_best scorer q (seen ++ [c]) b'.
Proof.
  intros Hpos Hb. destruct best as [[[bc bs] bk]|]; unfold taken.
  - destruct Hb as (Hin & Hs & Hmax). simpl in Hin, Hs.
    destruct (Qle_bool (scorer q c) bs) eqn:Hle; simpl negb; cbv iota.
    + exists (bc, bs, bk). split; [reflexivity|]. apply Qle_bool_iff in Hle.
      split; [apply in_or_app; now left|].
      split; [exact Hs|]. simpl.
      intros c' Hc'. apply in_app_or in Hc'. destruct Hc' as [Hc'|[<-|[]]]; auto.
    + exists (c, scorer q c, key). split; [reflexivity|].
      assert (Hlt : (bs < scorer q c)%Q).
      { apply Qnot_le_lt. intros H. apply Qle_bool_iff in H. congruence. }
      split; [apply in_or_app; right; now left|].
      split; [reflexivity|]. simpl.
      intros c' Hc'. apply in_app_or in Hc'. destruct Hc' as [Hc'|[<-|[]]].
      * apply Qle_trans with bs; [now apply Hmax | now apply Qlt_le_weak].
      * apply Qle_refl.
  - subst seen. apply Qle_bool_iff in Hpos. unfold worst_score. rewrite Hpos.
    exists (c, scorer q c, key). split; [reflexivity|].
    split; [now left|]. split; [reflexivity|]. simpl.
    intros c' [<-|[]]. apply Qle_refl.
Qed.

(** On scores of the scale 0..100 the search returns a best choice: it
    ends early only at a score of 100, which none exceeds. *)
Lemma best_from_strings scorer q : forall (rest seen : list string) key best,
  (forall c, In c rest -> (0 <= scorer q c <= 100)%Q) ->
  match best with
  | Some b => is_best scorer q seen b
  | None => seen = []
  end ->
  exists r,
    best_from scorer q key (map Str rest) best = inr r /\
    match r with
    | Some b => is_best scorer q (seen ++ rest) b
    | None => (seen ++ rest)%list = []
    end.
Proof.
  induction rest as [|c rest IH]; intros seen key best Hrange Hb.
  - exists best. split; [reflexivity|]. now rewrite app_nil_r.
  - cbn [map best_from]. cbv zeta.
    destruct (Hrange c (or_introl eq_refl)) as [Hpos Htop].
    destruct (@taken_best scorer q seen c key best Hpos Hb) as (b' & -> & Hb').
    destruct (Qeq_bool (scorer q c) optimal_score) eqn:Hopt.
    + exists (Some b'). split; [reflexivity|].
      apply Qeq_bool_iff in Hopt. unfold optimal_score in Hopt.
      destruct Hb' as (Hin & Hs & Hmax).
      split; [|split; [exact Hs|]].
      * apply in_app_or in Hin. apply in_or_app.
        destruct Hin as [Hin|[<-|[]]]; [now left | right; now left].
      * intros c' Hc'. apply in_app_or in Hc'. destruct Hc' as [Hc'|[<-|Hc']].
        -- apply Hmax. apply in_or_app. now left.
        -- apply Hmax. apply in_or_app. right. now left.
        -- apply Qle_trans with (scorer q c).
           ++ rewrite Hopt. apply (Hrange c'). now right.
           ++ apply Hmax. apply in_or_app. right. now left.
    + destruct (IH (seen ++ [c])%list (S key) (Some b')
                  (fun c' H => Hrange c' (or_intror H)) Hb') as (r & E & Hr).
      exists r. split; [exact E|]. now rewrite <- app_assoc in Hr.
Qed.

(** Where no score is negative the search takes a choice as soon as there
    is one. *)
Lemma best_from_some scorer q : forall (rest : list string) key best,
  (forall c, In c rest -> (0 <= scorer q c)%Q) ->
  best <> None \/ rest <> [] ->
  exists b, best_from scorer q key (map Str rest) best = inr (Some b).
Proof.
  induction rest as [|c rest IH]; intros key best Hpos Hsome.
  - destruct Hsome as [Hsome|Hsome]; [|contradiction].
    destruct best as [b|]; [|contradiction]. now exists b.
  - cbn [map best_from]. cbv zeta.
    assert (Hkept : (if taken (scorer q c) best
                     then Some (c, scorer q c, key) else best) <> None).
    { destruct best as [[[bc bs] bk]|]; unfold taken.
      - destruct (negb (Qle_bool (scorer q c) bs)); discriminate.
      - pose proof (Hpos c (or_introl eq_refl)) as H0.
        apply Qle_bool_iff in H0. unfold worst_score. rewrite H0. discriminate. }
    destruct (Qeq_bool (scorer q c) optimal_score).
    + destruct (if taken (scorer q c) best then Some (c, scorer q c, key) else best)
        as [b|]; [now exists b | contradiction].
    + apply IH; [intros c' H; apply Hpos; now right | now left].
Qed.

(** Against a reference of strings that is not empty and scored without
    negative scores, [get_best_match] returns. *)
Lemma get_best_match_returns scorer (address : string) (reference : list string)
    (threshold : Q) :
  reference <> [] ->
  (forall c, In c reference -> (0 <= scorer address c)%Q) ->
  exists r, get_best_match (Str address) (map Str reference) scorer threshold = inr r.
Proof.
  intros Hne Hpos.
  destruct (@best_from_some scorer address reference 0 None Hpos (or_intror Hne))
    as ([[bc bs] bk] & E).
  unfold get_best_match, extractOne. rewrite E.
  destruct (Qle_bool threshold bs); eauto.
Qed.

(** Against a reference of strings that is not empty, scored on the scale
    0..100, [get_best_match] returns, and what it returns is decided by the
    best score. *)
Lemma get_best_match_strings scorer (address : string) (reference : list string)
    (threshold : Q) :
  reference <> [] ->
  (forall c, In c reference -> (0 <= scorer address c <= 100)%Q) ->
  exists (best : string) (score : Q),
    In best reference /\ score = scorer address best /\
    (forall c, In c reference -> (scorer address c <= score)%Q) /\
    get_best_match (Str address) (map Str reference) scorer threshold
      = inr (if Qle_bool threshold score then Some best else None, score).
Proof.
  intros Hne Hrange.
  destruct (@best_from_strings scorer address reference [] 0 None Hrange eq_refl)
    as (r & E & Hr).
  simpl in Hr. destruct r as [[[bc bs] bk]|]; [|contradiction].
  destruct Hr as (Hin & Hs & Hmax). simpl in Hin, Hs, Hmax.
  exists bc, bs. repeat split; auto.
  unfold get_best_match, extractOne. rewrite E.
  now destruct (Qle_bool threshold bs).
Qed.

Lemma bind_inv {A B} (m : io A) (f : A -> io B) tr b :
  bind m f = (tr, inr b) ->
  exists t1 a t2, m = (t1, inr a) /\ f a = (t2, inr b) /\ tr = (t1 ++ t2)%list.
Proof.
  unfold bind. destruct m as [t1 [e|a]]; simpl; intros H; [discriminate|].
  destruct (f a) as [t2 r] eqn:E. simpl in H. inversion H; subst.
  now exists t1, a, t2.
Qed.

Lemma lift_inv {A} (r : exn + A) t a : lift r = (t, inr a) -> r = inr a /\ t = [].
Proof. unfold lift. intros H. inversion H. auto. Qed.

Lemma to_csv_inv w path df t u :
  to_csv w path df = (t, inr u) -> t = [ToCsv path df].
Proof.
  unfold to_csv, raise. destruct (write_error w path); intros H; inversion H; auto.
Qed.

(** A run that completes has written the linked table and, after it, the
    table that [where_lt] selects from it. *)
Lemma fuzzy_outputs scorer w csv shp out tr :
  fuzzy_match_addresses scorer w csv shp out = (tr, inr tt) ->
  exists linked sub,
    In (ToCsv out linked) tr /\
    In (ToCsv "imperfect_matches.csv" sub) tr /\
    where_lt linked "Score" 100 = inr sub.
Proof.
  unfold fuzzy_match_addresses. intros H.
  repeat match type of H with
  | bind (lift _) _ = _ =>
      apply bind_inv in H;
      let t1 := fresh "t" in let a := fresh "a" in let t2 := fresh "t" in
      let E := fresh "E" in
      destruct H as (t1 & a & t2 & E & H & ->);
      apply lift_inv in E; destruct E as [E ->]; cbv beta zeta in H
  end.
  apply bind_inv in H. destruct H as (tm & matches & t2 & Em & H & ->).
  cbv beta zeta in H.
  repeat match type of H with
  | bind (lift _) _ = _ =>
      apply bind_inv in H;
      let t1 := fresh "t" in let a := fresh "a" in let t2 := fresh "t" in
      let E := fresh "E" in
      destruct H as (t1 & a & t2 & E & H & ->);
      apply lift_inv in E; destruct E as [E ->]; cbv beta zeta in H
  end.
  apply bind_inv in H. destruct H as (tw & u1 & t3 & Ew & H & ->).
  apply to_csv_inv in Ew. subst tw.
  apply bind_inv in H. destruct H as (tp & u2 & t4 & Ep & H & ->).
  apply bind_inv in H. destruct H as (tl & sub & t5 & El & H & ->).
  apply lift_inv in El. destruct El as [El ->].
  apply bind_inv in H. destruct H as (tw2 & u3 & t6 & Ew2 & H & ->).
  apply to_csv_inv in Ew2. subst tw2.
  match type of El with where_lt ?l _ _ = _ => exists l, sub end.
  split; [|split; [|exact El]].
  - simpl. repeat (rewrite in_app_iff; simpl). tauto.
  - simpl. repeat (rewrite in_app_iff; simpl). tauto.
Qed.

Lemma sequence_cell_lt bound : forall cs mask,
  sequence (map (cell_lt bound) cs) = inr mask ->
  mask = map (fun c => match c with Num q => Qltb q bound | _ => false end) cs.
Proof.
  induction cs as [|c cs IH]; simpl; intros mask H.
  - now inversion H.
  - destruct c as [s|q|]; simpl in H; try discriminate;
      destruct (sequence (map (cell_lt bound) cs)) as [e|m]; try discriminate;
      inversion H; subst; f_equal; now apply IH.
Qed.

Lemma select_filter {A} (f : A -> bool) : forall l : list A,
  map fst (filter snd (combine l (map f l))) = filter f l.
Proof.
  induction l as [|x l IH]; simpl; [reflexivity|].
  destruct (f x); simpl; now rewrite IH.
Qed.

(** [df[df[col] < bound]] keeps the labels and exactly the rows whose cell
    under [col] is a number below the bound, in their order. *)
Lemma where_lt_spec df col bound sub :
  where_lt df col bound = inr sub ->
  exists i,
    index_of col (columns df) = Some i /\
    columns sub = columns df /\
    rows sub = filter (fun row => match at_col i row with
                                  | Num q => Qltb q bound
                                  | _ => false
                                  end) (rows df).
Proof.
  unfold where_lt, getitem. destruct (index_of col (columns df)) as [i|]; [|discriminate].
  destruct (sequence (map (cell_lt bound) (map (at_col i) (rows df)))) as [e|mask] eqn:E;
    [discriminate|].
  intros H. inversion H; subst; clear H. exists i. split; [reflexivity|].
  split; [reflexivity|]. simpl.
  apply sequence_cell_lt in E. subst mask. rewrite map_map.
  apply (select_filter (fun row => match at_col i row with
                                   | Num q => Qltb q bound
                                   | _ => false
                                   end)).
Qed.

Lemma Qltb_lt (a b : Q) : Qltb a b = true <-> (a < b)%Q.
Proof.
  unfold Qltb. rewrite negb_true_iff. split.
  - intros H. apply Qnot_le_lt. intros Hle. apply Qle_bool_iff in Hle. congruence.
  - intros H. destruct (Qle_bool b a) eqn:E; [|reflexivity].
    apply Qle_bool_iff in E. exfalso. exact (Qlt_not_le _ _ H E).
Qed.

Lemma match_each_strings scorer (reference : list string)
    (best : string -> option string * Q) :
  (forall a, get_best_match (Str a) (map Str reference) scorer default_threshold
             = inr (best a)) ->
  forall addresses : list string,
    match_each scorer (map Str addresses) (map Str reference)
      = (map (fun a => Matching (Str a)) addresses,
         inr (map (fun a => (Str a, fst (best a), snd (best a))) addresses)).
Proof.
  intros Hbest. induction addresses as [|a addresses IH]; simpl; [reflexivity|].
  rewrite Hbest, IH. unfold bind, ret. simpl. now rewrite app_nil_r.
Qed.

Lemma matches_frame_rows (matches : list match_row) :
  rows (matches_frame matches) = map match_cells matches.
Proof. now destruct matches. Qed.

(** C1, at an input that breaks it, under the scorer of the script,
    [token_sort_ratio]: of two records the second, at "3 Hill", has a best
    score of 100/7 (14.29, against "5 ELM CT"), below the threshold of 25,
    so that its match is [None]; the run completes, and the linked table it
    writes has no row for that record. *)
Theorem C1_unmatched_record_dropped :
  exists (tr : list event) (linked : DataFrame),
    fuzzy_match_addresses token_sort_ratio (world_with []) sale_with_stranger
      sample_gazetteer "matched_addresses_231.csv" = (tr, inr tt) /\
    In (ToCsv "matched_addresses_231.csv" linked) tr /\
    In stranger_row (rows sale_with_stranger) /\
    get_best_match (Str "3 Hill") (map Str ["1 MAIN ST"; "22 OAK AVE"; "5 ELM CT"; "700 PINE RD"])
      token_sort_ratio default_threshold = inr (None, (100 # 7)%Q) /\
    List.length (rows linked) = 1 /\
    forall row, In row (rows linked) -> firstn 5 row <> stranger_row.
Proof.
  eexists _, _. split; [vm_compute; reflexivity|].
  split; [right; right; left; reflexivity|].
  split; [right; left; reflexivity|].
  split; [vm_compute; reflexivity|].
  split; [reflexivity|].
  intros row [<-|[]]. vm_compute. discriminate.
Qed.

(** C2, at the inputs that break it: against an empty reference the first
    address already makes [get_best_match] raise (it unpacks the [None] of
    [extractOne]); nothing is matched and no table is written. *)
Theorem C2_empty_reference_raises :
  (forall scorer (a : string) (rest : list cell),
     match_each scorer (Str a :: rest) []
       = ([Matching (Str a)], inl unpack_none)) /\
  fuzzy_match_addresses sample_scorer (world_with []) sale_with_unmatched
    empty_gazetteer "matched_addresses_231.csv"
    = ([Matching (Str "1 Main St")],
       inl (TypeError "cannot unpack non-iterable NoneType object")).
Proof.
  split; [intros; reflexivity | vm_compute; reflexivity].
Qed.

(** C3: against a reference that is not empty, under a scorer without
    negative scores (as [token_sort_ratio], on the scale 0..100), every
    address gets exactly one entry of [matches], in the order of the input
    and without deduplication; an address that occurs k times has exactly k
    rows on the match side of the join, all with the same match and
    score. *)
Theorem C3_one_match_per_address (scorer : string -> string -> Q)
    (addresses reference : list string) :
  reference <> [] ->
  (forall a c, In c reference -> (0 <= scorer a c)%Q) ->
  exists (best : string -> option string * Q) (matches : list match_row),
    (forall a, get_best_match (Str a) (map Str reference) scorer default_threshold
               = inr (best a)) /\
    match_each scorer (map Str addresses) (map Str reference)
      = (map (fun a => Matching (Str a)) addresses, inr matches) /\
    matches = map (fun a => (Str a, fst (best a), snd (best a))) addresses /\
    List.length matches = List.length addresses /\
    forall a,
      filter (fun row => key_eqb (at_col 0 row) (Str a)) (rows (matches_frame matches))
        = repeat [Str a; opt_cell (fst (best a)); Num (snd (best a))]
                 (count_occ string_dec addresses a).
Proof.
  intros Hne Hpos.
  set (best := fun a =>
         match get_best_match (Str a) (map Str reference) scorer default_threshold with
         | inr r => r
         | inl _ => (None, 0%Q)
         end).
  assert (Hbest : forall a,
            get_best_match (Str a) (map Str reference) scorer default_threshold
            = inr (best a)).
  { intros a. unfold best.
    destruct (@get_best_match_returns scorer a reference default_threshold Hne (Hpos a))
      as (r & ->). reflexivity. }
  exists best, (map (fun a => (Str a, fst (best a), snd (best a))) addresses).
  split; [exact Hbest|].
  split; [now apply match_each_strings|].
  split; [reflexivity|].
  split; [now rewrite length_map|].
  intros a. rewrite matches_frame_rows, map_map.
  induction addresses as [|x l IH]; simpl; [reflexivity|].
  destruct (string_dec x a) as [->|Hxa].
  - rewrite String.eqb_refl. simpl. now rewrite IH.
  - apply String.eqb_neq in Hxa. rewrite Hxa. exact IH.
Qed.

Lemma C3_one_match_per_address_witness :
  exists (best : string -> option string * Q) (matches : list match_row),
    (forall a, get_best_match (Str a)
                 (map Str ["1 MAIN ST"; "22 OAK AVE"; "5 ELM CT"; "700 PINE RD"])
                 sample_scorer default_threshold
               = inr (best a)) /\
    match_each sample_scorer (map Str ["1 Main St"; "7 Pine"; "1 Main St"])
      (map Str ["1 MAIN ST"; "22 OAK AVE"; "5 ELM CT"; "700 PINE RD"])
      = (map (fun a => Matching (Str a)) ["1 Main St"; "7 Pine"; "1 Main St"],
         inr matches) /\
    matches = map (fun a => (Str a, fst (best a), snd (best a)))
                ["1 Main St"; "7 Pine"; "1 Main St"] /\
    List.length matches = List.length ["1 Main St"; "7 Pine"; "1 Main St"] /\
    forall a,
      filter (fun row => key_eqb (at_col 0 row) (Str a)) (rows (matches_frame matches))
        = repeat [Str a; opt_cell (fst (best a)); Num (snd (best a))]
                 (count_occ string_dec ["1 Main St"; "7 Pine"; "1 Main St"] a).
Proof.
  apply (@C3_one_match_per_address sample_scorer
           ["1 Main St"; "7 Pine"; "1 Main St"]
           ["1 MAIN ST"; "22 OAK AVE"; "5 ELM CT"; "700 PINE RD"]).
  - discriminate.
  - intros a c _. exact (proj1 (sample_scorer_range a c)).
Defined.

(** The join of the records with [matches] is on the address alone: two
    records at one address have two rows on the match side, and each of
    them is joined with both, four rows in the linked table. *)
Example duplicate_address_rows :
  exists (tr : list event) (linked : DataFrame),
    fuzzy_match_addresses sample_scorer (world_with []) sale_with_duplicate
      sample_gazetteer "matched_addresses_231.csv" = (tr, inr tt) /\
    In (ToCsv "matched_addresses_231.csv" linked) tr /\
    map (firstn 1) (rows linked)
      = [[Str "100-001"]; [Str "100-001"]; [Str "100-005"]; [Str "100-005"]].
Proof.
  eexists _, _. split; [vm_compute; reflexivity|].
  split; [right; right; left; reflexivity | reflexivity].
Qed.

(** C4: for every address, every scorer whose scores of the address lie
    on the scale 0..100, and every threshold T, [get_best_match] returns the
    best score over the reference in both cases; with it a best choice when
    the score is at least T, and [None] when it is below T. *)
Theorem C4_threshold_boundary (scorer : string -> string -> Q) (address : string)
    (reference : list string) (threshold : Q) :
  reference <> [] ->
  (forall c, In c reference -> (0 <= scorer address c <= 100)%Q) ->
  exists (best : string) (score : Q),
    In best reference /\ score = scorer address best /\
    (forall c, In c reference -> (scorer address c <= score)%Q) /\
    ((threshold <= score)%Q ->
     get_best_match (Str address) (map Str reference) scorer threshold
       = inr (Some best, score)) /\
    ((score < threshold)%Q ->
     get_best_match (Str address) (map Str reference) scorer threshold
       = inr (None, score)).
Proof.
  intros Hne Hrange.
  destruct (@get_best_match_strings scorer address reference threshold Hne Hrange)
    as (best & score & Hin & Hs & Hmax & E).
  exists best, score. repeat split; auto.
  - intros Hle. apply Qle_bool_iff in Hle. now rewrite E, Hle.
  - intros Hlt. rewrite E.
    destruct (Qle_bool threshold score) eqn:Hb; [|reflexivity].
    apply Qle_bool_iff in Hb. exfalso. exact (Qlt_not_le _ _ Hlt Hb).
Qed.

Lemma C4_threshold_boundary_witness :
  exists (best : string) (score : Q),
    In best ["1 MAIN ST"; "22 OAK AVE"] /\ score = sample_scorer "3 Hill" best /\
    (forall c, In c ["1 MAIN ST"; "22 OAK AVE"] -> (sample_scorer "3 Hill" c <= score)%Q) /\
    ((25 <= score)%Q ->
     get_best_match (Str "3 Hill") (map Str ["1 MAIN ST"; "22 OAK AVE"]) sample_scorer 25
       = inr (Some best, score)) /\
    ((score < 25)%Q ->
     get_best_match (Str "3 Hill") (map Str ["1 MAIN ST"; "22 OAK AVE"]) sample_scorer 25
       = inr (None, score)).
Proof.
  apply (@C4_threshold_boundary sample_scorer "3 Hill" ["1 MAIN ST"; "22 OAK AVE"] 25).
  - discriminate.
  - intros c [<-|[<-|[]]]; vm_compute; split; discriminate.
Defined.

(** The boundary, both ways: a best score of exactly 25 is accepted at the
    threshold 25, a best score of 24 is not. *)
Example boundary_accepts_equal :
  get_best_match (Str "3 Hill") (map Str ["1 MAIN ST"; "22 OAK AVE"]) sample_scorer 25
    = inr (Some "1 MAIN ST", 25%Q).
Proof. reflexivity. Qed.

Example boundary_rejects_below :
  get_best_match (Str "3 Vale") (map Str ["1 MAIN ST"; "22 OAK AVE"]) sample_scorer 25
    = inr (None, 24%Q).
Proof. reflexivity. Qed.

(** C7: in every run that completes, the low-confidence table written to
    "imperfect_matches.csv" has the columns of the linked table and exactly
    its rows with a score below 100, in their order. *)
Theorem C7_low_confidence_subset (scorer : string -> string -> Q) (w : world)
    (csv_df shapefile_gdf : DataFrame) (output_path : string) (tr : list event) :
  fuzzy_match_addresses scorer w csv_df shapefile_gdf output_path = (tr, inr tt) ->
  exists (linked sub : DataFrame) (i : nat),
    In (ToCsv output_path linked) tr /\
    In (ToCsv "imperfect_matches.csv" sub) tr /\
    index_of "Score" (columns linked) = Some i /\
    columns sub = columns linked /\
    rows sub = filter (fun row => match at_col i row with
                                  | Num q => Qltb q 100
                                  | _ => false
                                  end) (rows linked) /\
    forall row,
      In row (rows sub) <->
      In row (rows linked) /\ exists q, at_col i row = Num q /\ (q < 100)%Q.
Proof.
  intros H. apply fuzzy_outputs in H. destruct H as (linked & sub & H1 & H2 & Hw).
  apply where_lt_spec in Hw. destruct Hw as (i & Hi & Hc & Hr).
  exists linked, sub, i. repeat split; auto.
  - rewrite Hr in H. apply filter_In in H. tauto.
  - rewrite Hr in H. apply filter_In in H. destruct H as [_ H].
    destruct (at_col i row) as [s|q|]; try discriminate.
    exists q. split; [reflexivity | now apply Qltb_lt].
  - intros (Hin & q & Hq & Hlt). rewrite Hr. apply filter_In. split; [exact Hin|].
    rewrite Hq. now apply Qltb_lt.
Qed.

Lemma C7_low_confidence_subset_witness :
  exists (linked sub : DataFrame) (i : nat),
    In (ToCsv "matched_addresses_231.csv" linked)
       (fst (fuzzy_match_addresses sample_scorer (world_with []) sample_sale
               sample_gazetteer "matched_addresses_231.csv")) /\
    In (ToCsv "imperfect_matches.csv" sub)
       (fst (fuzzy_match_addresses sample_scorer (world_with []) sample_sale
               sample_gazetteer "matched_addresses_231.csv")) /\
    index_of "Score" (columns linked) = Some i /\
    columns sub = columns linked /\
    rows sub = filter (fun row => match at_col i row with
                                  | Num q => Qltb q 100
                                  | _ => false
                                  end) (rows linked) /\
    forall row,
      In row (rows sub) <->
      In row (rows linked) /\ exists q, at_col i row = Num q /\ (q < 100)%Q.
Proof.
  apply (@C7_low_confidence_subset sample_scorer (world_with []) sample_sale
           sample_gazetteer "matched_addresses_231.csv").
  vm_compute. reflexivity.
Defined.

(** The example of the specification: scores 100, 87, 100 and 40 leave the
    rows with 87 and 40, in that order. *)
Example low_confidence_example :
  where_lt {| columns := ["Address"; "Score"];
              rows := [[Str "a"; Num 100]; [Str "b"; Num 87];
                       [Str "c"; Num 100]; [Str "d"; Num 40]]%Q |} "Score" 100
  = inr {| columns := ["Address"; "Score"];
           rows := [[Str "b"; Num 87]; [Str "d"; Num 40]]%Q |}.
Proof. reflexivity. Qed.

(** C8: when the record table has no "Address" column the run fails with
    [KeyError] at once: no address is matched and no table is written. *)
Theorem C8_missing_address_column (scorer : string -> string -> Q) (w : world)
    (csv_df shapefile_gdf : DataFrame) (output_path : string) :
  index_of "Address" (columns csv_df) = None ->
  fuzzy_match_addresses scorer w csv_df shapefile_gdf output_path
    = ([], inl (KeyError "Address")).
Proof.
  intros H. unfold fuzzy_match_addresses, getitem. rewrite H. reflexivity.
Qed.

Lemma C8_missing_address_column_witness :
  fuzzy_match_addresses sample_scorer (world_with []) sale_without_address
    sample_gazetteer "matched_addresses_231.csv"
    = ([], inl (KeyError "Address")).
Proof.
  apply (@C8_missing_address_column sample_scorer (world_with [])
           sale_without_address sample_gazetteer "matched_addresses_231.csv").
  reflexivity.
Defined.

End ResolverSpec.

(** * Checking for the PDF and downloading it *)
Module RetrievalSpec.
Import Frame Retrieval.
Local Open Scope string_scope.

Lemma count_app p (a b : list step) : count p (a ++ b)%list = count p a + count p b.
Proof. unfold count. now rewrite filter_app, length_app. Qed.

Lemma then_done {A B} (tr : list step) (a : A) (f : A -> sh B) :
  then_ (tr, inr a) f = ((tr ++ fst (f a))%list, snd (f a)).
Proof. reflexivity. Qed.

(** What the loop of [check_pdf] does from [attempt] on, with a delay
    that is not negative: it ends at the first attempt that is answered
    with a PDF or whose request raises what the loop does not catch. *)
Lemma attempts_spec o url retries delay :
  (0 <= delay)%Z ->
  forall todo attempt,
    (attempt + Z.of_nat todo = retries + 1)%Z ->
    exists (r : crash + bool) (tr : list step),
      attempts o url retries delay todo attempt = (tr, r) /\
      forallb is_polling tr = true /\
      match r with
      | inr true =>
          exists k, (attempt <= k <= retries)%Z /\ accepted o url k = true /\
            (forall j, (attempt <= j < k)%Z -> refused o url j) /\
            count is_head tr = Z.to_nat (k - attempt + 1) /\
            count is_sleep tr = Z.to_nat (k - attempt)
      | inr false =>
          (forall j, (attempt <= j <= retries)%Z -> refused o url j) /\
          count is_head tr = todo /\ count is_sleep tr = pred todo
      | inl c =>
          exists k e, (attempt <= k <= retries)%Z /\ broken o url k = Some e /\
            c = Uncaught e /\
            (forall j, (attempt <= j < k)%Z -> refused o url j) /\
            count is_head tr = Z.to_nat (k - attempt + 1) /\
            count is_sleep tr = Z.to_nat (k - attempt)
      end.
Proof.
  intros Hdelay. induction todo as [|todo IH]; intros attempt Hat.
  - exists (inr false). eexists. split; [reflexivity|]. split; [reflexivity|].
    split; [intros j Hj; lia | split; reflexivity].
  - assert (Hnext : refused o url attempt ->
              forall msg,
              exists (r : crash + bool) (tr : list step),
                (act (Head url) ;;;
                 (say msg ;;;
                  ((if (attempt <? retries)%Z then sleep delay else done tt) ;;;
                   attempts o url retries delay todo (attempt + 1)%Z)))%sh
                = (tr, r) /\
                forallb is_polling tr = true /\
                match r with
                | inr true =>
                    exists k, (attempt <= k <= retries)%Z /\ accepted o url k = true /\
                      (forall j, (attempt <= j < k)%Z -> refused o url j) /\
                      count is_head tr = Z.to_nat (k - attempt + 1) /\
                      count is_sleep tr = Z.to_nat (k - attempt)
                | inr false =>
                    (forall j, (attempt <= j <= retries)%Z -> refused o url j) /\
                    count is_head tr = S todo /\ count is_sleep tr = todo
                | inl c =>
                    exists k e, (attempt <= k <= retries)%Z /\
                      broken o url k = Some e /\ c = Uncaught e /\
                      (forall j, (attempt <= j < k)%Z -> refused o url j) /\
                      count is_head tr = Z.to_nat (k - attempt + 1) /\
                      count is_sleep tr = Z.to_nat (k - attempt)
                end).
    { intros Hbad msg.
      destruct (IH (attempt + 1)%Z ltac:(lia)) as (r & tr & E & Hpoll & Hr).
      assert (Hsleep : (if (attempt <? retries)%Z then sleep delay else done tt)
                       = ((if (attempt <? retries)%Z then [Sleep delay] else [])%list, inr tt)).
      { unfold sleep. destruct (attempt <? retries)%Z; [|reflexivity].
        destruct (delay <? 0)%Z eqn:Hneg; [apply Z.ltb_lt in Hneg; lia | reflexivity]. }
      assert (Hlater : forall k,
                (attempt + 1 <= k <= retries)%Z ->
                (forall j, (attempt + 1 <= j < k)%Z -> refused o url j) ->
                count is_head tr = Z.to_nat (k - (attempt + 1) + 1) ->
                count is_sleep tr = Z.to_nat (k - (attempt + 1)) ->
                (attempt <= k <= retries)%Z /\
                (forall j, (attempt <= j < k)%Z -> refused o url j) /\
                count is_head
                  ([Head url] ++ [Say msg]
                   ++ (if (attempt <? retries)%Z then [Sleep delay] else []) ++ tr)%list
                  = Z.to_nat (k - attempt + 1) /\
                count is_sleep
                  ([Head url] ++ [Say msg]
                   ++ (if (attempt <? retries)%Z then [Sleep delay] else []) ++ tr)%list
                  = Z.to_nat (k - attempt)).
      { intros k Hk Hbefore Hh Hs. split; [lia|]. split.
        - intros j Hj. destruct (Z.eq_dec j attempt) as [->|Hne]; [exact Hbad|].
          apply Hbefore. lia.
        - assert (Hlt : (attempt <? retries)%Z = true) by (apply Z.ltb_lt; lia).
          rewrite Hlt, !count_app, Hh, Hs. unfold count. simpl. split; lia. }
      exists r,
        ([Head url] ++ [Say msg]
         ++ (if (attempt <? retries)%Z then [Sleep delay] else []) ++ tr)%list.
      split.
      { unfold act, say. rewrite !then_done. cbn [fst snd].
        rewrite Hsleep, then_done, E. reflexivity. }
      split.
      { rewrite !forallb_app, Hpoll. now destruct (attempt <? retries)%Z. }
      destruct r as [c|[|]].
      - destruct Hr as (k & e & Hk & Hbr & Hc & Hbefore & Hh & Hs).
        exists k, e. destruct (Hlater k Hk Hbefore Hh Hs) as (H1 & H2 & H3).
        auto.
      - destruct Hr as (k & Hk & Hgood & Hbefore & Hh & Hs).
        exists k. destruct (Hlater k Hk Hbefore Hh Hs) as (H1 & H2 & H3).
        auto.
      - destruct Hr as (Hall & Hh & Hs). split.
        + intros j Hj. destruct (Z.eq_dec j attempt) as [->|Hne]; [exact Hbad|].
          apply Hall. lia.
        + rewrite !count_app, Hh, Hs. unfold count.
          destruct (attempt <? retries)%Z eqn:Hlt; simpl.
          * apply Z.ltb_lt in Hlt. split; lia.
          * apply Z.ltb_ge in Hlt. split; lia. }
    simpl attempts.
    destruct (head_reply o attempt url) as [r|msg|e] eqn:Hr.
    + destruct (is_pdf r) eqn:Hpdf.
      * exists (inr true). eexists. split; [reflexivity|]. split; [reflexivity|].
        exists attempt.
        split; [lia|]. unfold accepted. rewrite Hr. split; [exact Hpdf|].
        split; [intros j Hj; lia|].
        replace (attempt - attempt + 1)%Z with 1%Z by lia.
        replace (attempt - attempt)%Z with 0%Z by lia. split; reflexivity.
      * apply Hnext. unfold refused, accepted, broken. rewrite Hr. auto.
    + apply Hnext. unfold refused, accepted, broken. rewrite Hr. auto.
    + exists (inl (Uncaught e)). eexists. split; [reflexivity|]. split; [reflexivity|].
      exists attempt, e.
      split; [lia|]. unfold broken. rewrite Hr. split; [reflexivity|].
      split; [reflexivity|]. split; [intros j Hj; lia|].
      replace (attempt - attempt + 1)%Z with 1%Z by lia.
      replace (attempt - attempt)%Z with 0%Z by lia. split; reflexivity.
Qed.

Lemma check_pdf_spec o url retries delay :
  (0 <= delay)%Z ->
  exists (r : crash + bool) (tr : list step),
    check_pdf o url retries delay = (tr, r) /\
    forallb is_polling tr = true /\
    match r with
    | inr true =>
        exists k, (1 <= k <= retries)%Z /\ accepted o url k = true /\
          (forall j, (1 <= j < k)%Z -> refused o url j) /\
          count is_head tr = Z.to_nat k /\ count is_sleep tr = pred (Z.to_nat k)
    | inr false =>
        (forall j, (1 <= j <= retries)%Z -> refused o url j) /\
        count is_head tr = Z.to_nat retries /\
        count is_sleep tr = pred (Z.to_nat retries)
    | inl c =>
        exists k e, (1 <= k <= retries)%Z /\ broken o url k = Some e /\
          c = Uncaught e /\
          (forall j, (1 <= j < k)%Z -> refused o url j) /\
          count is_head tr = Z.to_nat k /\ count is_sleep tr = pred (Z.to_nat k)
    end.
Proof.
  intros Hdelay. unfold check_pdf.
  destruct (Z.ltb_spec retries 0) as [Hneg|Hpos].
  - replace (Z.to_nat retries) with 0 by lia.
    exists (inr false). eexists. split; [reflexivity|]. split; [reflexivity|].
    split; [intros j Hj; lia | split; reflexivity].
  - destruct (@attempts_spec o url retries delay Hdelay (Z.to_nat retries) 1%Z
                ltac:(lia)) as (r & tr & E & Hpoll & Hr).
    exists r, tr. split; [exact E|]. split; [exact Hpoll|].
    destruct r as [c|[|]].
    + destruct Hr as (k & e & Hk & Hbr & Hc & Hbefore & Hh & Hs).
      exists k, e. split; [lia|]. split; [exact Hbr|]. split; [exact Hc|].
      split; [exact Hbefore|].
      split; [rewrite Hh; f_equal; lia | rewrite Hs; lia].
    + destruct Hr as (k & Hk & Hgood & Hbefore & Hh & Hs).
      exists k. split; [lia|]. split; [exact Hgood|]. split; [exact Hbefore|].
      split; [rewrite Hh; f_equal; lia | rewrite Hs; lia].
    + exact Hr.
Qed.

(** X1: with a delay that is not negative, [check_pdf] ends at the first
    of the attempts 1..retries that is answered with status 200 and a
    Content-Type that mentions application/pdf, or whose request raises an
    exception that is no [requests.RequestException]: it returns [True] in
    the first case and lets the exception pass in the second, in both
    having made as many HEAD requests as the number of that attempt.  When
    there is no such attempt it returns [False], having made [retries]
    requests (none when [retries <= 0]). *)
Theorem X1_check_pdf_first_success (o : outside) (url : string) (retries delay : Z) :
  (0 <= delay)%Z ->
  exists (r : crash + bool) (tr : list step),
    check_pdf o url retries delay = (tr, r) /\
    match r with
    | inr true =>
        exists k, (1 <= k <= retries)%Z /\ accepted o url k = true /\
          (forall j, (1 <= j < k)%Z -> refused o url j) /\
          count is_head tr = Z.to_nat k
    | inr false =>
        (forall j, (1 <= j <= retries)%Z -> refused o url j) /\
        count is_head tr = Z.to_nat retries
    | inl c =>
        exists k e, (1 <= k <= retries)%Z /\ broken o url k = Some e /\
          c = Uncaught e /\
          (forall j, (1 <= j < k)%Z -> refused o url j) /\
          count is_head tr = Z.to_nat k
    end.
Proof.
  intros Hdelay.
  destruct (@check_pdf_spec o url retries delay Hdelay) as (r & tr & E & _ & Hr).
  exists r, tr. split; [exact E|].
  destruct r as [c|[|]].
  - destruct Hr as (k & e & Hk & Hbr & Hc & Hbefore & Hh & _). exists k, e. auto.
  - destruct Hr as (k & Hk & Hgood & Hbefore & Hh & _). exists k. auto.
  - destruct Hr as (Hall & Hh & _). auto.
Qed.

Lemma X1_check_pdf_first_success_witness :
  exists (r : crash + bool) (tr : list step),
    check_pdf (outside_with 2 "%PDF") "https://example.org/list.pdf" 3 3 = (tr, r) /\
    match r with
    | inr true =>
        exists k, (1 <= k <= 3)%Z /\
          accepted (outside_with 2 "%PDF") "https://example.org/list.pdf" k = true /\
          (forall j, (1 <= j < k)%Z ->
             refused (outside_with 2 "%PDF") "https://example.org/list.pdf" j) /\
          count is_head tr = Z.to_nat k
    | inr false =>
        (forall j, (1 <= j <= 3)%Z ->
           refused (outside_with 2 "%PDF") "https://example.org/list.pdf" j) /\
        count is_head tr = Z.to_nat 3
    | inl c =>
        exists k e, (1 <= k <= 3)%Z /\
          broken (outside_with 2 "%PDF") "https://example.org/list.pdf" k = Some e /\
          c = Uncaught e /\
          (forall j, (1 <= j < k)%Z ->
             refused (outside_with 2 "%PDF") "https://example.org/list.pdf" j) /\
          count is_head tr = Z.to_nat k
    end.
Proof.
  apply (@X1_check_pdf_first_success (outside_with 2 "%PDF")
           "https://example.org/list.pdf" 3 3).
  lia.
Defined.

(** An exception that is no [requests.RequestException] leaves [check_pdf]
    at once: here the second request raises, and the third is not made. *)
Example check_pdf_lets_pass :
  check_pdf {| head_reply := fun attempt _ =>
                 if (attempt =? 2)%Z then Breaks (TypeError "unhashable type")
                 else Fails "Connection refused";
               get_reply := fun _ => Fails "Connection refused";
               save := fun _ _ => Saved |}
    "https://example.org/list.pdf" 3 3
  = ([Head "https://example.org/list.pdf";
      Say "⚠️ Request error on attempt 1/3: Connection refused";
      Sleep 3;
      Head "https://example.org/list.pdf"],
     inl (Uncaught (TypeError "unhashable type"))).
Proof. reflexivity. Qed.

(** X2: with a delay that is not negative, [check_pdf] only sends HEAD
    requests, prints and sleeps, and it sleeps between attempts only: one
    sleep less than requests, so never after the last attempt and never
    after the attempt that succeeds. *)
Theorem X2_check_pdf_sleeps_between (o : outside) (url : string) (retries delay : Z) :
  (0 <= delay)%Z ->
  forallb is_polling (fst (check_pdf o url retries delay)) = true /\
  count is_sleep (fst (check_pdf o url retries delay))
    = pred (count is_head (fst (check_pdf o url retries delay))) /\
  forall seconds, In (Sleep seconds) (fst (check_pdf o url retries delay)) ->
                  seconds = delay.
Proof.
  intros Hdelay.
  destruct (@check_pdf_spec o url retries delay Hdelay) as (r & tr & E & Hpoll & Hr).
  rewrite E. cbn [fst]. split; [exact Hpoll|]. split.
  - destruct r as [c|[|]].
    + destruct Hr as (k & e & _ & _ & _ & _ & Hh & Hs). now rewrite Hh, Hs.
    + destruct Hr as (k & _ & _ & _ & Hh & Hs). now rewrite Hh, Hs.
    + destruct Hr as (_ & Hh & Hs). now rewrite Hh, Hs.
  - clear - E. unfold check_pdf in E. revert E.
    generalize (Z.to_nat retries) as todo, 1%Z as attempt. intros todo. revert tr r.
    induction todo as [|todo IH]; intros tr r attempt E seconds Hin.
    + inversion E; subst. destruct Hin as [H|[]]; discriminate.
    + simpl attempts in E.
      assert (Hnext : forall msg,
                (act (Head url) ;;;
                 (say msg ;;;
                  ((if (attempt <? retries)%Z then sleep delay else done tt) ;;;
                   attempts o url retries delay todo (attempt + 1)%Z)))%sh
                = (tr, r) -> seconds = delay).
      { intros msg Em. unfold act, say in Em. rewrite !then_done in Em. cbn [fst snd] in Em.
        unfold sleep in Em.
        destruct (attempts o url retries delay todo (attempt + 1)%Z) as [tr' r'] eqn:Ea.
        specialize (IH tr' r' _ Ea seconds).
        destruct (attempt <? retries)%Z; [destruct (delay <? 0)%Z|];
          unfold then_ in Em; simpl in Em; inversion Em; subst;
          simpl in Hin;
          repeat match goal with
          | H : _ \/ _ |- _ => destruct H as [H|H]
          end; try discriminate; try (inversion Hin; reflexivity); auto. }
      destruct (head_reply o attempt url) as [r0|msg|e]; [destruct (is_pdf r0)| |]; eauto.
      all: inversion E; subst; simpl in Hin;
        repeat match goal with
        | H : _ \/ _ |- _ => destruct H as [H|H]
        end; try discriminate; contradiction.
Qed.

Lemma X2_check_pdf_sleeps_between_witness :
  forallb is_polling
    (fst (check_pdf (outside_with 3 "%PDF") "https://example.org/list.pdf" 3 3)) = true /\
  count is_sleep (fst (check_pdf (outside_with 3 "%PDF") "https://example.org/list.pdf" 3 3))
    = pred (count is_head
              (fst (check_pdf (outside_with 3 "%PDF") "https://example.org/list.pdf" 3 3))) /\
  forall seconds,
    In (Sleep seconds)
       (fst (check_pdf (outside_with 3 "%PDF") "https://example.org/list.pdf" 3 3)) ->
    seconds = 3%Z.
Proof.
  apply (@X2_check_pdf_sleeps_between (outside_with 3 "%PDF")
           "https://example.org/list.pdf" 3 3).
  lia.
Defined.

(** X3: a negative delay makes [check_pdf] raise: when the first attempt
    is answered without a PDF or fails with a [requests.RequestException],
    and another one is due, [time.sleep] raises [ValueError] after that one
    request, and no further attempt is made. *)
Theorem X3_check_pdf_negative_delay (o : outside) (url : string) (retries delay : Z) :
  (delay < 0)%Z -> (2 <= retries)%Z -> refused o url 1 ->
  snd (check_pdf o url retries delay)
    = inl (ValueError "sleep length must be non-negative") /\
  count is_head (fst (check_pdf o url retries delay)) = 1.
Proof.
  intros Hdelay Hretries [Hbad Hwhole]. unfold check_pdf.
  destruct (Z.to_nat retries) as [|todo] eqn:En; [lia|].
  simpl attempts. unfold accepted in Hbad. unfold broken in Hwhole.
  assert (Hlt : (1 <? retries)%Z = true) by (apply Z.ltb_lt; lia).
  assert (Hneg : (delay <? 0)%Z = true) by (apply Z.ltb_lt; lia).
  rewrite Hlt. unfold sleep. rewrite Hneg.
  destruct (head_reply o 1%Z url) as [r|msg|e];
    [rewrite Hbad| |discriminate]; split; reflexivity.
Qed.

Lemma X3_check_pdf_negative_delay_witness :
  snd (check_pdf (outside_with 2 "%PDF") "https://example.org/list.pdf" 3 (-1))
    = inl (ValueError "sleep length must be non-negative") /\
  count is_head
    (fst (check_pdf (outside_with 2 "%PDF") "https://example.org/list.pdf" 3 (-1))) = 1.
Proof.
  apply (@X3_check_pdf_negative_delay (outside_with 2 "%PDF")
           "https://example.org/list.pdf" 3 (-1));
    [lia | lia | split; reflexivity].
Defined.

(** X4: [download_pdf] never raises and sends one GET request.  It returns
    [True] exactly when the response has status 200 and its body could be
    saved, and then the file holds that body, whatever its Content-Type; a
    response with another status, or a request that fails, writes
    nothing. *)
Theorem X4_download_pdf_outcome (o : outside) (url save_path : string) :
  exists (b : bool) (tr : list step),
    download_pdf o url save_path = (Get url :: tr, inr b) /\
    (forall u, ~ In (Get u) tr) /\
    (b = true <->
     exists r, get_reply o url = Responds r /\ status_code r = 200%Z /\
               save o save_path (content r) = Saved) /\
    (b = true ->
     exists r, get_reply o url = Responds r /\
               file_at save_path (Get url :: tr) = Some (content r)) /\
    ((forall r, get_reply o url = Responds r -> status_code r <> 200%Z) ->
     forall p c, ~ In (WriteFile p c) tr).
Proof.
  unfold download_pdf.
  destruct (get_reply o url) as [r|msg|e] eqn:Hr.
  - destruct (status_code r =? 200)%Z eqn:Hs.
    + apply Z.eqb_eq in Hs.
      destruct (save o save_path (content r)) as [|remains msg] eqn:Hsave.
      * exists true. eexists. split; [reflexivity|].
        split; [intros u [H|[H|[]]]; discriminate|].
        split; [split; [intros _; now exists r | reflexivity]|].
        split.
        -- intros _. exists r. split; [reflexivity|]. simpl.
           now rewrite String.eqb_refl.
        -- intros Hno. exfalso. exact (Hno r eq_refl Hs).
      * exists false. destruct remains as [part|]; eexists; (split; [reflexivity|]);
          (split; [intros u Hin; simpl in Hin;
                   repeat (destruct Hin as [Hin|Hin]; try discriminate); contradiction|]).
        all: split; [split; [discriminate|]|].
        all: try (intros (r' & Hr' & _ & Hsv); inversion Hr'; subst;
                  rewrite Hsave in Hsv; discriminate).
        all: split; [discriminate|]; intros Hno; exfalso; exact (Hno r eq_refl Hs).
    + apply Z.eqb_neq in Hs.
      exists false. eexists. split; [reflexivity|].
      split; [intros u [H|[]]; discriminate|].
      split; [split; [discriminate|]|].
      * intros (r' & Hr' & Hs' & _). inversion Hr'; subst. contradiction.
      * split; [discriminate|]. intros _ p c [H|[]]. discriminate.
  - exists false. eexists. split; [reflexivity|].
    split; [intros u [H|[]]; discriminate|].
    split; [split; [discriminate|]|].
    + intros (r' & Hr' & _). discriminate.
    + split; [discriminate|]. intros _ p c [H|[]]. discriminate.
  - exists false. eexists. split; [reflexivity|].
    split; [intros u [H|[]]; discriminate|].
    split; [split; [discriminate|]|].
    + intros (r' & Hr' & _). discriminate.
    + split; [discriminate|]. intros _ p c [H|[]]. discriminate.
Qed.

End RetrievalSpec.

(** * More on the record extractor *)
Module ExtractorExtra.
Import Re ReFacts Frame Extractor PatternFacts ExtractorSpec Observations.
Local Open Scope string_scope.

Lemma csv_writes_app (a b : list event) :
  csv_writes (a ++ b)%list = (csv_writes a ++ csv_writes b)%list.
Proof. unfold csv_writes. apply flat_map_app. Qed.

Lemma csv_writes_prints (tr : list event) :
  (forall e, In e tr -> exists msg, e = Print msg) -> csv_writes tr = [].
Proof.
  induction tr as [|e tr IH]; intros H; [reflexivity|].
  destruct (H e (or_introl eq_refl)) as (msg & ->). simpl.
  apply IH. intros e' He'. apply H. now right.
Qed.

Lemma append_assoc (a b c : string) : (a ++ b) ++ c = a ++ (b ++ c).
Proof. induction a as [|x a IH]; simpl; [reflexivity | now rewrite IH]. Qed.

(** The loop over the pages: the messages of the pages that cannot be
    read, and the texts of the others unless the iteration raises. *)
Lemma page_loop_spec (stops : option exn) :
  forall (ps : list (exn + string)) (n : nat) (acc : string),
    page_loop ps stops n acc
    = (page_errors n ps,
       match stops with
       | Some e => inl e
       | None => inr (acc ++ fold_right append "" (readable ps))
       end).
Proof.
  induction ps as [|[e|t] ps IH]; intros n acc.
  - simpl. unfold raise, ret, page_errors. simpl.
    replace (acc ++ "") with acc; [now destruct stops|].
    clear. induction acc as [|x acc IH]; simpl; [reflexivity | now rewrite <- IH].
  - simpl page_loop. rewrite IH. unfold bind, print. now destruct stops.
  - simpl page_loop. rewrite IH. unfold page_errors, readable. simpl.
    now rewrite append_assoc.
Qed.

(** Lines 87 to 96 on a document: what [close] raises leaves, else what
    the iteration raises, else the text of the readable pages is there. *)
Lemma read_pages_spec (doc : document) (n : nat) (acc : string) :
  read_pages doc n acc
  = (page_errors n (pages doc),
     match close_error doc, stops doc with
     | Some e, _ => inl e
     | None, Some e => inl e
     | None, None => inr (acc ++ fold_right append "" (readable (pages doc)))
     end).
Proof.
  unfold read_pages, try_finally. rewrite page_loop_spec.
  now destruct (close_error doc).
Qed.

(** X5: [extract_property_data] returns [True] exactly when it has written
    one table, to the output path, holding the records found in the text
    of the readable pages of the document (at least one).  Whenever it
    returns [False] (file missing, PDF that does not open, no record, write
    error) it has written no table.  It raises only what the closing of the
    document raises or else the iteration over its pages (lines 87 to 96
    have no handler), and then it has written no table either. *)
Theorem X5_extract_returns_true_iff_written (w : world) (pdf_path output_csv : string) :
  match snd (extract_property_data w pdf_path output_csv) with
  | inr true =>
      exists doc : document,
        fitz_open w pdf_path = inr doc /\
        stops doc = None /\ close_error doc = None /\
        find_records (fold_right append "" (readable (pages doc))) <> [] /\
        csv_writes (fst (extract_property_data w pdf_path output_csv))
          = [(output_csv,
              records_frame
                (find_records (fold_right append "" (readable (pages doc)))))]
  | inr false =>
      csv_writes (fst (extract_property_data w pdf_path output_csv)) = []
  | inl e =>
      csv_writes (fst (extract_property_data w pdf_path output_csv)) = [] /\
      exists doc : document,
        fitz_open w pdf_path = inr doc /\
        (close_error doc = Some e \/ close_error doc = None /\ stops doc = Some e)
  end.
Proof.
  unfold extract_property_data.
  destruct (negb (path_exists w pdf_path)); [reflexivity|].
  destruct (fitz_open w pdf_path) as [e|doc]; [reflexivity|].
  destruct (read_pages_total doc 1 "") as (errs & r & E & Hp).
  pose proof (read_pages_spec doc 1 "") as Hspec. rewrite E in Hspec.
  unfold bind. rewrite E. cbn [fst snd].
  destruct r as [e|text]; cbn [fst snd].
  - split; [now apply csv_writes_prints|]. exists doc. split; [reflexivity|].
    destruct (close_error doc) as [c|]; [left; congruence|].
    right. split; [reflexivity|]. destruct (stops doc); congruence.
  - assert (Hdoc : close_error doc = None /\ stops doc = None /\
                   text = fold_right append "" (readable (pages doc))).
    { destruct (close_error doc); [discriminate|].
      destruct (stops doc); [discriminate|]. inversion Hspec. auto. }
    destruct Hdoc as (Hclose & Hstops & Htext).
    rewrite csv_writes_app, (@csv_writes_prints errs Hp).
    destruct (extract_from_text_cases w text output_csv)
      as [(_ & Ex)|(Hne & [(_ & Ex)|(e & _ & Ex)])]; rewrite Ex; cbn [fst snd].
    + reflexivity.
    + exists doc. subst text. repeat (split; [assumption || reflexivity|]). reflexivity.
    + reflexivity.
Qed.

(** X6: in a document that is iterated to its end and closed without
    exception, pages that cannot be read are skipped: one message each,
    with the number of the page counted from 1, and the records are
    searched in the texts of the other pages, joined in order with nothing
    in between. *)
Theorem X6_unreadable_pages_skipped (w : world) (pdf_path output_csv : string)
    (doc : list (exn + string)) :
  path_exists w pdf_path = true ->
  fitz_open w pdf_path = inr (intact doc) ->
  extract_property_data w pdf_path output_csv
    = ((page_errors 1 doc
        ++ fst (extract_from_text w (fold_right append "" (readable doc)) output_csv))%list,
       snd (extract_from_text w (fold_right append "" (readable doc)) output_csv)).
Proof.
  intros Hex Hopen. unfold extract_property_data. rewrite Hex, Hopen. simpl negb.
  cbv iota. unfold bind. rewrite read_pages_spec. reflexivity.
Qed.

Lemma X6_unreadable_pages_skipped_witness :
  extract_property_data
    (world_with [inr "123-456-789 JOHN DOE 456 "; inl (OSError "damaged page");
                 inr "Main St. $1,234.56"])
    "Sale-List-231.pdf" "out.csv"
  = ((page_errors 1 [inr "123-456-789 JOHN DOE 456 "; inl (OSError "damaged page");
                     inr "Main St. $1,234.56"]
      ++ fst (extract_from_text
                (world_with [inr "123-456-789 JOHN DOE 456 ";
                             inl (OSError "damaged page"); inr "Main St. $1,234.56"])
                (fold_right append ""
                   (readable [inr "123-456-789 JOHN DOE 456 ";
                              inl (OSError "damaged page"); inr "Main St. $1,234.56"]))
                "out.csv"))%list,
     snd (extract_from_text
            (world_with [inr "123-456-789 JOHN DOE 456 ";
                         inl (OSError "damaged page"); inr "Main St. $1,234.56"])
            (fold_right append ""
               (readable [inr "123-456-789 JOHN DOE 456 ";
                          inl (OSError "damaged page"); inr "Main St. $1,234.56"]))
            "out.csv")).
Proof.
  apply (@X6_unreadable_pages_skipped
           (world_with [inr "123-456-789 JOHN DOE 456 "; inl (OSError "damaged page");
                        inr "Main St. $1,234.56"])
           "Sale-List-231.pdf" "out.csv"); reflexivity.
Defined.

(** The skipped page of the example leaves a record that runs over the
    page break. *)
Example record_across_pages :
  extract_property_data
    (world_with [inr "123-456-789 JOHN DOE 456 "; inl (OSError "damaged page");
                 inr "Main St. $1,234.56"])
    "Sale-List-231.pdf" "out.csv"
  = ([Print "Error reading page 2: damaged page";
      ToCsv "out.csv" (records_frame [sample_record]);
      Print "✅ Data saved to 'out.csv'"], inr true).
Proof. vm_compute. reflexivity. Qed.

(** X7: on a text, extraction ends with the warning "No matches found."
    and [False] exactly when no stretch of the text matches the pattern. *)
Theorem X7_warning_iff_no_occurrence (w : world) (full_text output_csv : string) :
  extract_from_text w full_text output_csv
    = ([Print "Warning: No matches found."], inr false)
  <-> ~ occurs pattern (list_ascii_of_string full_text).
Proof.
  split; [|apply no_record_outcome].
  intros E. apply find_records_nil_iff.
  destruct (extract_from_text_cases w full_text output_csv)
    as [(E0 & _)|(_ & [(_ & Ex)|(e & _ & Ex)])]; [exact E0 | |];
    rewrite Ex in E; discriminate.
Qed.

Lemma string_of_list_ascii_app (a b : chars) :
  string_of_list_ascii (a ++ b)%list = string_of_list_ascii a ++ string_of_list_ascii b.
Proof. induction a as [|x a IH]; simpl; [reflexivity | now rewrite IH]. Qed.

Lemma Match_spaces w c c' :
  Match (plus (Chr is_space)) w c c' -> blank (string_of_list_ascii w).
Proof.
  intros H. apply Match_rep_chr in H. destruct H as (Hall & Hlen & _).
  split.
  - destruct w; simpl in *; [lia | discriminate].
  - now rewrite list_ascii_of_string_of_list_ascii.
Qed.

(** A match of the pattern, with the whitespace between the fields. *)
Lemma pattern_layout w c :
  Match pattern w [] c ->
  exists w1 s1 w2 s2 w3 s3 w4 : chars,
    w = (w1 ++ s1 ++ w2 ++ s2 ++ w3 ++ s3 ++ "$"%char :: w4)%list /\
    c = [(4, w4); (3, w3); (2, w2); (1, w1)] /\
    blank (string_of_list_ascii s1) /\
    blank (string_of_list_ascii s2) /\
    blank (string_of_list_ascii s3) /\
    Match owner_re w2 [(1, w1)] [(1, w1)] /\
    Match amount_re w4 [(3, w3); (2, w2); (1, w1)] [(3, w3); (2, w2); (1, w1)].
Proof.
  intros H. unfold pattern in H. split_match.
  repeat match goal with
  | H : Match (plus (Chr is_space)) _ ?c ?c' |- _ =>
      pose proof (Match_groupless H eq_refl); apply Match_spaces in H; subst c'
  | H : Match (lit _) _ ?c ?c' |- _ =>
      pose proof (Match_groupless H eq_refl); apply Match_lit in H; subst c'
  | H : Match id_re _ ?c ?c' |- _ =>
      tryif constr_eq c c' then fail
      else (pose proof (Match_groupless H eq_refl); subst c')
  | H : Match owner_re _ ?c ?c' |- _ =>
      tryif constr_eq c c' then fail
      else (pose proof (Match_groupless H eq_refl); subst c')
  | H : Match address_re _ ?c ?c' |- _ =>
      tryif constr_eq c c' then fail
      else (pose proof (Match_groupless H eq_refl); subst c')
  | H : Match amount_re _ ?c ?c' |- _ =>
      tryif constr_eq c c' then fail
      else (pose proof (Match_groupless H eq_refl); subst c')
  end.
  subst.
  match goal with
  | |- exists w1 s1 w2 s2 w3 s3 w4 : chars,
         (?a1 ++ ?b1 ++ ?a2 ++ ?b2 ++ ?a3 ++ ?b3 ++ _ ++ ?a4)%list = _ /\ _ =>
      exists a1, b1, a2, b2, a3, b3, a4
  end.
  split; [reflexivity|]. split; [reflexivity|].
  repeat (split; [assumption|]). assumption.
Qed.

(** X8: every record is read off one stretch of the text: its four fields
    stand there in order, the identifier, the owner and the address each
    followed by whitespace, and the amount right behind a currency
    symbol. *)
Theorem X8_record_stands_in_text (full_text : string) (rec : list string) :
  In rec (find_records full_text) ->
  exists pre id s1 owner s2 address s3 amount post : string,
    rec = [id; owner; address; amount] /\
    full_text = pre ++ id ++ s1 ++ owner ++ s2 ++ address ++ s3 ++ "$" ++ amount ++ post /\
    blank s1 /\ blank s2 /\ blank s3.
Proof.
  intros Hin. apply findall_from_sound in Hin.
  destruct Hin as (pre & w & post & c & Hs & M & ->).
  apply pattern_layout in M.
  destruct M as (w1 & s1 & w2 & s2 & w3 & s3 & w4 & -> & -> & B1 & B2 & B3 & _).
  exists (string_of_list_ascii pre), (string_of_list_ascii w1), (string_of_list_ascii s1),
    (string_of_list_ascii w2), (string_of_list_ascii s2), (string_of_list_ascii w3),
    (string_of_list_ascii s3), (string_of_list_ascii w4), (string_of_list_ascii post).
  split; [reflexivity|]. split; [|auto].
  rewrite <- (string_of_list_ascii_of_string full_text), Hs.
  rewrite !string_of_list_ascii_app. simpl string_of_list_ascii.
  rewrite ?string_of_list_ascii_app, ?append_assoc. simpl. reflexivity.
Qed.

Lemma X8_record_stands_in_text_witness :
  exists pre id s1 owner s2 address s3 amount post : string,
    sample_record = [id; owner; address; amount] /\
    "Parcel 123-456-789 JOHN DOE 456 Main St. $1,234.56 due"
      = pre ++ id ++ s1 ++ owner ++ s2 ++ address ++ s3 ++ "$" ++ amount ++ post /\
    blank s1 /\ blank s2 /\ blank s3.
Proof.
  apply (@X8_record_stands_in_text
           "Parcel 123-456-789 JOHN DOE 456 Main St. $1,234.56 due" sample_record).
  vm_compute. left. reflexivity.
Defined.

(** X9: the owner of a record is not empty and holds no line feed, and its
    amount is one to three digits, then groups of a comma and three digits,
    then a period and two digits. *)
Theorem X9_owner_and_amount (full_text : string) (rec : list string) :
  In rec (find_records full_text) ->
  exists id owner address amount : string,
    rec = [id; owner; address; amount] /\
    owner <> "" /\
    ~ In "010"%char (list_ascii_of_string owner) /\
    amount_grammar (list_ascii_of_string amount).
Proof.
  intros Hin. apply find_records_sound in Hin.
  destruct Hin as (w1 & w2 & w3 & w4 & -> & _ & M2 & _ & M4).
  eexists _, _, _, _. split; [reflexivity|].
  rewrite !list_ascii_of_string_of_list_ascii.
  unfold owner_re in M2. apply Match_rep_chr in M2. destruct M2 as (Hall & Hlen & _).
  split; [|split].
  - destruct w2; simpl in *; [lia | discriminate].
  - intros Hnl. rewrite forallb_forall in Hall. specialize (Hall _ Hnl). discriminate.
  - eapply amount_re_grammar; eauto.
Qed.

Lemma X9_owner_and_amount_witness :
  exists id owner address amount : string,
    sample_record = [id; owner; address; amount] /\
    owner <> "" /\
    ~ In "010"%char (list_ascii_of_string owner) /\
    amount_grammar (list_ascii_of_string amount).
Proof.
  apply (@X9_owner_and_amount sample_text sample_record).
  vm_compute. left. reflexivity.
Defined.

Lemma count_dollar_split (n : nat) (s : chars) :
  count_occ ascii_dec s "$"%char
  = count_occ ascii_dec (firstn n s) "$"%char + count_occ ascii_dec (skipn n s) "$"%char.
Proof. now rewrite <- count_occ_app, firstn_skipn. Qed.

Lemma findall_from_dollars : forall (s : chars) (k : nat),
  List.length (findall_from pattern 4 k s) <= count_occ ascii_dec (skipn k s) "$"%char.
Proof.
  assert (Hhit : forall s o l, run pattern s [] = o :: l ->
            1 <= fst o /\ 1 <= count_occ ascii_dec (firstn (fst o) s) "$"%char).
  { intros s o l E.
    assert (Hin : In o (run pattern s [])) by (rewrite E; now left).
    apply run_sound in Hin. destruct Hin as [_ M].
    assert (Hd : In "$"%char (firstn (fst o) s)).
    { apply occurs_dollar. exists [], (firstn (fst o) s), [], (snd o).
      split; [now rewrite app_nil_r | exact M]. }
    split.
    - destruct (fst o); [contradiction | lia].
    - apply (count_occ_In ascii_dec) in Hd. lia. }
  induction s as [|x s IH]; intros k.
  - destruct k; simpl; [|lia].
    destruct (run pattern [] []) as [|o l] eqn:E; [simpl; lia|].
    destruct (Hhit _ _ _ E) as [_ H]. rewrite firstn_nil in H. simpl in H. lia.
  - destruct k as [|k]; [|simpl; apply IH].
    change (skipn 0 (x :: s)) with (x :: s).
    change (findall_from pattern 4 0 (x :: s))
      with (match run pattern (x :: s) [] with
            | o :: _ => groups 4 (snd o) :: findall_from pattern 4 (pred (fst o)) s
            | [] => findall_from pattern 4 0 s
            end).
    destruct (run pattern (x :: s) []) as [|o l] eqn:E.
    + specialize (IH 0). change (skipn 0 s) with s in IH. simpl count_occ.
      destruct (ascii_dec x "$"); lia.
    + destruct (Hhit _ _ _ E) as [Hpos Hd].
      specialize (IH (pred (fst o))).
      rewrite (count_dollar_split (fst o) (x :: s)).
      destruct (fst o) as [|n]; [lia|]. simpl pred in IH. simpl skipn.
      simpl List.length. simpl skipn in IH. lia.
Qed.

(** X10: extraction finds at most as many records as the text has
    currency symbols. *)
Theorem X10_records_bounded_by_currency_symbols (full_text : string) :
  List.length (find_records full_text)
  <= count_occ ascii_dec (list_ascii_of_string full_text) "$"%char.
Proof. apply (findall_from_dollars (list_ascii_of_string full_text) 0). Qed.

End ExtractorExtra.

(** * More on the address resolver *)
Module ResolverExtra.
Import Re Frame Extractor Resolver Observations ResolverSpec.
Local Open Scope string_scope.

(** X11: when either table lacks its address column ("Address" in the
    records, looked up first, "SITEADDR" in the reference) the run raises
    [KeyError] for that column, having matched nothing and written
    nothing. *)
Theorem X11_missing_address_columns (scorer : string -> string -> Q) (w : world)
    (csv_df shapefile_gdf : DataFrame) (output_path : string) :
  index_of "Address" (columns csv_df) = None \/
  index_of "SITEADDR" (columns shapefile_gdf) = None ->
  fuzzy_match_addresses scorer w csv_df shapefile_gdf output_path
    = ([], inl (KeyError (match index_of "Address" (columns csv_df) with
                          | None => "Address"
                          | Some _ => "SITEADDR"
                          end))).
Proof.
  intros H. unfold fuzzy_match_addresses, getitem.
  destruct (index_of "Address" (columns csv_df)) as [i|]; [|reflexivity].
  destruct H as [H|H]; [discriminate|]. rewrite H. reflexivity.
Qed.

Lemma X11_missing_address_columns_witness :
  fuzzy_match_addresses sample_scorer (world_with []) sample_sale
    {| columns := ["HANDLE"; "ADDRESS"]; rows := [[Num 11; Str "1 MAIN ST"]] |}
    "matched_addresses_231.csv"
    = ([], inl (KeyError "SITEADDR")).
Proof.
  apply (@X11_missing_address_columns sample_scorer (world_with []) sample_sale
           {| columns := ["HANDLE"; "ADDRESS"]; rows := [[Num 11; Str "1 MAIN ST"]] |}
           "matched_addresses_231.csv").
  right. reflexivity.
Defined.

(** The loop matches the addresses in order and stops at the first that
    raises. *)
Lemma match_each_trace scorer choices : forall addresses,
  exists done_ : list cell,
    fst (match_each scorer addresses choices) = map Matching done_ /\
    forall ms, snd (match_each scorer addresses choices) = inr ms ->
               done_ = addresses /\ List.length ms = List.length addresses.
Proof.
  induction addresses as [|a addresses IH].
  - exists []. split; [reflexivity|]. intros ms H. inversion H. auto.
  - destruct IH as (d & Hd & Hms). simpl match_each. unfold bind at 1. cbn [fst snd].
    destruct (get_best_match a choices scorer default_threshold) as [e|r].
    + exists [a]. split; [reflexivity|]. intros ms H. discriminate.
    + cbn [fst snd]. unfold bind at 1.
      destruct (match_each scorer addresses choices) as [tr [e|ms']]; cbn [fst snd] in *.
      * exists (a :: d). split; [simpl; now rewrite Hd|]. intros ms H. discriminate.
      * exists (a :: d). split; [simpl; rewrite Hd; now rewrite app_nil_r|].
        intros ms H. inversion H; subst. destruct (Hms ms' eq_refl) as [-> Hl].
        split; [reflexivity | simpl; now rewrite Hl].
Qed.

Ltac red_io := cbn [bind lift raise print ret fst snd app].

(** X12: the tables are written last.  Every run consists of the matching
    of addresses, in order, followed by nothing (the run failed and wrote
    nothing), by the linked table alone (the run failed behind it), or by
    the linked table and the low-confidence table selected from it, with
    the number of its rows in the final message (the run completed). *)
Theorem X12_tables_written_last (scorer : string -> string -> Q) (w : world)
    (csv_df shapefile_gdf : DataFrame) (output_path : string) :
  exists (matched : list cell) (rest : list event),
    fst (fuzzy_match_addresses scorer w csv_df shapefile_gdf output_path)
      = (map Matching matched ++ rest)%list /\
    ((rest = [] /\
      exists e, snd (fuzzy_match_addresses scorer w csv_df shapefile_gdf output_path)
                = inl e) \/
     (exists linked e,
        rest = [ToCsv output_path linked;
                Print ("✅ Matching complete. Saved to " ++ output_path)] /\
        snd (fuzzy_match_addresses scorer w csv_df shapefile_gdf output_path) = inl e) \/
     (exists linked sub,
        rest = [ToCsv output_path linked;
                Print ("✅ Matching complete. Saved to " ++ output_path);
                ToCsv "imperfect_matches.csv" sub;
                Print ("⚠️  " ++ str_nat (List.length (rows sub))
                       ++ " imperfect matches saved to imperfect_matches.csv")] /\
        where_lt linked "Score" 100 = inr sub /\
        snd (fuzzy_match_addresses scorer w csv_df shapefile_gdf output_path) = inr tt)).
Proof.
  unfold fuzzy_match_addresses.
  assert (Hfail : forall (e : exn),
            exists (matched : list cell) (rest : list event),
              @nil event = (map Matching matched ++ rest)%list /\
              ((rest = [] /\ exists e', @inl exn unit e = inl e') \/
               (exists (linked : DataFrame) (e' : exn),
                  rest = [ToCsv output_path linked;
                          Print ("✅ Matching complete. Saved to " ++ output_path)] /\
                  @inl exn unit e = inl e') \/
               (exists linked sub : DataFrame,
                  rest = [ToCsv output_path linked;
                          Print ("✅ Matching complete. Saved to " ++ output_path);
                          ToCsv "imperfect_matches.csv" sub;
                          Print ("⚠️  " ++ str_nat (List.length (rows sub))
                                 ++ " imperfect matches saved to imperfect_matches.csv")] /\
                  where_lt linked "Score" 100 = inr sub /\
                  @inl exn unit e = inr tt))).
  { intros e. exists [], []. split; [reflexivity|]. left. split; [reflexivity|]. now exists e. }
  destruct (getitem csv_df "Address") as [e|address]; [apply Hfail|].
  red_io.
  destruct (getitem shapefile_gdf "SITEADDR") as [e|siteaddr]; [apply Hfail|].
  red_io.
  destruct (getitem (setitem csv_df "Standard Address" address) "Standard Address")
    as [e|addresses]; [apply Hfail|].
  red_io.
  destruct (getitem (setitem shapefile_gdf "Standard Address" siteaddr) "Standard Address")
    as [e|choices]; [apply Hfail|].
  red_io.
  destruct (match_each_trace scorer choices addresses) as (matched & Htr & Hms).
  destruct (match_each scorer addresses choices) as [tm [e|ms]]; cbn [fst snd] in Htr, Hms;
    red_io.
  { exists matched, []. split; [now rewrite app_nil_r|]. left. split; [reflexivity|]. now exists e. }
  subst tm. exists matched.
  destruct (merge Left (setitem csv_df "Standard Address" address) (matches_frame ms)
              "Standard Address" "Standard Address" ("_x", "_y")) as [e|result1];
    red_io.
  { exists []. split; [reflexivity|]. left. split; [reflexivity|]. now exists e. }
  destruct (merge Inner result1 (setitem shapefile_gdf "Standard Address" siteaddr)
              "Matched Address" "Standard Address" ("", "_shp")) as [e|linked];
    red_io.
  { exists []. split; [reflexivity|]. left. split; [reflexivity|]. now exists e. }
  unfold to_csv. destruct (write_error w output_path) as [e|]; red_io.
  { exists []. split; [reflexivity|]. left. split; [reflexivity|]. now exists e. }
  destruct (where_lt linked "Score" 100) as [e|sub] eqn:Esub; red_io.
  { eexists. split; [reflexivity|]. right. left. exists linked, e. split; reflexivity. }
  destruct (write_error w "imperfect_matches.csv") as [e|]; red_io.
  { eexists. split; [reflexivity|]. right. left. exists linked, e. split; reflexivity. }
  eexists. split; [reflexivity|]. right. right. exists linked, sub.
  split; [reflexivity|]. split; [exact Esub | reflexivity].
Qed.

(** ** The tables of a run *)

Lemma mem_In c l : mem c l = true <-> In c l.
Proof.
  unfold mem. rewrite existsb_exists. split.
  - intros (x & Hx & E). apply String.eqb_eq in E. now subst.
  - intros H. exists c. split; [exact H | apply String.eqb_refl].
Qed.

Lemma index_of_lt c : forall cols i, index_of c cols = Some i -> i < List.length cols.
Proof.
  induction cols as [|x cols IH]; simpl; intros i H; [discriminate|].
  destruct (String.eqb c x).
  - inversion H. lia.
  - destruct (index_of c cols) as [k|]; [|discriminate].
    inversion H. specialize (IH k eq_refl). lia.
Qed.

Lemma index_of_In c : forall cols, index_of c cols = None <-> ~ In c cols.
Proof.
  induction cols as [|x cols IH]; simpl.
  - split; [intros _ [] | reflexivity].
  - destruct (String.eqb_spec c x) as [->|Hne].
    + split; [discriminate | intros H; exfalso; apply H; now left].
    + destruct (index_of c cols) as [k|]; simpl.
      * split; [discriminate|]. intros H. exfalso.
        assert (Hn : ~ In c cols) by (intros Hin; apply H; now right).
        apply IH in Hn. discriminate.
      * split; [|reflexivity]. intros _ [H|H]; [congruence|].
        destruct IH as [IH _]. exact (IH eq_refl H).
Qed.

Lemma index_of_app c (a b : list string) :
  index_of c (a ++ b)%list
  = match index_of c a with
    | Some i => Some i
    | None => option_map (Nat.add (List.length a)) (index_of c b)
    end.
Proof.
  induction a as [|x a IH]; simpl.
  - now destruct (index_of c b).
  - destruct (String.eqb c x); [reflexivity|]. rewrite IH.
    destruct (index_of c a); [reflexivity|]. now destruct (index_of c b).
Qed.

Lemma at_col_app_l i (l r : list cell) :
  i < List.length l -> at_col i (l ++ r)%list = at_col i l.
Proof. intros H. unfold at_col. now apply app_nth1. Qed.

Lemma at_col_middle (l r : list cell) x : at_col (List.length l) (l ++ x :: r)%list = x.
Proof. unfold at_col. apply nth_middle. Qed.

Lemma key_eqb_refl c : key_eqb c c = true.
Proof.
  destruct c as [s|q|]; simpl; [apply String.eqb_refl | | reflexivity].
  apply Qeq_bool_iff. apply Qeq_refl.
Qed.

Lemma set_nth_length v : forall i (row : list cell),
  List.length (set_nth i v row) = List.length row.
Proof.
  induction i as [|i IH]; intros [|x row]; simpl; auto.
Qed.

Lemma at_col_set_nth v : forall i (row : list cell),
  i < List.length row -> at_col i (set_nth i v row) = v.
Proof.
  unfold at_col. induction i as [|i IH]; intros [|x row]; simpl; intros H; try lia; auto.
  apply IH. lia.
Qed.

Lemma map_combine_map {A B C} (f : A -> B) (g : A * B -> C) (l : list A) :
  map g (combine l (map f l)) = map (fun x => g (x, f x)) l.
Proof. induction l as [|x l IH]; simpl; [reflexivity | now rewrite IH]. Qed.

(** [df[col] = df[other]] on a rectangular table: the table stays
    rectangular and [df[col]] reads the values back. *)
Lemma setitem_column df col (f : list cell -> cell) :
  rectangular df ->
  let df' := setitem df col (map f (rows df)) in
  rectangular df' /\
  exists k, index_of col (columns df') = Some k /\
            getitem df' col = inr (map f (rows df)) /\
            getitem df' col = inr (map (at_col k) (rows df')).
Proof.
  intros Hrect. unfold setitem.
  destruct (index_of col (columns df)) as [i|] eqn:Ei; cbv zeta.
  - rewrite map_combine_map. cbn [fst snd]. split.
    + intros row Hin. simpl in Hin. apply in_map_iff in Hin.
      destruct Hin as (r & <- & Hr). simpl. rewrite set_nth_length. now apply Hrect.
    + exists i. simpl columns. split; [exact Ei|]. unfold getitem. simpl. rewrite Ei.
      split; [|reflexivity]. f_equal. rewrite map_map. apply map_ext_in.
      intros r Hr. apply at_col_set_nth. rewrite (Hrect r Hr).
      eapply index_of_lt; eauto.
  - rewrite map_combine_map. cbn [fst snd]. split.
    + intros row Hin. simpl in Hin. apply in_map_iff in Hin.
      destruct Hin as (r & <- & Hr). simpl. rewrite !length_app, (Hrect r Hr). reflexivity.
    + exists (List.length (columns df)). simpl columns.
      assert (Hk : index_of col (columns df ++ [col])%list = Some (List.length (columns df))).
      { rewrite index_of_app, Ei. simpl. rewrite String.eqb_refl. simpl. f_equal. lia. }
      split; [exact Hk|]. unfold getitem. simpl. rewrite Hk.
      split; [|reflexivity]. f_equal. rewrite map_map. apply map_ext_in.
      intros r Hr. rewrite <- (Hrect r Hr). apply at_col_middle.
Qed.

(** A row with a partner is in the join, inner or left. *)
Lemma merge_partner how left right lo ro sfx res i j l r :
  merge how left right lo ro sfx = inr res ->
  index_of lo (columns left) = Some i ->
  index_of ro (columns right) = Some j ->
  In l (rows left) -> In r (rows right) ->
  key_eqb (at_col i l) (at_col j r) = true ->
  In (l ++ right_part (String.eqb lo ro) j r)%list (rows res).
Proof.
  unfold merge. intros H Hi Hj Hl Hr Hk. rewrite Hi, Hj in H.
  inversion H; subst; clear H. simpl. apply in_flat_map. exists l. split; [exact Hl|].
  assert (Hp : In r (filter (fun r0 => key_eqb (at_col i l) (at_col j r0)) (rows right))).
  { apply filter_In. auto. }
  destruct (filter (fun r0 => key_eqb (at_col i l) (at_col j r0)) (rows right))
    as [|p ps] eqn:Ef; [contradiction|].
  exact (in_map (fun r0 => (l ++ right_part (String.eqb lo ro) j r0)%list) (p :: ps) r Hp).
Qed.

Lemma merge_columns how left right lo ro sfx res :
  merge how left right lo ro sfx = inr res ->
  exists i j overlap,
    index_of lo (columns left) = Some i /\
    index_of ro (columns right) = Some j /\
    (forall c, In c overlap <->
               In c (columns left) /\
               In c (right_part (String.eqb lo ro) j (columns right)) /\
               (String.eqb lo ro && String.eqb c lo = false)%bool) /\
    columns res
      = (map (with_suffix overlap (fst sfx)) (columns left)
         ++ map (with_suffix overlap (snd sfx))
              (right_part (String.eqb lo ro) j (columns right)))%list.
Proof.
  unfold merge. intros H.
  destruct (index_of lo (columns left)) as [i|]; [|discriminate].
  destruct (index_of ro (columns right)) as [j|]; [|discriminate].
  inversion H; subst; clear H. eexists i, j, _. split; [reflexivity|].
  split; [reflexivity|]. split; [|reflexivity].
  intros c. rewrite filter_In, andb_true_iff, mem_In, negb_true_iff. tauto.
Qed.

(** Everything a completed run went through. *)
Lemma fuzzy_completed scorer w csv shp out tr :
  fuzzy_match_addresses scorer w csv shp out = (tr, inr tt) ->
  exists address siteaddr addresses choices tm ms result1 linked sub,
    getitem csv "Address" = inr address /\
    getitem shp "SITEADDR" = inr siteaddr /\
    getitem (setitem csv "Standard Address" address) "Standard Address" = inr addresses /\
    getitem (setitem shp "Standard Address" siteaddr) "Standard Address" = inr choices /\
    match_each scorer addresses choices = (tm, inr ms) /\
    merge Left (setitem csv "Standard Address" address) (matches_frame ms)
      "Standard Address" "Standard Address" ("_x", "_y") = inr result1 /\
    merge Inner result1 (setitem shp "Standard Address" siteaddr)
      "Matched Address" "Standard Address" ("", "_shp") = inr linked /\
    where_lt linked "Score" 100 = inr sub /\
    In (ToCsv out linked) tr /\
    In (ToCsv "imperfect_matches.csv" sub) tr.
Proof.
  unfold fuzzy_match_addresses. intros H.
  repeat match type of H with
  | bind (lift _) _ = _ =>
      apply bind_inv in H;
      let t1 := fresh "t" in let a := fresh "a" in let t2 := fresh "t" in
      let E := fresh "E" in
      destruct H as (t1 & a & t2 & E & H & ->);
      apply lift_inv in E; destruct E as [E ->]; cbv beta zeta in H
  end.
  apply bind_inv in H. destruct H as (tm & matches & t2 & Em & H & ->).
  cbv beta zeta in H.
  repeat match type of H with
  | bind (lift _) _ = _ =>
      apply bind_inv in H;
      let t1 := fresh "t" in let a := fresh "a" in let t2 := fresh "t" in
      let E := fresh "E" in
      destruct H as (t1 & a & t2 & E & H & ->);
      apply lift_inv in E; destruct E as [E ->]; cbv beta zeta in H
  end.
  apply bind_inv in H. destruct H as (tw & u1 & t3 & Ew & H & ->).
  apply to_csv_inv in Ew. subst tw.
  apply bind_inv in H. destruct H as (tp & u2 & t4 & Ep & H & ->).
  apply bind_inv in H. destruct H as (tl & sub & t5 & El & H & ->).
  apply lift_inv in El. destruct El as [El ->].
  apply bind_inv in H. destruct H as (tw2 & u3 & t6 & Ew2 & H & ->).
  apply to_csv_inv in Ew2. subst tw2.
  do 9 eexists. repeat (split; [eassumption|]).
  split; simpl; repeat (rewrite in_app_iff; simpl); tauto.
Qed.

Lemma match_each_entries scorer choices : forall addresses tr ms,
  match_each scorer addresses choices = (tr, inr ms) ->
  (forall a, In a addresses ->
     exists m s, In (a, m, s) ms /\
       get_best_match a choices scorer default_threshold = inr (m, s)) /\
  (forall a m s, In (a, m, s) ms ->
     In a addresses /\
     get_best_match a choices scorer default_threshold = inr (m, s)).
Proof.
  induction addresses as [|a0 addresses IH]; intros tr ms H.
  - inversion H; subst. split; [intros a [] | intros a m s []].
  - simpl match_each in H.
    apply bind_inv in H. destruct H as (t1 & r & t2 & E1 & H & ->).
    inversion E1; subst; clear E1.
    apply bind_inv in H. destruct H as (t3 & rs & t4 & E2 & H & ->).
    inversion H; subst; clear H.
    destruct (IH _ _ E2) as [IHa IHb]. destruct r as [m0 s0]. simpl.
    match goal with H : get_best_match _ _ _ _ = _ |- _ => rename H into Hg end.
    split.
    + intros a [<-|Ha].
      * exists m0, s0. split; [now left | exact Hg].
      * destruct (IHa a Ha) as (m & s & Hin & Hb). exists m, s. split; [now right | exact Hb].
    + intros a m s [Heq|Hin].
      * inversion Heq; subst. split; [now left | exact Hg].
      * destruct (IHb a m s Hin) as [Ha Hb]. split; [now right | exact Hb].
Qed.

Lemma best_from_choice scorer q : forall choices key best c s k,
  best_from scorer q key choices best = inr (Some (c, s, k)) ->
  In (Str c) choices \/ best = Some (c, s, k).
Proof.
  induction choices as [|x choices IH]; intros key best c s k H; simpl in H.
  - inversion H. now right.
  - destruct x as [choice|n|]; [|discriminate|].
    + cbv zeta in H.
      assert (Hkept : (if taken (scorer q choice) best
                       then Some (choice, scorer q choice, key) else best)
                      = Some (c, s, k) ->
                      In (Str c) (Str choice :: choices) \/ best = Some (c, s, k)).
      { destruct (taken (scorer q choice) best); intros Heq.
        - inversion Heq; subst. left. now left.
        - now right. }
      destruct (Qeq_bool (scorer q choice) optimal_score).
      * apply Hkept. congruence.
      * destruct (IH _ _ _ _ _ H) as [Hin|Heq]; [left; now right|].
        exact (Hkept Heq).
    + destruct (IH _ _ _ _ _ H) as [Hin|Heq]; [left; now right | now right].
Qed.

(** An accepted match is one of the choices and reaches the threshold. *)
Lemma get_best_match_accepted a choices scorer threshold m s :
  get_best_match a choices scorer threshold = inr (Some m, s) ->
  In (Str m) choices /\ (threshold <= s)%Q.
Proof.
  unfold get_best_match, extractOne.
  destruct a as [q|n|]; [|discriminate|discriminate].
  destruct (best_from scorer q 0 choices None) as [e|[[[c sc] k]|]] eqn:E;
    [discriminate| |discriminate].
  destruct (Qle_bool threshold sc) eqn:Hle; intros H; inversion H; subst.
  split; [|now apply Qle_bool_iff].
  destruct (@best_from_choice scorer q choices 0 None m s k E) as [Hin|Hno];
    [exact Hin | discriminate].
Qed.

Lemma not_suffixed (a suffix : string) (x : ascii) :
  last (list_ascii_of_string suffix) " "%char = x ->
  suffix <> "" ->
  last (list_ascii_of_string (a ++ suffix)) " "%char = x.
Proof.
  intros Hx Hne. rewrite ExtractorSpec.list_ascii_of_string_app.
  destruct (list_ascii_of_string suffix) as [|y l] eqn:E.
  - destruct suffix; [congruence | discriminate].
  - rewrite <- Hx. clear. induction (list_ascii_of_string a) as [|z t IH]; [reflexivity|].
    simpl app. rewrite <- IH. simpl. destruct (t ++ y :: l)%list eqn:E; [|reflexivity].
    now destruct t.
Qed.

(** After the first join "Matched Address" is the column right behind
    those of the records. *)
Lemma matched_address_index csv1 ms result1 :
  merge Left csv1 (matches_frame ms) "Standard Address" "Standard Address" ("_x", "_y")
    = inr result1 ->
  forall i2, index_of "Matched Address" (columns result1) = Some i2 ->
             i2 = List.length (columns csv1).
Proof.
  intros Hm i2 Hi2.
  destruct (merge_columns _ _ _ _ _ _ Hm) as (i & j & ov & Hi & Hj & Hov & Hcols).
  destruct ms as [|m0 ms]; [discriminate|].
  simpl in Hj. inversion Hj; subst j; clear Hj.
  change (String.eqb "Standard Address" "Standard Address") with true in *.
  simpl right_part in *. simpl fst in Hcols. simpl snd in Hcols.
  rewrite Hcols, index_of_app in Hi2.
  assert (Hfirst : index_of "Matched Address" (map (with_suffix ov "_x") (columns csv1)) = None).
  { apply index_of_In. intros Hin. apply in_map_iff in Hin.
    destruct Hin as (c & Hc & Hin). unfold with_suffix in Hc.
    destruct (mem c ov) eqn:Hmem.
    - apply (f_equal (fun t => last (list_ascii_of_string t) " "%char)) in Hc.
      rewrite (@not_suffixed c "_x" "x"%char eq_refl) in Hc by discriminate.
      vm_compute in Hc. discriminate.
    - subst c. assert (Hin' : In "Matched Address" ov).
      { apply Hov. split; [exact Hin|]. split; [now left | reflexivity]. }
      apply mem_In in Hin'. congruence. }
  rewrite Hfirst in Hi2. rewrite length_map in Hi2.
  simpl map in Hi2. unfold with_suffix in Hi2.
  destruct (mem "Matched Address" ov), (mem "Score" ov); cbn in Hi2;
    inversion Hi2; lia.
Qed.

(** X13: in a run that completes over rectangular tables, every record
    whose address has an accepted match (best score at least 25) is in the
    linked table: some row of it begins with the cells of the record (as
    they are once the "Standard Address" column is set). *)
Theorem X13_accepted_record_in_linked_table (scorer : string -> string -> Q) (w : world)
    (csv_df shapefile_gdf : DataFrame) (output_path : string) (tr : list event) :
  rectangular csv_df -> rectangular shapefile_gdf ->
  fuzzy_match_addresses scorer w csv_df shapefile_gdf output_path = (tr, inr tt) ->
  exists (address siteaddr : list cell) (k : nat) (linked : DataFrame),
    getitem csv_df "Address" = inr address /\
    getitem shapefile_gdf "SITEADDR" = inr siteaddr /\
    index_of "Standard Address" (columns (setitem csv_df "Standard Address" address))
      = Some k /\
    In (ToCsv output_path linked) tr /\
    forall (row : list cell) (m : string) (s : Q),
      In row (rows (setitem csv_df "Standard Address" address)) ->
      get_best_match (at_col k row) siteaddr scorer default_threshold = inr (Some m, s) ->
      exists lrow, In lrow (rows linked) /\ firstn (List.length row) lrow = row.
Proof.
  intros Hrc Hrs Hrun. apply fuzzy_completed in Hrun.
  destruct Hrun as (address & siteaddr & addresses & choices & tm & ms & result1 & linked
                    & sub & Ea & Es & Eaddr & Ech & Em & Em1 & Em2 & _ & Hlinked & _).
  assert (Haddress : exists ia, address = map (at_col ia) (rows csv_df)).
  { unfold getitem in Ea. destruct (index_of "Address" (columns csv_df)) as [ia|];
      inversion Ea. now exists ia. }
  destruct Haddress as (ia & Haddress).
  assert (Hsite : exists js, siteaddr = map (at_col js) (rows shapefile_gdf)).
  { unfold getitem in Es. destruct (index_of "SITEADDR" (columns shapefile_gdf)) as [js|];
      inversion Es. now exists js. }
  destruct Hsite as (js & Hsite).
  pose proof (@setitem_column csv_df "Standard Address" (at_col ia) Hrc) as Hc.
  cbv zeta in Hc. rewrite <- Haddress in Hc. destruct Hc as (Hrc1 & k & Hk & _ & Hget1).
  pose proof (@setitem_column shapefile_gdf "Standard Address" (at_col js) Hrs) as Hs.
  cbv zeta in Hs. rewrite <- Hsite in Hs. destruct Hs as (_ & j2 & Hj2 & Hback & Hget2).
  rewrite Eaddr in Hget1. inversion Hget1; subst addresses; clear Hget1.
  assert (Hchoices : choices = siteaddr) by congruence.
  rewrite Ech in Hget2. inversion Hget2 as [Hch2]; clear Hget2.
  exists address, siteaddr, k, linked.
  repeat (split; [assumption|]).
  intros row m s Hrow Hbest.
  set (csv1 := setitem csv_df "Standard Address" address) in *.
  set (shp1 := setitem shapefile_gdf "Standard Address" siteaddr) in *.
  (* the entry of [matches] for this address *)
  destruct (match_each_entries _ _ _ Em) as [Hentry _].
  destruct (Hentry (at_col k row) (in_map (at_col k) _ _ Hrow)) as (m' & s' & Hin & Hb').
  rewrite Hchoices, Hbest in Hb'. inversion Hb'; subst m' s'; clear Hb'.
  (* first join *)
  assert (Hms : matches_frame ms
                = {| columns := ["Standard Address"; "Matched Address"; "Score"];
                     rows := map match_cells ms |}) by (destruct ms; [contradiction | reflexivity]).
  assert (H1 : In (row ++ [Str m; Num s])%list (rows result1)).
  { apply (@merge_partner Left csv1 (matches_frame ms) "Standard Address" "Standard Address"
             ("_x", "_y") result1 k 0 row (match_cells (at_col k row, Some m, s)) Em1 Hk).
    - rewrite Hms. reflexivity.
    - exact Hrow.
    - rewrite Hms. exact (in_map match_cells _ _ Hin).
    - apply key_eqb_refl. }
  (* second join *)
  destruct (merge_columns _ _ _ _ _ _ Em2) as (i2 & j2' & ov & Hi2 & Hj2' & _ & _).
  assert (Hj : j2' = j2) by congruence. subst j2'.
  pose proof (matched_address_index _ _ Em1 Hi2) as Hi2len.
  destruct (get_best_match_accepted _ _ _ _ Hbest) as [Hchoice _].
  rewrite <- Hchoices, Hch2 in Hchoice. apply in_map_iff in Hchoice.
  destruct Hchoice as (r2 & Hr2 & Hr2in).
  exists ((row ++ [Str m; Num s]) ++ r2)%list. split.
  - apply (@merge_partner Inner result1 shp1 "Matched Address" "Standard Address"
             ("", "_shp") linked i2 j2 _ r2 Em2 Hi2 Hj2 H1 Hr2in).
    rewrite Hi2len, <- (Hrc1 row Hrow), at_col_middle, Hr2. apply String.eqb_refl.
  - rewrite <- app_assoc. now rewrite firstn_app, firstn_all, Nat.sub_diag, firstn_O, app_nil_r.
Qed.

Lemma rectangular_sample_sale : rectangular sample_sale.
Proof.
  intros row Hin. simpl in Hin.
  repeat (destruct Hin as [<-|Hin]; [reflexivity|]). contradiction.
Qed.

Lemma rectangular_sample_gazetteer : rectangular sample_gazetteer.
Proof.
  intros row Hin. simpl in Hin.
  repeat (destruct Hin as [<-|Hin]; [reflexivity|]). contradiction.
Qed.

Lemma X13_accepted_record_in_linked_table_witness :
  exists (address siteaddr : list cell) (k : nat) (linked : DataFrame),
    getitem sample_sale "Address" = inr address /\
    getitem sample_gazetteer "SITEADDR" = inr siteaddr /\
    index_of "Standard Address" (columns (setitem sample_sale "Standard Address" address))
      = Some k /\
    In (ToCsv "matched_addresses_231.csv" linked)
       (fst (fuzzy_match_addresses sample_scorer (world_with []) sample_sale
               sample_gazetteer "matched_addresses_231.csv")) /\
    forall (row : list cell) (m : string) (s : Q),
      In row (rows (setitem sample_sale "Standard Address" address)) ->
      get_best_match (at_col k row) siteaddr sample_scorer default_threshold
        = inr (Some m, s) ->
      exists lrow, In lrow (rows linked) /\ firstn (List.length row) lrow = row.
Proof.
  apply (@X13_accepted_record_in_linked_table sample_scorer (world_with []) sample_sale
           sample_gazetteer "matched_addresses_231.csv").
  - exact rectangular_sample_sale.
  - exact rectangular_sample_gazetteer.
  - vm_compute. reflexivity.
Defined.

(** Where a row of a join comes from. *)
Lemma merge_row_inv how left right lo ro sfx res L :
  merge how left right lo ro sfx = inr res ->
  In L (rows res) ->
  exists i j l,
    index_of lo (columns left) = Some i /\
    index_of ro (columns right) = Some j /\
    In l (rows left) /\
    ((exists r, In r (rows right) /\ key_eqb (at_col i l) (at_col j r) = true /\
                L = (l ++ right_part (String.eqb lo ro) j r)%list) \/
     (how = Left /\
      L = (l ++ map (fun _ => Null) (right_part (String.eqb lo ro) j (columns right)))%list)).
Proof.
  unfold merge. intros H HL.
  destruct (index_of lo (columns left)) as [i|]; [|discriminate].
  destruct (index_of ro (columns right)) as [j|]; [|discriminate].
  inversion H; subst; clear H. simpl in HL. apply in_flat_map in HL.
  destruct HL as (l & Hl & HL). exists i, j, l. repeat (split; [auto|]).
  destruct (filter (fun r => key_eqb (at_col i l) (at_col j r)) (rows right))
    as [|p ps] eqn:Ef.
  - destruct how; [contradiction|]. destruct HL as [<-|[]]. right. auto.
  - left.
    assert (HL' : In L (map (fun r => (l ++ right_part (String.eqb lo ro) j r)%list) (p :: ps)))
      by exact HL.
    apply in_map_iff in HL'. destruct HL' as (r & <- & Hr).
    rewrite <- Ef in Hr. apply filter_In in Hr. destruct Hr as [Hr Hk].
    exists r. auto.
Qed.

(** X14: in a run that completes over rectangular tables, with a
    reference that has no null address, every row of the linked table is a
    record, then its match and score, then the reference row of that match;
    the match is the accepted best match of the record's address, so the
    score is at least 25. *)
Theorem X14_linked_rows_are_accepted_matches (scorer : string -> string -> Q) (w : world)
    (csv_df shapefile_gdf : DataFrame) (output_path : string) (tr : list event) :
  rectangular csv_df -> rectangular shapefile_gdf ->
  (forall siteaddr, getitem shapefile_gdf "SITEADDR" = inr siteaddr -> ~ In Null siteaddr) ->
  fuzzy_match_addresses scorer w csv_df shapefile_gdf output_path = (tr, inr tt) ->
  exists (address siteaddr : list cell) (k j : nat) (linked : DataFrame),
    getitem csv_df "Address" = inr address /\
    getitem shapefile_gdf "SITEADDR" = inr siteaddr /\
    index_of "Standard Address" (columns (setitem csv_df "Standard Address" address))
      = Some k /\
    index_of "Standard Address" (columns (setitem shapefile_gdf "Standard Address" siteaddr))
      = Some j /\
    In (ToCsv output_path linked) tr /\
    forall lrow, In lrow (rows linked) ->
      exists (row : list cell) (m : string) (s : Q) (ref : list cell),
        lrow = (row ++ Str m :: Num s :: ref)%list /\
        In row (rows (setitem csv_df "Standard Address" address)) /\
        In ref (rows (setitem shapefile_gdf "Standard Address" siteaddr)) /\
        at_col j ref = Str m /\
        get_best_match (at_col k row) siteaddr scorer default_threshold = inr (Some m, s) /\
        (25 <= s)%Q.
Proof.
  intros Hrc Hrs Hnonull Hrun. apply fuzzy_completed in Hrun.
  destruct Hrun as (address & siteaddr & addresses & choices & tm & ms & result1 & linked
                    & sub & Ea & Es & Eaddr & Ech & Em & Em1 & Em2 & _ & Hlinked & _).
  specialize (Hnonull siteaddr Es).
  assert (Haddress : exists ia, address = map (at_col ia) (rows csv_df)).
  { unfold getitem in Ea. destruct (index_of "Address" (columns csv_df)) as [ia|];
      inversion Ea. now exists ia. }
  destruct Haddress as (ia & Haddress).
  assert (Hsite : exists js, siteaddr = map (at_col js) (rows shapefile_gdf)).
  { unfold getitem in Es. destruct (index_of "SITEADDR" (columns shapefile_gdf)) as [js|];
      inversion Es. now exists js. }
  destruct Hsite as (js & Hsite).
  pose proof (@setitem_column csv_df "Standard Address" (at_col ia) Hrc) as Hc.
  cbv zeta in Hc. rewrite <- Haddress in Hc. destruct Hc as (Hrc1 & k & Hk & _ & Hget1).
  pose proof (@setitem_column shapefile_gdf "Standard Address" (at_col js) Hrs) as Hs.
  cbv zeta in Hs. rewrite <- Hsite in Hs. destruct Hs as (_ & j2 & Hj2 & Hback & Hget2).
  rewrite Eaddr in Hget1. inversion Hget1; subst addresses; clear Hget1.
  assert (Hchoices : choices = siteaddr) by congruence.
  rewrite Ech in Hget2. inversion Hget2 as [Hch2]; clear Hget2.
  exists address, siteaddr, k, j2, linked.
  repeat (split; [assumption|]).
  intros lrow Hlrow.
  set (csv1 := setitem csv_df "Standard Address" address) in *.
  set (shp1 := setitem shapefile_gdf "Standard Address" siteaddr) in *.
  destruct (@merge_row_inv _ _ _ _ _ _ _ _ Em2 Hlrow)
    as (i2 & j2' & L1 & Hi2 & Hj2' & HL1 & [(ref & Href & Hkey & ->)|(Hleft & _)]);
    [|discriminate].
  assert (Hj : j2' = j2) by congruence. subst j2'.
  change (String.eqb "Matched Address" "Standard Address") with false. simpl right_part.
  pose proof (matched_address_index _ _ Em1 Hi2) as Hi2len.
  assert (Href_cell : In (at_col j2 ref) siteaddr).
  { rewrite <- Hchoices, Hch2. now apply in_map. }
  destruct (@merge_row_inv _ _ _ _ _ _ _ _ Em1 HL1)
    as (k' & j1 & row & Hk' & Hj1 & Hrow & Hcase).
  assert (Hkk : k' = k) by congruence. subst k'.
  change (String.eqb "Standard Address" "Standard Address") with true in Hcase.
  assert (Hms : ms <> [] /\ j1 = 0).
  { destruct ms; simpl in Hj1; [discriminate|]. split; [discriminate | congruence]. }
  destruct Hms as [Hms ->].
  assert (Hrows : rows (matches_frame ms) = map match_cells ms)
    by (destruct ms; reflexivity).
  assert (Hcolsm : columns (matches_frame ms)
                   = ["Standard Address"; "Matched Address"; "Score"])
    by (destruct ms; [contradiction | reflexivity]).
  rewrite Hrows, Hcolsm in Hcase. simpl right_part in Hcase.
  assert (Hlen : i2 = List.length row) by (rewrite Hi2len; symmetry; now apply Hrc1).
  destruct Hcase as [(r & Hr & Hkey1 & ->)|(_ & ->)].
  - apply in_map_iff in Hr. destruct Hr as ([[a m] s] & <- & Hin).
    simpl in Hkey1. unfold match_cells in Hkey. cbn [fst snd right_part drop_nth] in Hkey.
    rewrite Hlen, at_col_middle in Hkey.
    destruct (match_each_entries _ _ _ Em) as [_ Hentry].
    destruct (Hentry a m s Hin) as [_ Hbest]. rewrite Hchoices in Hbest.
    destruct m as [m|]; simpl in Hkey.
    + destruct (at_col j2 ref) as [t| |] eqn:Et; try discriminate.
      apply String.eqb_eq in Hkey. subst t.
      assert (Ha : at_col k row = a).
      { unfold get_best_match, extractOne in Hbest.
        destruct a as [q|n|]; try discriminate.
        unfold match_cells in Hkey1. cbn [fst snd] in Hkey1.
        change (at_col 0 [Str q; opt_cell (Some m); Num s]) with (Str q) in Hkey1.
        destruct (at_col k row); try discriminate.
        apply String.eqb_eq in Hkey1. now subst. }
      exists row, m, s, ref. rewrite Ha.
      split; [unfold match_cells; cbn [fst snd right_part drop_nth]; now rewrite <- app_assoc|].
      split; [exact Hrow|]. split; [exact Href|]. split; [exact Et|].
      split; [exact Hbest|]. now destruct (get_best_match_accepted _ _ _ _ Hbest).
    + destruct (at_col j2 ref); try discriminate. contradiction.
  - simpl map in Hkey. rewrite Hlen, at_col_middle in Hkey.
    destruct (at_col j2 ref); try discriminate. contradiction.
Qed.

Lemma X14_linked_rows_are_accepted_matches_witness :
  exists (address siteaddr : list cell) (k j : nat) (linked : DataFrame),
    getitem sample_sale "Address" = inr address /\
    getitem sample_gazetteer "SITEADDR" = inr siteaddr /\
    index_of "Standard Address" (columns (setitem sample_sale "Standard Address" address))
      = Some k /\
    index_of "Standard Address" (columns (setitem sample_gazetteer "Standard Address" siteaddr))
      = Some j /\
    In (ToCsv "matched_addresses_231.csv" linked)
       (fst (fuzzy_match_addresses sample_scorer (world_with []) sample_sale
               sample_gazetteer "matched_addresses_231.csv")) /\
    forall lrow, In lrow (rows linked) ->
      exists (row : list cell) (m : string) (s : Q) (ref : list cell),
        lrow = (row ++ Str m :: Num s :: ref)%list /\
        In row (rows (setitem sample_sale "Standard Address" address)) /\
        In ref (rows (setitem sample_gazetteer "Standard Address" siteaddr)) /\
        at_col j ref = Str m /\
        get_best_match (at_col k row) siteaddr sample_scorer default_threshold
          = inr (Some m, s) /\
        (25 <= s)%Q.
Proof.
  apply (@X14_linked_rows_are_accepted_matches sample_scorer (world_with []) sample_sale
           sample_gazetteer "matched_addresses_231.csv").
  - exact rectangular_sample_sale.
  - exact rectangular_sample_gazetteer.
  - intros siteaddr H. vm_compute in H. inversion H; subst. simpl.
    intros Hin. repeat (destruct Hin as [Hin|Hin]; [discriminate|]). contradiction.
  - vm_compute. reflexivity.
Defined.

End ResolverExtra.

(** * The run sequence *)
Module ScriptSpec.
Import Frame Extractor Resolver Retrieval Script Observations.
Import ExtractorSpec ResolverSpec RetrievalSpec.
Local Open Scope string_scope.

Lemma then_stage_lift {A B} (r : exn + A) (f : A -> sh B) :
  then_ (stage (lift r)) f
  = match r with
    | inl e => ([], inl (Uncaught e))
    | inr a => f a
    end.
Proof. destruct r as [e|a]; unfold then_, stage, lift; simpl; [reflexivity|]. now destruct (f a). Qed.

Lemma then_say {B} msg (f : unit -> sh B) :
  then_ (say msg) f = (Say msg :: fst (f tt), snd (f tt)).
Proof. reflexivity. Qed.

Lemma then_stage {A B} (m : io A) (f : A -> sh B) :
  then_ (stage m) f
  = match snd m with
    | inl e => (map Stage (fst m), inl (Uncaught e))
    | inr a => ((map Stage (fst m) ++ fst (f a))%list, snd (f a))
    end.
Proof. unfold then_, stage. simpl. now destruct (snd m). Qed.

Lemma quiet_stage (ev : list event) : forallb is_quiet (map Stage ev) = true.
Proof. induction ev; simpl; auto. Qed.

Lemma quiet_no_remove (t : list step) p : forallb is_quiet t = true -> ~ In (Remove p) t.
Proof.
  intros H Hin. rewrite forallb_forall in H. specialize (H _ Hin). discriminate.
Qed.

(** The clean-up always ends well and touches the listed files only. *)
Lemma cleanup_spec m : forall files,
  exists t, cleanup m files = (t, inr tt) /\
            (forall p, In (Remove p) t -> In p files) /\
            (forall e, ~ In (Stage e) t) /\
            (forall p c, ~ In (WriteFile p c) t).
Proof.
  induction files as [|f files IH].
  - exists []. split; [reflexivity|]. split; [intros p []|]. split; intros ? ; [intros [] | intros ? []].
  - destruct IH as (t & E & Hrem & Hst & Hwr). simpl cleanup.
    destruct (remove_error m f) as [msg|].
    + eexists. rewrite then_say, E. split; [reflexivity|]. cbn [fst snd].
      split; [|split].
      * intros p [H|H]; [discriminate | right; now apply Hrem].
      * intros e [H|H]; [discriminate | now apply (Hst e)].
      * intros p c [H|H]; [discriminate | now apply (Hwr p c)].
    + eexists. unfold act, say. unfold then_ at 2. cbn [fst snd app].
      unfold then_. cbn [fst snd app]. rewrite E. split; [reflexivity|]. cbn [fst snd].
      split; [|split].
      * intros p [H|[H|H]]; [inversion H; now left | discriminate | right; now apply Hrem].
      * intros e [H|[H|H]]; [discriminate | discriminate | now apply (Hst e)].
      * intros p c [H|[H|H]]; [discriminate | discriminate | now apply (Hwr p c)].
Qed.

(** How the part behind a successful extraction can end. *)
Lemma match_and_clean_cases tsr m w ev t r :
  match_and_clean tsr m w ev = (t, r) ->
  (exists e, r = inl (Uncaught e) /\ forallb is_quiet t = true) \/
  (r = inr tt /\
   exists t1 t2 linked sub,
     t = (t1 ++ t2)%list /\ forallb is_quiet t1 = true /\
     In (Stage (ToCsv matched_output_filename linked)) t1 /\
     In (Stage (ToCsv "imperfect_matches.csv" sub)) t1 /\
     cleanup m [pdf_filename; csv_filename; standardized_csv_filename] = (t2, inr tt)).
Proof.
  unfold match_and_clean. rewrite then_stage_lift.
  destruct (read_csv m csv_filename ev) as [e|df].
  { intros H. inversion H. left. now exists e. }
  rewrite then_stage_lift.
  destruct (getitem df "Address") as [e|address].
  { intros H. inversion H. left. now exists e. }
  rewrite then_stage. unfold to_csv at 1 2 3.
  destruct (write_error w standardized_csv_filename) as [e|]; cbn [raise fst snd map].
  { intros H. inversion H. left. now exists e. }
  rewrite then_say. cbn [fst snd app]. rewrite then_stage_lift.
  destruct (read_back m (setitem df "Standard Address" address)) as [e|csv_df].
  { intros H. inversion H. left. now exists e. }
  rewrite then_stage_lift.
  destruct (read_file m shapefile_path) as [e|shp].
  { intros H. inversion H. left. now exists e. }
  rewrite then_stage.
  destruct (fuzzy_match_addresses tsr w csv_df shp matched_output_filename)
    as [tf [e|[]]] eqn:Ef; cbn [fst snd].
  { intros H. inversion H. left. exists e. split; [reflexivity|].
    simpl. apply quiet_stage. }
  destruct (cleanup_spec m [pdf_filename; csv_filename; standardized_csv_filename])
    as (t2 & Ec & _). rewrite Ec. cbn [fst snd].
  intros H. inversion H; subst; clear H. right. split; [reflexivity|].
  destruct (fuzzy_outputs _ _ _ _ _ Ef) as (linked & sub & H1 & H2 & _).
  exists (Stage (ToCsv standardized_csv_filename (setitem df "Standard Address" address))
          :: Say ("✅ Addresses copied for matching in " ++ standardized_csv_filename)
          :: map Stage tf), t2, linked, sub.
  split; [reflexivity|]. split; [simpl; apply quiet_stage|].
  split; [right; right; now apply in_map|].
  split; [right; right; now apply in_map | reflexivity].
Qed.

Lemma download_steps o url path :
  exists (td : list step) (b : bool),
    download_pdf o url path = (td, inr b) /\
    forallb is_fetching td = true /\
    (b = true -> exists c, In (WriteFile path c) td /\ file_at path td = Some c).
Proof.
  unfold download_pdf.
  destruct (get_reply o url) as [r|msg|e].
  - destruct (status_code r =? 200)%Z.
    + destruct (save o path (content r)) as [|[part|] msg].
      * eexists _, true. split; [reflexivity|]. split; [reflexivity|].
        intros _. exists (content r). split; [right; now left|].
        simpl. now rewrite String.eqb_refl.
      * eexists _, false. split; [reflexivity|]. split; [reflexivity | discriminate].
      * eexists _, false. split; [reflexivity|]. split; [reflexivity | discriminate].
    + eexists _, false. split; [reflexivity|]. split; [reflexivity | discriminate].
  - eexists _, false. split; [reflexivity|]. split; [reflexivity | discriminate].
  - eexists _, false. split; [reflexivity|]. split; [reflexivity | discriminate].
Qed.

(** How the extraction can end: with [True] and the table written, with
    [False], or with the exception of the closing of the document or of
    the iteration over its pages, and no table. *)
Lemma extraction_returns w pdf out :
  exists (ev : list event) (r : exn + bool),
    extract_property_data w pdf out = (ev, r) /\
    match r with
    | inr true => exists df, In (ToCsv out df) ev
    | inr false => True
    | inl e =>
        (forall p df, ~ In (ToCsv p df) ev) /\
        exists doc : document,
          fitz_open w pdf = inr doc /\
          (close_error doc = Some e \/ close_error doc = None /\ stops doc = Some e)
    end.
Proof.
  unfold extract_property_data.
  destruct (negb (path_exists w pdf)).
  { eexists _, (inr false). split; [reflexivity | exact I]. }
  destruct (fitz_open w pdf) as [e|doc].
  { eexists _, (inr false). split; [reflexivity | exact I]. }
  destruct (read_pages_total doc 1 "") as (errs & r & E & Hp).
  pose proof (ExtractorExtra.read_pages_spec doc 1 "") as Hspec. rewrite E in Hspec.
  unfold bind. rewrite E. cbn [fst snd].
  destruct r as [e|text]; cbn [fst snd].
  - exists errs, (inl e). split; [reflexivity|]. split.
    + intros p df Hin. destruct (Hp _ Hin) as (msg & Hmsg). discriminate.
    + exists doc. split; [reflexivity|].
      destruct (close_error doc) as [c|]; [left; congruence|].
      right. split; [reflexivity|]. destruct (stops doc); congruence.
  - destruct (extract_from_text_cases w text out)
      as [(_ & Ex)|(_ & [(_ & Ex)|(e & _ & Ex)])]; rewrite Ex; cbn [fst snd].
    + eexists _, (inr false). split; [reflexivity | exact I].
    + eexists _, (inr true). split; [reflexivity|]. eexists.
      apply in_or_app. right. now left.
    + eexists _, (inr false). split; [reflexivity | exact I].
Qed.

(** The ways the script can go. *)
Lemma main_shape tsr m :
  exists (tc : list step) (checked : crash + bool),
    check_pdf (web m) pdf_url 3 3 = (tc, checked) /\
    forallb is_polling tc = true /\
    match checked with
    | inl c =>
        (exists k e, (1 <= k <= 3)%Z /\ broken (web m) pdf_url k = Some e /\
                     c = Uncaught e) /\
        main tsr m = (tc, inl c)
    | inr false =>
        (forall k, (1 <= k <= 3)%Z -> refused (web m) pdf_url k) /\
        count is_head tc = 3 /\
        main tsr m = ((tc ++ [Say "🔁 No new sale list PDF available."])%list, inr tt)
    | inr true =>
        exists (td : list step) (downloaded : bool),
          download_pdf (web m) pdf_url pdf_filename = (td, inr downloaded) /\
          forallb is_fetching td = true /\
          if downloaded then
            (exists content, In (WriteFile pdf_filename content) td /\
                             file_at pdf_filename td = Some content) /\
            exists (ev : list event) (extracted : exn + bool),
              extract_property_data (world_of m td) pdf_filename csv_filename
                = (ev, extracted) /\
              match extracted with
              | inl e =>
                  (forall p df, ~ In (ToCsv p df) ev) /\
                  (exists doc : document,
                     fitz_open (world_of m td) pdf_filename = inr doc /\
                     (close_error doc = Some e \/
                      close_error doc = None /\ stops doc = Some e)) /\
                  main tsr m = ((tc ++ td ++ map Stage ev)%list, inl (Uncaught e))
              | inr false =>
                  main tsr m
                    = ((tc ++ td ++ map Stage ev
                        ++ [Say "❌ Failed to extract property data."])%list, inr tt)
              | inr true =>
                  (exists df, In (ToCsv csv_filename df) ev) /\
                  exists t r,
                    match_and_clean tsr m (world_of m td) ev = (t, r) /\
                    main tsr m = ((tc ++ td ++ map Stage ev ++ t)%list, r)
              end
          else
            main tsr m = ((tc ++ td ++ [Say "❌ Failed to download PDF."])%list, inr tt)
    end.
Proof.
  destruct (@check_pdf_spec (web m) pdf_url 3 3 ltac:(lia))
    as (checked & tc & Ec & Hpoll & Hr).
  exists tc, checked. split; [exact Ec|]. split; [exact Hpoll|].
  unfold main. rewrite Ec. unfold then_ at 1. cbn [fst snd].
  destruct checked as [c|[|]].
  - destruct Hr as (k & e & Hk & Hbr & Hc & _).
    split; [exists k, e; auto | reflexivity].
  - destruct (download_steps (web m) pdf_url pdf_filename)
      as (td & downloaded & Ed & Hfetch & Hw).
    exists td, downloaded. split; [exact Ed|]. split; [exact Hfetch|].
    cbv zeta. rewrite Ed. unfold then_ at 1. cbn [fst snd].
    destruct downloaded; [|reflexivity].
    split; [now apply Hw|].
    destruct (extraction_returns (world_of m td) pdf_filename csv_filename)
      as (ev & extracted & Ex & Hcase).
    exists ev, extracted. split; [exact Ex|].
    rewrite then_stage, Ex. cbn [fst snd].
    destruct extracted as [e|[|]].
    + destruct Hcase as (Hno & Hdoc). split; [exact Hno|]. split; [exact Hdoc|].
      reflexivity.
    + split; [exact Hcase|].
      destruct (match_and_clean tsr m (world_of m td) ev) as [t r] eqn:Em.
      exists t, r. split; reflexivity.
    + reflexivity.
  - destruct Hr as (Hall & Hh & _). split; [exact Hall|]. split; [exact Hh | reflexivity].
Qed.

Lemma polling_not (tc : list step) (s : step) :
  forallb is_polling tc = true -> In s tc -> is_polling s = true.
Proof. intros H Hin. rewrite forallb_forall in H. now apply H. Qed.

Lemma fetching_not (td : list step) (s : step) :
  forallb is_fetching td = true -> In s td -> is_fetching s = true.
Proof. intros H Hin. rewrite forallb_forall in H. now apply H. Qed.

(** X15: when each of the three attempts of [check_pdf] is answered without
    a PDF or fails with a [requests.RequestException], the script does
    nothing else: after three HEAD requests it prints that there is no new
    list and ends; no GET request, no file written or removed, no stage
    run. *)
Theorem X15_no_pdf_no_run (tsr : string -> string -> Q) (m : machine) :
  (forall k, (1 <= k <= 3)%Z -> refused (web m) pdf_url k) ->
  exists tc : list step,
    main tsr m = ((tc ++ [Say "🔁 No new sale list PDF available."])%list, inr tt) /\
    forallb is_polling tc = true /\
    count is_head tc = 3.
Proof.
  intros Hnone.
  destruct (@check_pdf_spec (web m) pdf_url 3 3 ltac:(lia))
    as (checked & tc & Ec & Hpoll & Hr).
  destruct checked as [c|[|]].
  - destruct Hr as (k & e & Hk & Hbr & _). destruct (Hnone k Hk) as [_ Hwhole].
    rewrite Hwhole in Hbr. discriminate.
  - destruct Hr as (k & Hk & Hgood & _). destruct (Hnone k Hk) as [Hbad _].
    rewrite Hbad in Hgood. discriminate.
  - exists tc. destruct Hr as (_ & Hh & _).
    split; [|split; [exact Hpoll | exact Hh]].
    unfold main. rewrite Ec. reflexivity.
Qed.

Lemma X15_no_pdf_no_run_witness :
  exists tc : list step,
    main sample_scorer (machine_with 4 [inr sample_text] (inr sample_gazetteer))
      = ((tc ++ [Say "🔁 No new sale list PDF available."])%list, inr tt) /\
    forallb is_polling tc = true /\
    count is_head tc = 3.
Proof.
  apply (@X15_no_pdf_no_run sample_scorer
           (machine_with 4 [inr sample_text] (inr sample_gazetteer))).
  intros k Hk. unfold refused, accepted, broken, machine_with, outside_with. simpl.
  destruct (Z.ltb_spec k 4) as [_|Hge]; [split; reflexivity | lia].
Defined.

(** X16: the script removes files only at the end of a run in which the
    matching has completed and both tables were written, and only the
    three intermediate files (the PDF, the extracted CSV, the standardized
    CSV), never its outputs; such a run ends normally. *)
Theorem X16_removal_only_after_matching (tsr : string -> string -> Q) (m : machine)
    (path : string) :
  In (Remove path) (fst (main tsr m)) ->
  snd (main tsr m) = inr tt /\
  In path [pdf_filename; csv_filename; standardized_csv_filename] /\
  exists linked sub,
    In (Stage (ToCsv matched_output_filename linked)) (fst (main tsr m)) /\
    In (Stage (ToCsv "imperfect_matches.csv" sub)) (fst (main tsr m)).
Proof.
  intros Hin.
  destruct (main_shape tsr m) as (tc & checked & _ & Hpoll & Hcases).
  assert (Hnc : ~ In (Remove path) tc).
  { intros H. pose proof (@polling_not _ _ Hpoll H). discriminate. }
  destruct checked as [c|[|]].
  { destruct Hcases as (_ & Em). rewrite Em in Hin. contradiction. }
  2:{ destruct Hcases as (_ & _ & Em). rewrite Em in Hin. cbn [fst] in Hin.
      apply in_app_or in Hin.
      destruct Hin as [Hin|[Hin|[]]]; [contradiction | discriminate]. }
  destruct Hcases as (td & downloaded & _ & Hfetch & Hcases).
  assert (Hnd : ~ In (Remove path) td).
  { intros H. pose proof (@fetching_not _ _ Hfetch H). discriminate. }
  destruct downloaded.
  2:{ rewrite Hcases in Hin. cbn [fst] in Hin. rewrite !in_app_iff in Hin.
      destruct Hin as [Hin|[Hin|[Hin|[]]]];
        [contradiction | contradiction | discriminate]. }
  destruct Hcases as (_ & ev & extracted & _ & Hcases).
  assert (Hne : ~ In (Remove path) (map Stage ev)).
  { intros H. apply in_map_iff in H. destruct H as (e & He & _). discriminate. }
  destruct extracted as [e|[|]].
  { destruct Hcases as (_ & _ & Em). rewrite Em in Hin. cbn [fst] in Hin.
    rewrite !in_app_iff in Hin. tauto. }
  2:{ rewrite Hcases in Hin. cbn [fst] in Hin. rewrite !in_app_iff in Hin.
      destruct Hin as [Hin|[Hin|[Hin|[Hin|[]]]]];
        [contradiction | contradiction | contradiction | discriminate]. }
  destruct Hcases as (_ & t & r & Emc & Em).
  rewrite Em in Hin |- *. cbn [fst snd] in Hin |- *. rewrite !in_app_iff in Hin.
  destruct Hin as [Hin|[Hin|[Hin|Hin]]]; [contradiction | contradiction | contradiction |].
  destruct (match_and_clean_cases _ _ _ _ Emc)
    as [(e & _ & Hq)|(-> & t1 & t2 & linked & sub & -> & Hq & H1 & H2 & Ecl)].
  { exfalso. exact (@quiet_no_remove _ path Hq Hin). }
  split; [reflexivity|]. apply in_app_or in Hin. destruct Hin as [Hin|Hin].
  { exfalso. exact (@quiet_no_remove _ path Hq Hin). }
  destruct (cleanup_spec m [pdf_filename; csv_filename; standardized_csv_filename])
    as (t2' & Ecl' & Hrem & _). rewrite Ecl in Ecl'. inversion Ecl'; subst t2'.
  split; [now apply Hrem|].
  exists linked, sub. rewrite !in_app_iff. tauto.
Qed.

Lemma X16_removal_only_after_matching_witness :
  snd (main sample_scorer (machine_with 1 [inr sample_text] (inr sample_gazetteer)))
    = inr tt /\
  In "Sale-List-231.pdf" [pdf_filename; csv_filename; standardized_csv_filename] /\
  exists linked sub,
    In (Stage (ToCsv matched_output_filename linked))
       (fst (main sample_scorer (machine_with 1 [inr sample_text] (inr sample_gazetteer)))) /\
    In (Stage (ToCsv "imperfect_matches.csv" sub))
       (fst (main sample_scorer (machine_with 1 [inr sample_text] (inr sample_gazetteer)))).
Proof.
  apply (@X16_removal_only_after_matching sample_scorer
           (machine_with 1 [inr sample_text] (inr sample_gazetteer)) "Sale-List-231.pdf").
  vm_compute. do 14 right. left. reflexivity.
Defined.

(** X17: the script dies only of exceptions that nobody catches, in one of
    three places.  In [check_pdf]: of what a HEAD request raises that is no
    [requests.RequestException], before anything is downloaded.  In
    [extract_property_data]: of what the closing of the document raises or
    else the iteration over its pages, with the PDF downloaded and no table
    written.  Behind the extraction (lines 170 to 179): with the PDF
    downloaded and the extracted CSV written.  Whenever it dies nothing is
    cleaned up. *)
Theorem X17_death_leaves_intermediate_files (tsr : string -> string -> Q) (m : machine)
    (c : crash) :
  snd (main tsr m) = inl c ->
  exists e : exn,
    c = Uncaught e /\
    (forall path, ~ In (Remove path) (fst (main tsr m))) /\
    ((forallb is_polling (fst (main tsr m)) = true /\
      exists k, (1 <= k <= 3)%Z /\ broken (web m) pdf_url k = Some e) \/
     (exists (content : string) (doc : document),
        In (WriteFile pdf_filename content) (fst (main tsr m)) /\
        fitz m content = inr doc /\
        (close_error doc = Some e \/ close_error doc = None /\ stops doc = Some e) /\
        forall p df, ~ In (Stage (ToCsv p df)) (fst (main tsr m))) \/
     ((exists content, In (WriteFile pdf_filename content) (fst (main tsr m))) /\
      (exists df, In (Stage (ToCsv csv_filename df)) (fst (main tsr m))))).
Proof.
  intros Hc.
  destruct (main_shape tsr m) as (tc & checked & _ & Hpoll & Hcases).
  destruct checked as [c'|[|]].
  - destruct Hcases as ((k & e & Hk & Hbr & Hce) & Em).
    rewrite Em in Hc |- *. cbn [fst snd] in Hc |- *.
    exists e. split; [congruence|]. split.
    + intros path Hin. pose proof (@polling_not _ _ Hpoll Hin). discriminate.
    + left. split; [exact Hpoll|]. now exists k.
  - destruct Hcases as (td & downloaded & _ & Hfetch & Hcases).
    destruct downloaded; [|rewrite Hcases in Hc; discriminate].
    destruct Hcases as ((content & Hpdf & Hfile) & ev & extracted & _ & Hcases).
    destruct extracted as [e|[|]]; [| |rewrite Hcases in Hc; discriminate].
    + destruct Hcases as (Hno & (doc & Hopen & Hwhy) & Em).
      rewrite Em in Hc |- *. cbn [fst snd] in Hc |- *.
      exists e. split; [congruence|]. split.
      * intros path Hin. rewrite !in_app_iff in Hin.
        destruct Hin as [Hin|[Hin|Hin]].
        -- pose proof (@polling_not _ _ Hpoll Hin). discriminate.
        -- pose proof (@fetching_not _ _ Hfetch Hin). discriminate.
        -- apply in_map_iff in Hin. destruct Hin as (x & Hx & _). discriminate.
      * right. left. exists content, doc.
        split; [rewrite !in_app_iff; tauto|].
        split; [simpl in Hopen; rewrite Hfile in Hopen; exact Hopen|].
        split; [exact Hwhy|].
        intros p df Hin. rewrite !in_app_iff in Hin.
        destruct Hin as [Hin|[Hin|Hin]].
        -- pose proof (@polling_not _ _ Hpoll Hin). discriminate.
        -- pose proof (@fetching_not _ _ Hfetch Hin). discriminate.
        -- apply in_map_iff in Hin. destruct Hin as (x & Hx & Hin).
           inversion Hx; subst. exact (Hno p df Hin).
    + destruct Hcases as ((df & Hcsv) & t & r & Emc & Em).
      rewrite Em in Hc |- *. cbn [fst snd] in Hc |- *. subst r.
      destruct (match_and_clean_cases _ _ _ _ Emc) as [(e & He & Hq)|(Hr & _)];
        [|discriminate].
      exists e. split; [congruence|]. split.
      * intros path Hin. rewrite !in_app_iff in Hin.
        destruct Hin as [Hin|[Hin|[Hin|Hin]]].
        -- pose proof (@polling_not _ _ Hpoll Hin). discriminate.
        -- pose proof (@fetching_not _ _ Hfetch Hin). discriminate.
        -- apply in_map_iff in Hin. destruct Hin as (x & Hx & _). discriminate.
        -- exact (@quiet_no_remove _ path Hq Hin).
      * right. right. split.
        -- exists content. rewrite !in_app_iff. tauto.
        -- exists df. rewrite !in_app_iff. right. right. left. now apply in_map.
  - destruct Hcases as (_ & _ & Em). rewrite Em in Hc. discriminate.
Qed.

Lemma X17_death_leaves_intermediate_files_witness :
  exists e : exn,
    Uncaught (OSError "cannot close the document") = Uncaught e /\
    (forall path, ~ In (Remove path) (fst (main sample_scorer broken_pdf_machine))) /\
    ((forallb is_polling (fst (main sample_scorer broken_pdf_machine)) = true /\
      exists k, (1 <= k <= 3)%Z /\
        broken (web broken_pdf_machine) pdf_url k = Some e) \/
     (exists (content : string) (doc : document),
        In (WriteFile pdf_filename content) (fst (main sample_scorer broken_pdf_machine)) /\
        fitz broken_pdf_machine content = inr doc /\
        (close_error doc = Some e \/ close_error doc = None /\ stops doc = Some e) /\
        forall p df,
          ~ In (Stage (ToCsv p df)) (fst (main sample_scorer broken_pdf_machine))) \/
     ((exists content,
         In (WriteFile pdf_filename content) (fst (main sample_scorer broken_pdf_machine))) /\
      (exists df,
         In (Stage (ToCsv csv_filename df)) (fst (main sample_scorer broken_pdf_machine))))).
Proof.
  apply (@X17_death_leaves_intermediate_files sample_scorer broken_pdf_machine).
  vm_compute. reflexivity.
Defined.

(** The three deaths, run: a HEAD request that raises a [TypeError]; a
    document whose closing raises; a shapefile that is not there. *)
Example death_in_check_pdf :
  main sample_scorer
    {| web := {| head_reply := fun _ _ => Breaks (TypeError "unhashable type");
                 get_reply := fun _ => Fails "Connection refused";
                 save := fun _ _ => Saved |};
       fitz := fun _ => inr (intact [inr sample_text]);
       csv_error := fun _ => None;
       read_back := fun df => inr df;
       read_file := fun _ => inr sample_gazetteer;
       remove_error := fun _ => None |}
  = ([Head pdf_url], inl (Uncaught (TypeError "unhashable type"))).
Proof. reflexivity. Qed.

Example death_in_extraction :
  main sample_scorer broken_pdf_machine
  = ([Head pdf_url; Say "✅ PDF is available.";
      Get pdf_url; WriteFile pdf_filename "%PDF-1.7";
      Say ("📥 PDF downloaded to " ++ pdf_filename)],
     inl (Uncaught (OSError "cannot close the document"))).
Proof. vm_compute. reflexivity. Qed.

Example death_behind_extraction :
  snd (main sample_scorer
         (machine_with 1 [inr sample_text]
            (inl (OSError "prcl_address.shp: No such file or directory"))))
  = inl (Uncaught (OSError "prcl_address.shp: No such file or directory")).
Proof. vm_compute. reflexivity. Qed.

End ScriptSpec.
